(** * Rcoil: a shallow embedding of the tree builder, the request
      factories, the execution context and the execution director.

    Source files embedded here:
    - [src/rcoil.js]               (module [Rcoil])
    - [src/request.js]             (module [Request])
    - [src/execution-context.js]   (module [ExecutionContext])
    - [src/execution-director.js]  (module [ExecutionDirector])

    JavaScript objects that the code walks generically are kept as untyped
    values ([jsval]); of an object used as a string-keyed dictionary the
    own properties are a finite map, and a read tells the names found
    along the prototype chain apart; exceptions are an explicit
    [result]. *)

From Stdlib Require Import String Ascii List Arith Lia Bool.
From stdpp Require Import base strings pretty gmap list.
Import ListNotations.

Local Open Scope string_scope.
Local Open Scope list_scope.

Set Warnings "-register-all".

(* ===================================================================== *)
(** ** JavaScript values *)
(* ===================================================================== *)

(** The constructor an object was made by: an object literal, or
    [new Request(name)].  It is what [instanceof Request] looks at. *)
Inductive cls : Type := PlainObject | RequestObject.

(** The values that occur in a coil.  An object is the list of its own
    enumerable properties in insertion order, the order [for..in] follows
    for names that are not array indices (the objects of a coil have no
    such names); an array is the list of its elements.  A function value
    is inert: the builder never calls one, and [typeof] tells it apart
    from an object. *)
Inductive jsval : Type :=
| JUndef
| JNull
| JStr (s : string)
| JFun (f : nat)
| JObj (c : cls) (props : list (string * jsval))
| JArr (elems : list jsval).

(** What a call either returns or throws. *)
Inductive exn : Type :=
| Error (msg : string)
| TypeError.

Inductive result (A : Type) : Type :=
| Returned (a : A)
| Thrown (e : exn).
Arguments Returned {A} a.
Arguments Thrown {A} e.

Module JS.

(** [typeof v === 'object'] *)
Definition typeof_object (v : jsval) : bool :=
  match v with
  | JNull | JObj _ _ | JArr _ => true
  | JUndef | JStr _ | JFun _ => false
  end.

(** [v !== null], for a [v] that passed [typeof_object]. *)
Definition is_null (v : jsval) : bool :=
  match v with JNull => true | _ => false end.

(** [v != null]: neither [null] nor [undefined]. *)
Definition neq_null (v : jsval) : bool :=
  match v with JNull | JUndef => false | _ => true end.

Fixpoint lookup_prop (k : string) (ps : list (string * jsval)) : option jsval :=
  match ps with
  | [] => None
  | (k', v) :: ps' => if String.eqb k' k then Some v else lookup_prop k ps'
  end.

(** [o.k] for a property read that does not throw: [undefined] when the
    property is absent or [o] carries no properties. *)
Definition get (o : jsval) (k : string) : jsval :=
  match o with
  | JObj _ ps => match lookup_prop k ps with Some v => v | None => JUndef end
  | _ => JUndef
  end.

(** [o.hasOwnProperty(k)] for an [o] with no own property named
    [hasOwnProperty]: the call then reaches the method of
    [Object.prototype]. *)
Definition hasOwnProperty (o : jsval) (k : string) : bool :=
  match o with
  | JObj _ ps => match lookup_prop k ps with Some _ => true | None => false end
  | _ => false
  end.

(** [o.k = v] on a property list: replaces in place, or appends. *)
Fixpoint assign_prop (k : string) (v : jsval) (ps : list (string * jsval))
  : list (string * jsval) :=
  match ps with
  | [] => [(k, v)]
  | (k', v') :: ps' =>
      if String.eqb k' k then (k, v) :: ps' else (k', v') :: assign_prop k v ps'
  end.

Definition set (o : jsval) (k : string) (v : jsval) : jsval :=
  match o with
  | JObj c ps => JObj c (assign_prop k v ps)
  | _ => o
  end.

(** [v == s] for a string [s] (loose equality): a string equals an equal
    string, [undefined] and [null] equal no string.  An object, an array
    or a function is compared through its conversion to a string, which
    is not modelled: it stands as different from every string, and the
    properties below are about trees in which every [id] is a string,
    [undefined], [null] or absent. *)
Definition eq_string (v : jsval) (s : string) : bool :=
  match v with
  | JStr t => String.eqb t s
  | _ => false
  end.

(** [s.toUpperCase()] on a string of ASCII characters ([JS.is_ascii],
    below): the letters [a] to [z] become [A] to [Z], every other
    character stays.  A character outside ASCII is left as it is here,
    which is not what the source does with a letter that has an upper
    case of its own. *)
Definition upper_ascii (c : ascii) : ascii :=
  let n := nat_of_ascii c in
  if (97 <=? n)%nat && (n <=? 122)%nat then ascii_of_nat (n - 32) else c.

Fixpoint toUpperCase (s : string) : string :=
  match s with
  | EmptyString => EmptyString
  | String c s' => String (upper_ascii c) (toUpperCase s')
  end.

Definition of_option (o : option string) : jsval :=
  match o with Some s => JStr s | None => JNull end.

(** The elements of an array. *)
Definition elems_of (o : jsval) : list jsval :=
  match o with JArr es => es | _ => [] end.

(** [v === undefined] *)
Definition is_undefined (v : jsval) : bool :=
  match v with JUndef => true | _ => false end.

(** The text [v] contributes to [v + s] and [s + v] for a string [s].
    An object, an array or a function is converted by its own methods,
    which are not modelled: [None]. *)
Definition text (v : jsval) : option string :=
  match v with
  | JStr s => Some s
  | JUndef => Some "undefined"
  | JNull => Some "null"
  | JFun _ | JObj _ _ | JArr _ => None
  end.

(** The property names every object made by [{}] inherits from
    [Object.prototype]: the methods of the language, and the accessor
    [__proto__] and the four [__define/lookup..__] methods of Node. *)
Definition object_prototype : list string :=
  ["constructor"; "hasOwnProperty"; "isPrototypeOf"; "propertyIsEnumerable";
   "toLocaleString"; "toString"; "valueOf"; "__proto__";
   "__defineGetter__"; "__defineSetter__"; "__lookupGetter__"; "__lookupSetter__"].

(** [({})[k] !== undefined]: [k] is found along the prototype chain of
    an object that has no own properties. *)
Definition inherited (k : string) : bool :=
  existsb (String.eqb k) object_prototype.

(** [({})[k] === undefined] *)
Definition plain (k : string) : bool := negb (inherited k).

(** Every character of [s] is an ASCII character. *)
Fixpoint is_ascii (s : string) : bool :=
  match s with
  | EmptyString => true
  | String c s' => (nat_of_ascii c <? 128)%nat && is_ascii s'
  end.

End JS.

(* ===================================================================== *)
(** ** request.js *)
(* ===================================================================== *)

(** What [url.parse] returns, as far as [_createHttpRequest] reads it.
    [None] is [null]. *)
Record Url : Type := MkUrl {
  url_hostname : option string;
  url_path : option string;
  url_hash : option string;
  url_port : option string;
  url_protocol : option string
}.

(** The two external modules [request.js] requires: [valid-url] and Node's
    [url].  They are collaborators outside the repository, so the code is
    embedded against their interface. *)
Class UrlModules : Type := {
  (** truthiness of [validUrl.isUri(config)] *)
  isUri : jsval -> bool;
  (** [url.parse(config)] on a string *)
  url_parse : string -> Url
}.

Module Request.

(** [Request.HttpVerb] *)
Module HttpVerb.
Definition GET := "GET".
Definition POST := "POST".
Definition PUT := "PUT".
Definition PATCH := "PATCH".
Definition HEAD := "HEAD".
Definition DELETE := "DELETE".
Definition OPTIONS := "OPTIONS".
End HttpVerb.

(** [Request.RequestType] *)
Module RequestType.
Definition HTTP := "http".
Definition LAMBDA := "lambda".
End RequestType.

(** A [Request] instance: the five fields the constructor sets. *)
Record t : Type := Mk {
  type : string;
  name : string;
  settings : jsval;
  inputFunc : jsval;
  outputFunc : jsval
}.

(** [new Request(name)] *)
Definition new (name : string) : t :=
  {| type := ""; name := name; settings := JObj PlainObject [];
     inputFunc := JNull; outputFunc := JNull |}.

Definition with_type (ty : string) (this : t) : t :=
  {| type := ty; name := name this; settings := settings this;
     inputFunc := inputFunc this; outputFunc := outputFunc this |}.

Definition with_settings (s : jsval) (this : t) : t :=
  {| type := type this; name := name this; settings := s;
     inputFunc := inputFunc this; outputFunc := outputFunc this |}.

(** [Request.prototype._createHttpRequest]: the receiver after the call
    (its [type] and [settings] are assigned before anything can throw),
    and whether the call returned.  In the message of the second error
    the source text of a function is not modelled and stands as
    ["function"]. *)
Definition _createHttpRequest `{UrlModules} (httpVerb : string) (config : jsval) (this : t)
  : t * result unit :=
  let this := with_settings (JObj PlainObject []) (with_type RequestType.HTTP this) in
  if JS.typeof_object config then
    match config with
    | JNull => (this, Thrown TypeError)
    | _ =>
        if negb (JS.hasOwnProperty config "host")
           || negb (JS.hasOwnProperty config "path")
           || negb (JS.hasOwnProperty config "protocol")
           || negb (JS.hasOwnProperty config "method")
        then (this, Thrown (Error "Invalid request configuration. Missing parameters"))
        else (with_settings config this, Returned tt)
    end
  else
    if negb (isUri config) then
      (this, Thrown (Error ("Invalid request url: " +:+
                              match config with
                              | JStr s => s
                              | JUndef => "undefined"
                              | _ => "function"
                              end)))
    else
      match config with
      | JStr s =>
          let parsedUrl := url_parse s in
          (with_settings
             (JObj PlainObject
                [("host", JS.of_option (url_hostname parsedUrl));
                 ("path", JStr (default "" (url_path parsedUrl) +:+
                                default "" (url_hash parsedUrl)));
                 ("port", JS.of_option (url_port parsedUrl));
                 ("protocol", JS.of_option (url_protocol parsedUrl));
                 ("method", JStr (JS.toUpperCase httpVerb))])
             this, Returned tt)
      | _ => (this, Thrown TypeError)
      end.

(** [Request.prototype.setHttpRequest]: returns [this] *)
Definition setHttpRequest `{UrlModules} (httpVerb : string) (config : jsval) (this : t)
  : result t :=
  match _createHttpRequest httpVerb config this with
  | (this', Returned _) => Returned this'
  | (_, Thrown e) => Thrown e
  end.

Definition setGet `{UrlModules} (config : jsval) (this : t) : result t :=
  setHttpRequest HttpVerb.GET config this.
Definition setPost `{UrlModules} (config : jsval) (this : t) : result t :=
  setHttpRequest HttpVerb.POST config this.

(** [Request.prototype.onInput] *)
Definition onInput (inputFunc : jsval) (this : t) : t :=
  {| type := type this; name := name this; settings := settings this;
     inputFunc := inputFunc; outputFunc := outputFunc this |}.

(** [Request.get], [Request.post] *)
Definition get `{UrlModules} (name : string) (config : jsval) : result t :=
  setGet config (new name).
Definition post `{UrlModules} (name : string) (config : jsval) : result t :=
  setPost config (new name).

(** [Request.prototype.setPut], [setPatch], [setDelete], [setHead] and
    [setOptions] *)
Definition setPut `{UrlModules} (config : jsval) (this : t) : result t :=
  setHttpRequest HttpVerb.PUT config this.
Definition setPatch `{UrlModules} (config : jsval) (this : t) : result t :=
  setHttpRequest HttpVerb.PATCH config this.
Definition setDelete `{UrlModules} (config : jsval) (this : t) : result t :=
  setHttpRequest HttpVerb.DELETE config this.
Definition setHead `{UrlModules} (config : jsval) (this : t) : result t :=
  setHttpRequest HttpVerb.HEAD config this.
Definition setOptions `{UrlModules} (config : jsval) (this : t) : result t :=
  setHttpRequest HttpVerb.OPTIONS config this.

(** [Request.put], [Request.patch], [Request.head], [Request.delete] and
    [Request.options] *)
Definition put `{UrlModules} (name : string) (config : jsval) : result t :=
  setPut config (new name).
Definition patch `{UrlModules} (name : string) (config : jsval) : result t :=
  setPatch config (new name).
Definition head `{UrlModules} (name : string) (config : jsval) : result t :=
  setHead config (new name).
Definition delete `{UrlModules} (name : string) (config : jsval) : result t :=
  setDelete config (new name).
Definition options `{UrlModules} (name : string) (config : jsval) : result t :=
  setOptions config (new name).

(** [Request.prototype._createLambdaRequest].  The test
    [qualifier == ""] is the loose comparison with a string ([JS.eq_string],
    which leaves out objects and arrays). *)
Definition _createLambdaRequest (functionArn qualifier : jsval) (this : t) : t :=
  with_settings
    (JObj PlainObject
       [("function", functionArn);
        ("qualifier",
         if JS.is_undefined qualifier || negb (JS.neq_null qualifier)
            || JS.eq_string qualifier ""
         then JStr "$LATEST" else qualifier)])
    (with_type RequestType.LAMBDA this).

(** [Request.prototype.setLambda]: returns [this] *)
Definition setLambda (functionArn qualifier : jsval) (this : t) : t :=
  _createLambdaRequest functionArn qualifier this.

(** [Request.lambda]; a call without qualifier passes [undefined]. *)
Definition lambda (name : string) (functionArn qualifier : jsval) : t :=
  setLambda functionArn qualifier (new name).

(** [Request.prototype.getUrl].  Reading a property of [settings] throws
    when [settings] is [null] or [undefined]; no case of the [switch]
    matching, the method returns [undefined].  The result is [None] where
    it depends on the text of an object, an array or a function. *)
Definition getUrl (this : t) : option (result jsval) :=
  if String.eqb (type this) RequestType.HTTP then
    match settings this with
    | JUndef | JNull => Some (Thrown TypeError)
    | s =>
        match JS.text (JS.get s "protocol"), JS.text (JS.get s "host"),
              JS.text (JS.get s "port"), JS.text (JS.get s "path") with
        | Some protocol, Some host, Some port, Some path =>
            Some (Returned (JStr (((((protocol +:+ "//") +:+ host) +:+ ":") +:+ port) +:+ path)))
        | _, _, _, _ => None
        end
    end
  else if String.eqb (type this) RequestType.LAMBDA then
    match settings this with
    | JUndef | JNull => Some (Thrown TypeError)
    | s =>
        match JS.text (JS.get s "function"), JS.text (JS.get s "qualifier") with
        | Some arn, Some qualifier =>
            Some (Returned (JStr ((arn +:+ ":") +:+ qualifier)))
        | _, _ => None
        end
    end
  else Some (Returned JUndef).

(** The instance as the object the tree walker sees: its own enumerable
    properties in the order the constructor assigns them.  The methods
    live on the prototype; [for..in] lists them too, but they are
    functions and the walker skips whatever is not of type object. *)
Definition to_js (r : t) : jsval :=
  JObj RequestObject
    [("type", JStr (type r)); ("name", JStr (name r)); ("settings", settings r);
     ("inputFunc", inputFunc r); ("outputFunc", outputFunc r)].

End Request.

(* ===================================================================== *)
(** ** rcoil.js *)
(* ===================================================================== *)

Module Rcoil.

(** The loop variable of [for (var i in o)]: a property name, or an
    array index. *)
Inductive key : Type :=
| KProp (k : string)
| KIdx (i : nat).

(** A reference to an object of the tree is the way to it from the
    root: at each level, the position of the property (or element) in
    enumeration order. *)
Definition path : Type := list nat.

(** What a [treeWalkerCallback] returns. *)
Record processResult : Type := MkResult {
  shouldReturn : bool;
  value : jsval
}.

(** The [Rcoil] instance. *)
Record t : Type := Mk {
  calls : list jsval;
  _tmpPositionId : string;
  _totalRequestGroups : nat
}.

(** [new Rcoil()] *)
Definition new : t :=
  {| calls := []; _tmpPositionId := ""; _totalRequestGroups := 0 |}.

(** One turn of the loop of [_traverseTree] on the property [i] at
    position [n] holding [oi]; [sub] is what the recursive call on [oi]
    returns and [rest] what the remaining turns return.  [None] is a
    [null] (or [undefined]) return value. *)
Definition visit (process : key -> jsval -> processResult)
    (i : key) (n : nat) (oi : jsval)
    (sub rest : option (path * jsval)) : option (path * jsval) :=
  if negb (JS.typeof_object oi) then rest
  else
    let result := process i oi in
    if shouldReturn result then
      (if JS.neq_null (value result) then Some ([n], value result) else None)
    else
      match (if negb (JS.is_null oi) then sub else None) with
      | Some (p, v) => Some (n :: p, v)
      | None => rest
      end.

(** [Rcoil.prototype._traverseTree]: the object the walk returns,
    together with the place in [o] of the node at which [process] asked
    to return. *)
Fixpoint _traverseTree (o : jsval) (process : key -> jsval -> processResult)
  {struct o} : option (path * jsval) :=
  match o with
  | JObj _ props =>
      (fix each (n : nat) (ps : list (string * jsval)) {struct ps} :=
         match ps with
         | [] => None
         | (i, oi) :: ps' =>
             visit process (KProp i) n oi (_traverseTree oi process) (each (S n) ps')
         end) 0 props
  | JArr elems =>
      (fix each (n : nat) (es : list jsval) {struct es} :=
         match es with
         | [] => None
         | oi :: es' =>
             visit process (KIdx n) n oi (_traverseTree oi process) (each (S n) es')
         end) 0 elems
  | _ => None
  end.

(** The callback [_findRequestGroup] passes to the walker. *)
Definition matches_id (groupId : string) (_ : key) (value : jsval) : processResult :=
  if JS.typeof_object value && JS.neq_null value && JS.eq_string (JS.get value "id") groupId
  then {| shouldReturn := true; value := value |}
  else {| shouldReturn := false; value := JNull |}.

(** [Rcoil.prototype._findRequestGroup] *)
Definition _findRequestGroup (o : jsval) (groupId : string) : option (path * jsval) :=
  _traverseTree o (matches_id groupId).

(** [Rcoil.prototype._createEmptyRequestGroup] *)
Definition _createEmptyRequestGroup (groupId : string) : jsval :=
  JObj PlainObject [("id", JStr groupId); ("requests", JArr []); ("children", JArr [])].

(** Replaces the node at [p] by its image under [f]: how a mutation
    through a reference shows in the tree. *)
Fixpoint modify_at (p : path) (f : jsval -> jsval) (o : jsval) : jsval :=
  match p with
  | [] => f o
  | n :: p' =>
      match o with
      | JObj c ps => JObj c (alter (fun kv => (fst kv, modify_at p' f (snd kv))) n ps)
      | JArr es => JArr (alter (modify_at p' f) n es)
      | _ => o
      end
  end.

(** [target.k.push(x)], where [target] is the object the tree holds at
    [p]: only an array has [push]; on anything else the call throws a
    [TypeError] and the tree stays as it is. *)
Definition push_into (this : t) (p : path) (target : jsval) (k : string) (x : jsval)
  : option (list jsval) :=
  match JS.get target k with
  | JArr l =>
      Some (JS.elems_of (modify_at p (fun o => JS.set o k (JArr (l ++ [x]))) (JArr (calls this))))
  | _ => None
  end.

(** [Rcoil.prototype.startGroup]: the instance after the call and
    whether the call returned ([this]) or threw. *)
Definition startGroup (groupId : string) (this : t) : t * result unit :=
  match _findRequestGroup (JArr (calls this)) groupId with
  | Some _ =>
      (this, Thrown (Error ("Request Group " +:+ groupId +:+ " already exists in your Symphony")))
  | None =>
      let pushed :=
        if negb (String.eqb (_tmpPositionId this) "") then
          match _findRequestGroup (JArr (calls this)) (_tmpPositionId this) with
          | None => None
          | Some (p, target) =>
              push_into this p target "children" (_createEmptyRequestGroup groupId)
          end
        else Some (calls this ++ [_createEmptyRequestGroup groupId]) in
      match pushed with
      | None => (this, Thrown TypeError)
      | Some calls' =>
          ({| calls := calls'; _tmpPositionId := groupId;
              _totalRequestGroups := S (_totalRequestGroups this) |}, Returned tt)
      end
  end.

(** [Rcoil.prototype.afterGroup] *)
Definition afterGroup (groupId : string) (this : t) : t :=
  {| calls := calls this; _tmpPositionId := groupId;
     _totalRequestGroups := _totalRequestGroups this |}.

(** [request instanceof Request] *)
Definition instanceof_Request (request : jsval) : bool :=
  match request with
  | JObj RequestObject _ => true
  | _ => false
  end.

(** [Rcoil.prototype.addRequest] *)
Definition addRequest (request : jsval) (this : t) : t * result unit :=
  if String.eqb (_tmpPositionId this) "" then
    (this, Thrown (Error "Cannot add requests without starting a group first"))
  else if negb (instanceof_Request request) then
    (this, Thrown (Error "Invalid Request object"))
  else
    match _findRequestGroup (JArr (calls this)) (_tmpPositionId this) with
    | None => (this, Thrown TypeError)
    | Some (p, target) =>
        match push_into this p target "requests" request with
        | None => (this, Thrown TypeError)
        | Some calls' =>
            ({| calls := calls'; _tmpPositionId := _tmpPositionId this;
                _totalRequestGroups := _totalRequestGroups this |}, Returned tt)
        end
    end.

(** [Rcoil.prototype.fromTheBeginning] *)
Definition fromTheBeginning (this : t) : t :=
  {| calls := calls this; _tmpPositionId := "";
     _totalRequestGroups := _totalRequestGroups this |}.

(** [Rcoil.prototype.requestGroupsCount] *)
Definition requestGroupsCount (this : t) : nat := _totalRequestGroups this.

End Rcoil.

(** The two loops of [_traverseTree], over the properties of an object
    and over the elements of an array, from position [n] on. *)
Fixpoint each_prop (process : Rcoil.key -> jsval -> Rcoil.processResult)
    (n : nat) (ps : list (string * jsval)) : option (Rcoil.path * jsval) :=
  match ps with
  | [] => None
  | (i, oi) :: ps' =>
      Rcoil.visit process (Rcoil.KProp i) n oi (Rcoil._traverseTree oi process)
        (each_prop process (S n) ps')
  end.

Fixpoint each_elem (process : Rcoil.key -> jsval -> Rcoil.processResult)
    (n : nat) (es : list jsval) : option (Rcoil.path * jsval) :=
  match es with
  | [] => None
  | oi :: es' =>
      Rcoil.visit process (Rcoil.KIdx n) n oi (Rcoil._traverseTree oi process)
        (each_elem process (S n) es')
  end.

(* ===================================================================== *)
(** ** Request groups as the director reads them *)
(* ===================================================================== *)

(** A request group object [{id, requests, children}] whose fields have
    the types the director relies on. *)
Inductive RequestGroup : Type :=
| Group (id : string) (requests : list Request.t) (children : list RequestGroup).

Module Tree.

Definition id (g : RequestGroup) : string :=
  match g with Group i _ _ => i end.
Definition requests (g : RequestGroup) : list Request.t :=
  match g with Group _ rs _ => rs end.
Definition children (g : RequestGroup) : list RequestGroup :=
  match g with Group _ _ cs => cs end.

(** The object of the coil that a typed group stands for. *)
Fixpoint to_js (g : RequestGroup) : jsval :=
  match g with
  | Group i rs cs =>
      JObj PlainObject
        [("id", JStr i); ("requests", JArr (map Request.to_js rs));
         ("children", JArr (map to_js cs))]
  end.

(** Number of groups of a subtree, and of a forest. *)
Fixpoint size (g : RequestGroup) : nat :=
  match g with
  | Group _ _ cs => S (list_sum (map size cs))
  end.
Definition forest_size (gs : list RequestGroup) : nat := list_sum (map size gs).

(** The ids of a subtree, parent first. *)
Fixpoint ids (g : RequestGroup) : list string :=
  match g with
  | Group i _ cs => i :: concat (map ids cs)
  end.
Definition forest_ids (gs : list RequestGroup) : list string := concat (map ids gs).

(** Replaces the group called [cursor] by its image under [upd]. *)
Fixpoint update_group (cursor : string) (upd : RequestGroup -> RequestGroup)
    (g : RequestGroup) : RequestGroup :=
  match g with
  | Group i rs cs =>
      if String.eqb i cursor then upd g
      else Group i rs (map (update_group cursor upd) cs)
  end.

Definition push_child (new : RequestGroup) (g : RequestGroup) : RequestGroup :=
  Group (id g) (requests g) (children g ++ [new]).

Definition push_request (r : Request.t) (g : RequestGroup) : RequestGroup :=
  Group (id g) (requests g ++ [r]) (children g).

(** Appends [new] to the children of the group called [cursor]. *)
Definition add_child (cursor : string) (new : RequestGroup) (gs : list RequestGroup)
  : list RequestGroup :=
  map (update_group cursor (push_child new)) gs.

(** Appends [r] to the requests of the group called [cursor]. *)
Definition add_request (cursor : string) (r : Request.t) (gs : list RequestGroup)
  : list RequestGroup :=
  map (update_group cursor (push_request r)) gs.

(** The walk of [_findRequestGroup] over an array of groups, read on the
    typed forest: elements in order from position [n]; a group matches
    by its id; otherwise the search goes through its [children]
    (property number 2 of the group object) before moving on.  [below]
    searches the children of a group. *)
Definition first_match (gid : string)
    (below : RequestGroup -> option (Rcoil.path * RequestGroup))
  : nat -> list RequestGroup -> option (Rcoil.path * RequestGroup) :=
  fix each (n : nat) (cs : list RequestGroup) {struct cs} :=
    match cs with
    | [] => None
    | c :: cs' =>
        if String.eqb (id c) gid then Some ([n], c)
        else match below c with
             | Some (p, x) => Some (n :: 2 :: p, x)
             | None => each (S n) cs'
             end
    end.

Fixpoint find_below (gid : string) (g : RequestGroup) {struct g}
  : option (Rcoil.path * RequestGroup) :=
  match g with
  | Group _ _ cs => first_match gid (find_below gid) 0 cs
  end.

(** The first group called [gid], parents before children, and the
    way to it. *)
Definition find (gid : string) (gs : list RequestGroup)
  : option (Rcoil.path * RequestGroup) :=
  first_match gid (find_below gid) 0 gs.

(** No object inside [v] has an [id] (other than [undefined] or
    [null]): the tree walker cannot take it for a request group. *)
Fixpoint id_free (v : jsval) : bool :=
  match v with
  | JObj _ ps =>
      match JS.lookup_prop "id" ps with
      | None | Some JUndef | Some JNull => true
      | Some _ => false
      end
      && (fix all (ps : list (string * jsval)) : bool :=
            match ps with
            | [] => true
            | (_, x) :: ps' => id_free x && all ps'
            end) ps
  | JArr es =>
      (fix all (es : list jsval) : bool :=
         match es with
         | [] => true
         | x :: es' => id_free x && all es'
         end) es
  | _ => true
  end.

(** Every [id] inside [v] is a string, [undefined] or [null], or is
    absent: on the objects of [v] the test [value.id == groupId] is then
    the one [JS.eq_string] makes. *)
Fixpoint string_ids (v : jsval) : bool :=
  match v with
  | JObj _ ps =>
      match JS.lookup_prop "id" ps with
      | None | Some (JStr _) | Some JUndef | Some JNull => true
      | Some _ => false
      end
      && (fix all (ps : list (string * jsval)) : bool :=
            match ps with
            | [] => true
            | (_, x) :: ps' => string_ids x && all ps'
            end) ps
  | JArr es =>
      (fix all (es : list jsval) : bool :=
         match es with
         | [] => true
         | x :: es' => string_ids x && all es'
         end) es
  | _ => true
  end.

(** A request that cannot be taken for a group. *)
Definition quiet (r : Request.t) : bool :=
  id_free (Request.settings r) && id_free (Request.inputFunc r)
  && id_free (Request.outputFunc r).

Fixpoint all_quiet (g : RequestGroup) : bool :=
  match g with
  | Group _ rs cs =>
      forallb quiet rs
      && (fix all (cs : list RequestGroup) : bool :=
            match cs with
            | [] => true
            | c :: cs' => all_quiet c && all cs'
            end) cs
  end.

(** No group id and no request name of [g] is a name that
    [Object.prototype] holds: the director then stores the records of
    [g] as own properties of its tables. *)
Fixpoint plain_names (g : RequestGroup) : bool :=
  match g with
  | Group i rs cs =>
      JS.plain i && forallb (fun r => JS.plain (Request.name r)) rs
      && (fix all (cs : list RequestGroup) : bool :=
            match cs with
            | [] => true
            | c :: cs' => plain_names c && all cs'
            end) cs
  end.

(** A forest as the builder produces it from requests that carry no
    id: ids are unique tree-wide and no request can be taken for a
    group. *)
Definition well_formed (gs : list RequestGroup) : Prop :=
  NoDup (forest_ids gs) /\ forallb all_quiet gs = true.

End Tree.

(* ===================================================================== *)
(** ** execution-context.js *)
(* ===================================================================== *)

Module ExecutionContext.

(** What [_activeGroups] can hold: [registerActiveGroup] pushes groups,
    [registerActiveRequest] pushes requests. *)
Inductive active : Type :=
| ActiveGroup (g : RequestGroup)
| ActiveRequest (r : Request.t).

(** What a read of [_requests] or [_responses] finds where it does not
    find [undefined]: a record that a call has stored; a value of the
    runtime found along the prototype chain (a function of
    [Object.prototype], [Object.prototype] itself, the [name] or the
    [length] of such a function), which is not [null]; or a value the
    model does not determine, which may be [undefined]. *)
Inductive slot (A : Type) : Type :=
| Stored (data : A)
| Inherited
| Unspecified.
Arguments Stored {A} data.
Arguments Inherited {A}.
Arguments Unspecified {A}.

(** [_requests] and [_responses]: objects made by [{}] and used as
    two-level dictionaries.  [Own] holds their own properties, each a
    by-name object made by [{}], of which it holds the own properties.
    [Beyond]: a write has gone to an object of the runtime (a function
    held by [Object.prototype], [Object.prototype] itself, the prototype
    slot of a by-name object); what it did there, and whether it threw,
    is not modelled, and from then on neither are the tables. *)
Inductive table (A : Type) : Type :=
| Own (groups : gmap string (gmap string A))
| Beyond.
Arguments Own {A} groups.
Arguments Beyond {A}.

(** [data = null; if (t[groupId] !== undefined &&
    t[groupId][requestName] !== undefined) data = t[groupId][requestName]],
    with [null] as [None].  A name that is not an own property is looked
    up along the prototype chain: on a by-name object the names of
    [JS.object_prototype] are found; under a [groupId] of that list the
    table itself holds a function of the runtime, of which [name] and
    [length] are known, or [Object.prototype], whose [__proto__] is
    [null]. *)
Definition read {A : Type} (groupId requestName : string) (t : table A)
  : option (slot A) :=
  match t with
  | Beyond => Some Unspecified
  | Own groups =>
      match groups !! groupId with
      | Some byName =>
          match byName !! requestName with
          | Some data => Some (Stored data)
          | None => if JS.inherited requestName then Some Inherited else None
          end
      | None =>
          if String.eqb groupId "__proto__" then
            if String.eqb requestName "__proto__" then None
            else if JS.inherited requestName then Some Inherited else None
          else if JS.inherited groupId then
            if String.eqb requestName "name" || String.eqb requestName "length"
            then Some Inherited else Some Unspecified
          else None
      end
  end.

(** [if (t[groupId] === undefined) t[groupId] = {};
    t[groupId][requestName] = data].  Under a [groupId] of
    [JS.object_prototype] no object is made and the assignment goes to
    the object of the runtime: it is ignored for the [name] and the
    [length] of a function, which are not writable (the module is not
    in strict mode); else it is [Beyond], as is the assignment to
    [__proto__] on a by-name object, which replaces its prototype. *)
Definition write {A : Type} (groupId requestName : string) (data : A) (t : table A)
  : table A :=
  match t with
  | Beyond => Beyond
  | Own groups =>
      match groups !! groupId with
      | Some byName =>
          if String.eqb requestName "__proto__" then Beyond
          else Own (<[groupId := <[requestName := data]> byName]> groups)
      | None =>
          if JS.inherited groupId then
            if negb (String.eqb groupId "__proto__")
               && (String.eqb requestName "name" || String.eqb requestName "length")
            then Own groups else Beyond
          else if String.eqb requestName "__proto__" then Beyond
          else Own (<[groupId := <[requestName := data]> ∅]> groups)
      end
  end.

(** The context stores whatever records it is given: [Req] and [Res]
    are the types of the request and response data, objects both.  The
    read/write lock grants every request at once, since each holder
    releases before it returns and nothing else runs in between: the
    callbacks run in line. *)
Record t (Req Res : Type) : Type := Mk {
  _activeGroups : list active;
  _activeRequests : list Request.t;
  _requests : table Req;
  _responses : table Res
}.
Arguments Mk {Req Res}.
Arguments _activeGroups {Req Res}.
Arguments _activeRequests {Req Res}.
Arguments _requests {Req Res}.
Arguments _responses {Req Res}.

Section Methods.
Context {Req Res : Type}.
Abbreviation ctx := (t Req Res).

(** [new ExecutionContext()] *)
Definition new : ctx :=
  {| _activeGroups := []; _activeRequests := []; _requests := Own ∅; _responses := Own ∅ |}.

(** [x.id], with [undefined] as [None]: a [Request] has no [id]. *)
Definition active_id (x : active) : option string :=
  match x with
  | ActiveGroup g => Some (Tree.id g)
  | ActiveRequest _ => None
  end.

(** [for (i = 0; i < a.length; i++) if (P(a[i])) a.splice(i, 1)]:
    after a removal the next element moves to [i] and is skipped. *)
Fixpoint splice_loop {A : Type} (P : A -> bool) (a : list A) : list A :=
  match a with
  | [] => []
  | x :: a' =>
      if P x then
        match a' with
        | [] => []
        | y :: a'' => y :: splice_loop P a''
        end
      else x :: splice_loop P a'
  end.

(** [ExecutionContext.prototype.registerActiveGroup] *)
Definition registerActiveGroup (group : RequestGroup) (this : ctx) : ctx :=
  {| _activeGroups := _activeGroups this ++ [ActiveGroup group];
     _activeRequests := _activeRequests this;
     _requests := _requests this; _responses := _responses this |}.

(** [ExecutionContext.prototype.unregisterActiveGroup] *)
Definition unregisterActiveGroup (group : RequestGroup) (this : ctx) : ctx :=
  {| _activeGroups :=
       splice_loop
         (fun x => match active_id x with
                   | Some i => String.eqb i (Tree.id group)
                   | None => false
                   end)
         (_activeGroups this);
     _activeRequests := _activeRequests this;
     _requests := _requests this; _responses := _responses this |}.

(** [ExecutionContext.prototype.getActiveGroup]: the last match. *)
Definition getActiveGroup (groupId : string) (this : ctx) : option active :=
  fold_left
    (fun group x =>
       match active_id x with
       | Some i => if String.eqb i groupId then Some x else group
       | None => group
       end)
    (_activeGroups this) None.

(** [ExecutionContext.prototype.registerActiveRequest]: the source
    pushes on [_activeGroups]. *)
Definition registerActiveRequest (requestConfig : Request.t) (this : ctx) : ctx :=
  {| _activeGroups := _activeGroups this ++ [ActiveRequest requestConfig];
     _activeRequests := _activeRequests this;
     _requests := _requests this; _responses := _responses this |}.

(** [ExecutionContext.prototype.unregisterActiveRequests] *)
Definition unregisterActiveRequests (requestConfig : Request.t) (this : ctx) : ctx :=
  {| _activeGroups := _activeGroups this;
     _activeRequests :=
       splice_loop (fun x => String.eqb (Request.name x) (Request.name requestConfig))
                   (_activeRequests this);
     _requests := _requests this; _responses := _responses this |}.

(** [ExecutionContext.prototype.getActiveRequest]: [for (var req in
    this._activeRequests)] binds [req] to the index, a string, and
    the test reads [req.name]. *)
Definition getActiveRequest (requestName : string) (this : ctx) : jsval :=
  fold_left
    (fun request (i : nat) =>
       let req := JStr (pretty i) in
       if JS.eq_string (JS.get req "name") requestName then req else request)
    (seq 0 (length (_activeRequests this))) JNull.

(** [ExecutionContext.prototype.requestData] *)
Definition requestData (groupId requestName : string) (this : ctx) : option (slot Req) :=
  read groupId requestName (_requests this).

(** [ExecutionContext.prototype.setRequestData].  The objects of the
    runtime are the same for both tables: a write that is [Beyond] for
    one is so for the other. *)
Definition setRequestData (groupId requestName : string) (requestData : Req)
    (this : ctx) : ctx :=
  match write groupId requestName requestData (_requests this) with
  | Own groups =>
      {| _activeGroups := _activeGroups this;
         _activeRequests := _activeRequests this;
         _requests := Own groups;
         _responses := _responses this |}
  | Beyond =>
      {| _activeGroups := _activeGroups this;
         _activeRequests := _activeRequests this;
         _requests := Beyond;
         _responses := Beyond |}
  end.

(** [ExecutionContext.prototype.responseData] *)
Definition responseData (groupId requestName : string) (this : ctx) : option (slot Res) :=
  read groupId requestName (_responses this).

(** [ExecutionContext.prototype.setResponseData] *)
Definition setResponseData (groupId requestName : string) (responseData : Res)
    (this : ctx) : ctx :=
  match write groupId requestName responseData (_responses this) with
  | Own groups =>
      {| _activeGroups := _activeGroups this;
         _activeRequests := _activeRequests this;
         _requests := _requests this;
         _responses := Own groups |}
  | Beyond =>
      {| _activeGroups := _activeGroups this;
         _activeRequests := _activeRequests this;
         _requests := Beyond;
         _responses := Beyond |}
  end.

(** No write has gone beyond the tables. *)
Definition tracked (this : ctx) : bool :=
  match _requests this, _responses this with
  | Own _, Own _ => true
  | _, _ => false
  end.

End Methods.

(** [JSON.parse(JSON.stringify(v))]: the copy is made of plain objects;
    a property holding [undefined] or a function is dropped, and such
    an array element becomes [null]. *)
Fixpoint json_copy (v : jsval) : jsval :=
  match v with
  | JObj _ ps =>
      JObj PlainObject
        ((fix props (ps : list (string * jsval)) : list (string * jsval) :=
            match ps with
            | [] => []
            | (k, x) :: ps' =>
                match x with
                | JUndef | JFun _ => props ps'
                | _ => (k, json_copy x) :: props ps'
                end
            end) ps)
  | JArr es =>
      JArr
        ((fix elems (es : list jsval) : list jsval :=
            match es with
            | [] => []
            | x :: es' =>
                match x with
                | JUndef | JFun _ => JNull :: elems es'
                | _ => json_copy x :: elems es'
                end
            end) es)
  | _ => v
  end.

(** [ExecutionContext.prototype.getActiveRequests] *)
Definition getActiveRequests {Req Res : Type} (this : t Req Res) : list jsval :=
  JS.elems_of (json_copy (JArr (map Request.to_js (_activeRequests this)))).

(** An entry of [_activeGroups] as the object it is. *)
Definition active_to_js (x : active) : jsval :=
  match x with
  | ActiveGroup g => Tree.to_js g
  | ActiveRequest r => Request.to_js r
  end.

(** [ExecutionContext.prototype.getActiveGroups] *)
Definition getActiveGroups {Req Res : Type} (this : t Req Res) : list jsval :=
  JS.elems_of (json_copy (JArr (map active_to_js (_activeGroups this)))).

(** What [getData] returns: the two tables themselves. *)
Record data (Req Res : Type) : Type := MkData {
  req : table Req;
  res : table Res
}.
Arguments MkData {Req Res}.
Arguments req {Req Res}.
Arguments res {Req Res}.

(** [ExecutionContext.prototype.getData] *)
Definition getData {Req Res : Type} (this : t Req Res) : data Req Res :=
  {| req := _requests this; res := _responses this |}.

End ExecutionContext.

(* ===================================================================== *)
(** ** execution-director.js *)
(* ===================================================================== *)

(** A built coil as the director reads it: [rcoil.calls] and
    [rcoil.requestGroupsCount()]. *)
Record Coil : Type := MkCoil {
  coil_calls : list RequestGroup;
  coil_count : nat
}.

(** The typed coil [c] is the builder state [r]. *)
Definition represents (c : Coil) (r : Rcoil.t) : Prop :=
  Rcoil.calls r = map Tree.to_js (coil_calls c)
  /\ Rcoil.requestGroupsCount r = coil_count c.

(** The outgoing request handle a request player hands to the input
    callback and to the director ([requestObject]). *)
Record outgoing : Type := MkOutgoing {
  out_headers : jsval;
  out_url : jsval;
  out_method : jsval
}.

(** What the transport hands back ([resp]): an HTTP response message, or
    the error slot of a Lambda invocation. *)
Inductive response : Type :=
| HttpResponse (headers httpVersion method : jsval) (statusCode : nat) (statusMessage : jsval)
| LambdaResponse (err : jsval).

(** The request record [_requestStarted] stores. *)
Record RequestData : Type := MkRequestData {
  rq_config : Request.t;
  rq_body : jsval;
  rq_startTime : nat;
  rq_http : option outgoing
}.

(** The response record [_requestDone] and [_requestCanceled] store. *)
Record ResponseData : Type := MkResponseData {
  rs_body : jsval;
  rs_endTime : nat;
  isCanceled : bool;
  rs_http : option response;
  rs_err : option response
}.

(** What an input callback answers: the explicit signal not to send, or
    the body to send together with the handle as the callback left it. *)
Inductive input_result : Type :=
| DoNotSend
| Send (input : jsval) (requestObject : outgoing).

(** The user's functions, which the coil only holds as [JFun f]: how the
    input callback [f] answers in a given context. *)
Class InputCallbacks : Type := {
  run_input : nat -> ExecutionContext.t RequestData ResponseData -> outgoing -> input_result
}.

Module ExecutionDirector.

Abbreviation context := (ExecutionContext.t RequestData ResponseData).

(** What the director lets the outside observe: the events it emits,
    in order, and the calls of the completion callback. *)
Inductive event : Type :=
| groupStart (group : RequestGroup)
| groupEnd (group : RequestGroup)
| requestStart (groupId : string) (request : Request.t)
| requestEnd (groupId : string) (request : Request.t)
| abort_event
| endCallback (f : nat).

(** The [ExecutionDirector] instance.  The logger is a sink and is left
    out, and with it the two timestamps written on the group object,
    which only the log line reads. *)
Record t : Type := Mk {
  rcoil : Coil;
  executionContext : context;
  debug : bool;
  _totalGroups : nat;
  _tmpGroupsCounter : nat;
  _aborted : bool;
  _endCallback : option nat;
  emitted : list event
}.

Definition with_context (c : context) (this : t) : t :=
  {| rcoil := rcoil this; executionContext := c; debug := debug this;
     _totalGroups := _totalGroups this; _tmpGroupsCounter := _tmpGroupsCounter this;
     _aborted := _aborted this; _endCallback := _endCallback this;
     emitted := emitted this |}.

(** [this.emit(...)], and a call of [_endCallback] *)
Definition emit (e : event) (this : t) : t :=
  {| rcoil := rcoil this; executionContext := executionContext this; debug := debug this;
     _totalGroups := _totalGroups this; _tmpGroupsCounter := _tmpGroupsCounter this;
     _aborted := _aborted this; _endCallback := _endCallback this;
     emitted := emitted this ++ [e] |}.

(** [new ExecutionDirector(rcoil, options)] *)
Definition new (rcoil : Coil) (debug : bool) : t :=
  {| rcoil := rcoil; executionContext := ExecutionContext.new; debug := debug;
     _totalGroups := 0; _tmpGroupsCounter := 0; _aborted := false;
     _endCallback := None; emitted := [] |}.

(** [ExecutionDirector.prototype._requestGroupStarted] *)
Definition _requestGroupStarted (requestGroup : RequestGroup) (this : t) : t :=
  emit (groupStart requestGroup)
    (with_context
       (ExecutionContext.registerActiveGroup requestGroup (executionContext this)) this).

(** [ExecutionDirector.prototype._isAborted] *)
Definition _isAborted (this : t) : t * bool :=
  if _aborted this then
    (if Nat.eqb (length (ExecutionContext.getActiveRequests (executionContext this))) 0
     then emit abort_event this else this, true)
  else (this, false).

(** [ExecutionDirector.prototype._requestStarted] *)
Definition _requestStarted (now : nat) (requestGroup : RequestGroup)
    (requestConfig : Request.t) (requestObject : outgoing) (input : jsval) (this : t) : t :=
  let ctx := ExecutionContext.registerActiveRequest requestConfig (executionContext this) in
  let request :=
    {| rq_config := requestConfig; rq_body := input; rq_startTime := now;
       rq_http :=
         if String.eqb (Request.type requestConfig) Request.RequestType.HTTP
         then Some requestObject else None |} in
  let ctx :=
    ExecutionContext.setRequestData (Tree.id requestGroup) (Request.name requestConfig)
      request ctx in
  emit (requestStart (Tree.id requestGroup) requestConfig) (with_context ctx this).

(** [ExecutionDirector.prototype._requestDone]; in debug mode the
    elapsed time reads [requestData(...).startTime], which throws when
    [requestData] returns [null].  Where the model does not determine
    what [requestData] returns, it does not determine the outcome
    either: [None]. *)
Definition _requestDone (now : nat) (requestGroup : RequestGroup)
    (requestConfig : Request.t) (resp : response) (output : jsval) (this : t)
  : t * option (result unit) :=
  let ctx := ExecutionContext.unregisterActiveRequests requestConfig (executionContext this) in
  let response :=
    {| rs_body := output; rs_endTime := now; isCanceled := false;
       rs_http :=
         if String.eqb (Request.type requestConfig) Request.RequestType.HTTP
         then Some resp else None;
       rs_err :=
         if String.eqb (Request.type requestConfig) Request.RequestType.LAMBDA
         then Some resp else None |} in
  let ctx :=
    ExecutionContext.setResponseData (Tree.id requestGroup) (Request.name requestConfig)
      response ctx in
  let this := emit (requestEnd (Tree.id requestGroup) requestConfig) (with_context ctx this) in
  if debug this then
    match ExecutionContext.requestData (Tree.id requestGroup) (Request.name requestConfig)
            (executionContext this) with
    | Some (ExecutionContext.Stored _) | Some ExecutionContext.Inherited =>
        (this, Some (Returned tt))
    | Some ExecutionContext.Unspecified => (this, None)
    | None => (this, Some (Thrown TypeError))
    end
  else (this, Some (Returned tt)).

(** [ExecutionDirector.prototype._requestCanceled] *)
Definition _requestCanceled (now : nat) (requestGroup : RequestGroup)
    (requestConfig : Request.t) (this : t) : t :=
  let ctx := ExecutionContext.unregisterActiveRequests requestConfig (executionContext this) in
  let response :=
    {| rs_body := JUndef; rs_endTime := now; isCanceled := true;
       rs_http := None; rs_err := None |} in
  let ctx :=
    ExecutionContext.setResponseData (Tree.id requestGroup) (Request.name requestConfig)
      response ctx in
  emit (requestEnd (Tree.id requestGroup) requestConfig) (with_context ctx this).

(** [ExecutionDirector.prototype.abort] *)
Definition abort (this : t) : t :=
  {| rcoil := rcoil this; executionContext := executionContext this; debug := debug this;
     _totalGroups := _totalGroups this; _tmpGroupsCounter := _tmpGroupsCounter this;
     _aborted := true; _endCallback := _endCallback this;
     emitted := emitted this |}.

(** *** The players the director drives *)

(** Modelled from the spec: [src/players.js] ([RequestGroupPlayer] and
    [RequestPlayer]) is missing.  A request runner is [Pending] until
    its input stage has run, then [Dispatched] until the transport
    answers, then [Completed]; a cancelled request goes from [Pending]
    to [Completed]. *)
Inductive runner_state : Type := Pending | Dispatched | Completed.

(** Modelled from the spec: the missing [RequestGroupPlayer], one per
    started group: its group, one runner per owned request, and whether
    it has fired its end event ([Done], terminal). *)
Record player : Type := MkPlayer {
  pl_group : RequestGroup;
  pl_runners : list runner_state;
  pl_done : bool
}.

(** The director, the players it has started, and the calls handed to
    the transport so far (group id, request, body). *)
Record world : Type := MkWorld {
  director : t;
  players : list player;
  transport : list (string * Request.t * jsval)
}.

Definition with_director (d : t) (w : world) : world :=
  {| director := d; players := players w; transport := transport w |}.

(** Modelled from the spec: [RequestGroupPlayer.prototype.start] of the
    missing [src/players.js], on the player [_getRequestGroupPlayer]
    returns.  The player fires its start event, which the director has
    bound to [_requestGroupStarted], and launches a runner for each
    request the group owns. *)
Definition new_player (requestGroup : RequestGroup) : player :=
  {| pl_group := requestGroup;
     pl_runners := map (fun _ => Pending) (Tree.requests requestGroup);
     pl_done := false |}.

Definition player_start (requestGroup : RequestGroup) (w : world) : world :=
  {| director := _requestGroupStarted requestGroup (director w);
     players := players w ++ [new_player requestGroup];
     transport := transport w |}.

Definition set_counter (n : nat) (this : t) : t :=
  {| rcoil := rcoil this; executionContext := executionContext this; debug := debug this;
     _totalGroups := _totalGroups this; _tmpGroupsCounter := n;
     _aborted := _aborted this; _endCallback := _endCallback this;
     emitted := emitted this |}.

(** [ExecutionDirector.prototype._requestGroupDone] *)
Definition _requestGroupDone (requestGroup : RequestGroup) (w : world) : world :=
  let this := director w in
  let this :=
    with_context
      (ExecutionContext.unregisterActiveGroup requestGroup (executionContext this)) this in
  let this := set_counter (S (_tmpGroupsCounter this)) this in
  match _isAborted this with
  | (this, true) => with_director this w
  | (this, false) =>
      let this := emit (groupEnd requestGroup) this in
      let w := fold_left (fun w child => player_start child w)
                 (Tree.children requestGroup) (with_director this w) in
      if Nat.eqb (length (Tree.children requestGroup)) 0
         && Nat.eqb (_tmpGroupsCounter (director w)) (_totalGroups (director w))
      then
        match _endCallback (director w) with
        | Some f => with_director (emit (endCallback f) (director w)) w
        | None => w
        end
      else w
  end.

(** [ExecutionDirector.prototype.start]; the context it returns is
    [executionContext (director w)] of the result. *)
Definition start (callback : option nat) (w : world) : world :=
  let this := director w in
  let this :=
    {| rcoil := rcoil this; executionContext := executionContext this; debug := debug this;
       _totalGroups := coil_count (rcoil this); _tmpGroupsCounter := 0;
       _aborted := _aborted this; _endCallback := callback;
       emitted := emitted this |} in
  fold_left (fun w group => player_start group w)
    (coil_calls (rcoil this)) (with_director this w).

(** A director just constructed, before [start]. *)
Definition init (rcoil : Coil) (debug : bool) : world :=
  {| director := new rcoil debug; players := []; transport := [] |}.

(** *** What can happen next *)

(** The occurrences that drive a run after [start]: the input stage of
    runner [j] of player [i] runs (at time [now], on the handle the
    player prepared); the transport answers runner [j] of player [i];
    player [i] fires its end event; the user calls [abort()]. *)
Inductive label : Type :=
| LInput (i j : nat) (now : nat) (requestObject : outgoing)
| LResponse (i j : nat) (now : nat) (resp : response) (output : jsval)
| LGroupEnd (i : nat)
| LAbort.

Definition set_runner (i j : nat) (s : runner_state) (w : world) : world :=
  {| director := director w;
     players :=
       alter (fun p => {| pl_group := pl_group p;
                          pl_runners := <[j := s]> (pl_runners p);
                          pl_done := pl_done p |}) i (players w);
     transport := transport w |}.

Definition set_done (i : nat) (w : world) : world :=
  {| director := director w;
     players :=
       alter (fun p => {| pl_group := pl_group p; pl_runners := pl_runners p;
                          pl_done := true |}) i (players w);
     transport := transport w |}.

Definition all_completed (rs : list runner_state) : bool :=
  forallb (fun s => match s with Completed => true | _ => false end) rs.

(** Modelled from the spec: the input stage of the missing
    [RequestPlayer].  The optional input callback runs on the context;
    on the signal not to send, the runner fires its cancel event, bound
    to [_requestCanceled], and nothing is dispatched; otherwise it fires
    its start event, bound to [_requestStarted], and hands the call to
    the transport. *)
Definition runner_input `{InputCallbacks} (now : nat) (g : RequestGroup) (r : Request.t)
    (requestObject : outgoing) (w : world) : world * runner_state :=
  let answer :=
    match Request.inputFunc r with
    | JFun f => run_input f (executionContext (director w)) requestObject
    | _ => Send JUndef requestObject
    end in
  match answer with
  | DoNotSend =>
      (with_director (_requestCanceled now g r (director w)) w, Completed)
  | Send input requestObject' =>
      ({| director := _requestStarted now g r requestObject' input (director w);
          players := players w;
          transport := transport w ++ [(Tree.id g, r, input)] |}, Dispatched)
  end.

(** Modelled from the spec: one occurrence in a run, on the missing
    players.  A label that cannot occur in [w] gives [None].  The
    group-end event of a player, bound to [_requestGroupDone], fires
    once all its runners are [Completed].  When [_requestDone] throws in
    its debug branch, the director stays as the handler left it. *)
Definition step `{InputCallbacks} (l : label) (w : world) : option world :=
  match l with
  | LInput i j now requestObject =>
      match players w !! i with
      | Some p =>
          match pl_runners p !! j, Tree.requests (pl_group p) !! j with
          | Some Pending, Some r =>
              let (w', s) := runner_input now (pl_group p) r requestObject w in
              Some (set_runner i j s w')
          | _, _ => None
          end
      | None => None
      end
  | LResponse i j now resp output =>
      match players w !! i with
      | Some p =>
          match pl_runners p !! j, Tree.requests (pl_group p) !! j with
          | Some Dispatched, Some r =>
              Some (set_runner i j Completed
                      (with_director
                         (fst (_requestDone now (pl_group p) r resp output (director w))) w))
          | _, _ => None
          end
      | None => None
      end
  | LGroupEnd i =>
      match players w !! i with
      | Some p =>
          if negb (pl_done p) && all_completed (pl_runners p)
          then Some (_requestGroupDone (pl_group p) (set_done i w))
          else None
      | None => None
      end
  | LAbort => Some (with_director (abort (director w)) w)
  end.

(** A run: the occurrences [ls] in order, from [w]. *)
Fixpoint run `{InputCallbacks} (ls : list label) (w : world) : option world :=
  match ls with
  | [] => Some w
  | l :: ls' =>
      match step l w with
      | Some w' => run ls' w'
      | None => None
      end
  end.

(** A world at rest: nothing but a call of [abort()] can occur. *)
Definition quiescent `{InputCallbacks} (w : world) : Prop :=
  forall l, l <> LAbort -> step l w = None.

(** The groups still to end: those of the players that are not done,
    with all their descendants. *)
Definition weight (p : player) : nat :=
  if pl_done p then 0 else Tree.size (pl_group p).
Definition pending (w : world) : nat := list_sum (map weight (players w)).

(** A bound on the occurrences a group can still give rise to: its own
    end, two per request (input stage, answer), and those of its
    descendants. *)
Fixpoint potential (g : RequestGroup) : nat :=
  match g with
  | Group _ rs cs => S (2 * length rs + list_sum (map potential cs))
  end.
Definition forest_potential (gs : list RequestGroup) : nat := list_sum (map potential gs).

Definition runner_weight (s : runner_state) : nat :=
  match s with Pending => 2 | Dispatched => 1 | Completed => 0 end.
Definition player_measure (p : player) : nat :=
  if pl_done p then 0
  else S (list_sum (map runner_weight (pl_runners p))
          + forest_potential (Tree.children (pl_group p))).
Definition measure (w : world) : nat := list_sum (map player_measure (players w)).

(** How often the completion callback has been called. *)
Definition is_endCallback (e : event) : bool :=
  match e with endCallback _ => true | _ => false end.
Definition callback_calls (this : t) : nat :=
  length (List.filter is_endCallback (emitted this)).

End ExecutionDirector.

(* ===================================================================== *)
(** ** Histories and reference collaborators *)
(* ===================================================================== *)

(** A stand-in for [valid-url] and [url] on absolute URLs of the shape
    [scheme://host[:port][/path][#hash]], to run the factories on. *)
Module SimpleUrl.

(** Splits [s] before the first character satisfying [stop]. *)
Fixpoint break (stop : ascii -> bool) (s : string) : string * string :=
  match s with
  | EmptyString => (EmptyString, EmptyString)
  | String c s' =>
      if stop c then (EmptyString, s)
      else let (a, b) := break stop s' in (String c a, b)
  end.

Definition is_char (c d : ascii) : bool := Ascii.eqb c d.

Definition is_letter (c : ascii) : bool :=
  let n := nat_of_ascii c in
  ((97 <=? n)%nat && (n <=? 122)%nat) || ((65 <=? n)%nat && (n <=? 90)%nat).

Fixpoint all_chars (P : ascii -> bool) (s : string) : bool :=
  match s with
  | EmptyString => true
  | String c s' => P c && all_chars P s'
  end.

Definition nonempty (s : string) : option string :=
  match s with EmptyString => None | _ => Some s end.

(** [scheme://rest], with a scheme made of letters *)
Definition split_scheme (s : string) : option (string * string) :=
  match break (is_char ":") s with
  | (String c scheme, String ":" (String "/" (String "/" rest))) =>
      if all_chars is_letter (String c scheme) then Some (String c scheme, rest) else None
  | _ => None
  end.

Definition parse (s : string) : Url :=
  match split_scheme s with
  | Some (scheme, rest) =>
      let (authority, tail) := break (fun c => is_char "/" c || is_char "#" c) rest in
      let (host, port) := break (is_char ":") authority in
      let (path, hash) := break (is_char "#") tail in
      {| url_hostname := nonempty host;
         url_path := Some (match path with EmptyString => "/" | _ => path end);
         url_hash := nonempty hash;
         url_port := match port with String _ p => nonempty p | _ => None end;
         url_protocol := Some (scheme +:+ ":") |}
  | None =>
      {| url_hostname := None; url_path := nonempty s; url_hash := None;
         url_port := None; url_protocol := None |}
  end.

Definition is_uri (v : jsval) : bool :=
  match v with
  | JStr s =>
      match split_scheme s with
      | Some _ => all_chars (fun c => negb (is_char " " c)) s
      | None => false
      end
  | _ => false
  end.

Definition modules : UrlModules := {| isUri := is_uri; url_parse := parse |}.

End SimpleUrl.

(** The calls that change an execution context. *)
Inductive context_op (Req Res : Type) : Type :=
| RegisterActiveGroup (group : RequestGroup)
| UnregisterActiveGroup (group : RequestGroup)
| RegisterActiveRequest (requestConfig : Request.t)
| UnregisterActiveRequests (requestConfig : Request.t)
| SetRequestData (groupId requestName : string) (data : Req)
| SetResponseData (groupId requestName : string) (data : Res).
Arguments RegisterActiveGroup {Req Res}.
Arguments UnregisterActiveGroup {Req Res}.
Arguments RegisterActiveRequest {Req Res}.
Arguments UnregisterActiveRequests {Req Res}.
Arguments SetRequestData {Req Res}.
Arguments SetResponseData {Req Res}.

Definition apply_op {Req Res : Type} (this : ExecutionContext.t Req Res)
    (op : context_op Req Res) : ExecutionContext.t Req Res :=
  match op with
  | RegisterActiveGroup g => ExecutionContext.registerActiveGroup g this
  | UnregisterActiveGroup g => ExecutionContext.unregisterActiveGroup g this
  | RegisterActiveRequest r => ExecutionContext.registerActiveRequest r this
  | UnregisterActiveRequests r => ExecutionContext.unregisterActiveRequests r this
  | SetRequestData g n d => ExecutionContext.setRequestData g n d this
  | SetResponseData g n d => ExecutionContext.setResponseData g n d this
  end.

(** The context after a history of calls on a fresh one. *)
Definition after_ops {Req Res : Type} (ops : list (context_op Req Res))
  : ExecutionContext.t Req Res :=
  fold_left apply_op ops ExecutionContext.new.

(** The history writes response (request) data under [(g, n)]. *)
Definition writes_response {Req Res : Type} (g n : string) (op : context_op Req Res) : Prop :=
  match op with
  | SetResponseData g' n' _ => g' = g /\ n' = n
  | _ => False
  end.

Definition writes_request {Req Res : Type} (g n : string) (op : context_op Req Res) : Prop :=
  match op with
  | SetRequestData g' n' _ => g' = g /\ n' = n
  | _ => False
  end.

(** The call writes data, if at all, under a group id and a request
    name that [Object.prototype] does not hold. *)
Definition plain_keys {Req Res : Type} (op : context_op Req Res) : bool :=
  match op with
  | SetRequestData g n _ | SetResponseData g n _ => JS.plain g && JS.plain n
  | _ => true
  end.

(** What holds of every world that a run without [abort()] reaches from
    a director started with the callback [f] on [total] groups. *)
Definition run_invariant (total f : nat) (w : ExecutionDirector.world) : Prop :=
  ExecutionDirector._aborted (ExecutionDirector.director w) = false
  /\ ExecutionDirector._endCallback (ExecutionDirector.director w) = Some f
  /\ ExecutionDirector._totalGroups (ExecutionDirector.director w) = total
  /\ ExecutionDirector._tmpGroupsCounter (ExecutionDirector.director w)
      + ExecutionDirector.pending w = total
  /\ ExecutionDirector.callback_calls (ExecutionDirector.director w)
      = (if Nat.eqb (ExecutionDirector.pending w) 0 then 1 else 0)
  /\ Forall (fun p => length (ExecutionDirector.pl_runners p)
                      = length (Tree.requests (ExecutionDirector.pl_group p))
                      /\ (ExecutionDirector.pl_done p = true ->
                          ExecutionDirector.all_completed (ExecutionDirector.pl_runners p) = true))
       (ExecutionDirector.players w).

(** The builder states reachable from [new Rcoil()] by calls that
    return, adding requests that carry no id. *)
Inductive built : Rcoil.t -> Prop :=
| built_new : built Rcoil.new
| built_startGroup this groupId this' :
    built this -> Rcoil.startGroup groupId this = (this', Returned tt) -> built this'
| built_afterGroup this groupId :
    built this -> built (Rcoil.afterGroup groupId this)
| built_addRequest this r this' :
    built this -> Tree.quiet r = true ->
    Rcoil.addRequest (Request.to_js r) this = (this', Returned tt) -> built this'
| built_fromTheBeginning this :
    built this -> built (Rcoil.fromTheBeginning this).

(** What the walk returns when the typed search returns [hit]: the
    same way, to the object of that group; and the same for a search
    below a group, whose children are its property number 2. *)
Definition typed_hit (hit : option (Rcoil.path * RequestGroup)) : option (Rcoil.path * jsval) :=
  match hit with
  | Some (p, g) => Some (p, Tree.to_js g)
  | None => None
  end.

Definition below_hit (hit : option (Rcoil.path * RequestGroup)) : option (Rcoil.path * jsval) :=
  match hit with
  | Some (p, g) => Some (2 :: p, Tree.to_js g)
  | None => None
  end.

(** The mutation [F] of the object found for [cursor] below [g] shows
    in the encoding of the children of [g] as the typed update [upd]. *)
Definition modify_ok (cursor : string) (F : jsval -> jsval)
    (upd : RequestGroup -> RequestGroup) (g : RequestGroup) : Prop :=
  forall p x,
    NoDup (Tree.forest_ids (Tree.children g)) ->
    Tree.find_below cursor g = Some (p, x) ->
    F (Tree.to_js x) = Tree.to_js (upd x) ->
    Rcoil.modify_at p F (JArr (map Tree.to_js (Tree.children g)))
    = JArr (map Tree.to_js (map (Tree.update_group cursor upd) (Tree.children g))).

(** The fields of the director that decide the completion callback. *)
Definition book (d : ExecutionDirector.t) : nat * nat * bool * option nat * nat :=
  (ExecutionDirector._totalGroups d, ExecutionDirector._tmpGroupsCounter d,
   ExecutionDirector._aborted d, ExecutionDirector._endCallback d,
   ExecutionDirector.callback_calls d).

(** No request is on the active-requests list of the context. *)
Definition no_active_requests (w : ExecutionDirector.world) : Prop :=
  ExecutionContext._activeRequests
    (ExecutionDirector.executionContext (ExecutionDirector.director w)) = [].

(** The value a path leads to in [o]: at each level, the property or the
    element at that position. *)
Fixpoint node_at (p : Rcoil.path) (o : jsval) : option jsval :=
  match p with
  | [] => Some o
  | n :: p' =>
      match o with
      | JObj _ ps =>
          match ps !! n with
          | Some (_, x) => node_at p' x
          | None => None
          end
      | JArr es =>
          match es !! n with
          | Some x => node_at p' x
          | None => None
          end
      | _ => None
      end
  end.

(** [v.id] is the string [gid] (so [v] is an object). *)
Definition has_id (gid : string) (v : jsval) : Prop := JS.get v "id" = JStr gid.

(** The record of the last [setRequestData(g, n, _)], respectively
    [setResponseData(g, n, _)], of a history, or what there was before
    when the history has none. *)
Definition last_request {Req Res : Type} (g n : string) (ops : list (context_op Req Res))
  : option (ExecutionContext.slot Req) -> option (ExecutionContext.slot Req) :=
  fold_left
    (fun stored op =>
       match op with
       | SetRequestData g' n' d =>
           if decide (g' = g /\ n' = n) then Some (ExecutionContext.Stored d) else stored
       | _ => stored
       end) ops.

Definition last_response {Req Res : Type} (g n : string) (ops : list (context_op Req Res))
  : option (ExecutionContext.slot Res) -> option (ExecutionContext.slot Res) :=
  fold_left
    (fun stored op =>
       match op with
       | SetResponseData g' n' d =>
           if decide (g' = g /\ n' = n) then Some (ExecutionContext.Stored d) else stored
       | _ => stored
       end) ops.

(** The response record [_requestDone] makes. *)
Definition done_record (now : nat) (r : Request.t) (resp : response) (output : jsval)
  : ResponseData :=
  {| rs_body := output; rs_endTime := now; isCanceled := false;
     rs_http := if String.eqb (Request.type r) Request.RequestType.HTTP
                then Some resp else None;
     rs_err := if String.eqb (Request.type r) Request.RequestType.LAMBDA
               then Some resp else None |}.

(** The record a table holds as own property [n] of its own property
    [g]. *)
Definition own_record {A : Type} (g n : string) (t : ExecutionContext.table A) : option A :=
  match t with
  | ExecutionContext.Own groups => groups !! g ≫= (fun byName => byName !! n)
  | ExecutionContext.Beyond => None
  end.

(** The entries of an active-groups list that are requests. *)
Definition active_requests_of (a : list ExecutionContext.active) : list Request.t :=
  omap (fun x => match x with
                 | ExecutionContext.ActiveRequest r => Some r
                 | ExecutionContext.ActiveGroup _ => None
                 end) a.

(** The requests a history registers, in order. *)
Definition registered_requests {Req Res : Type} (ops : list (context_op Req Res))
  : list Request.t :=
  omap (fun op => match op with
                  | RegisterActiveRequest r => Some r
                  | _ => None
                  end) ops.

(** The test [unregisterActiveGroup(group)] makes on an entry: its [id]
    is that of [group]. *)
Definition has_group_id (gid : string) (x : ExecutionContext.active) : bool :=
  match ExecutionContext.active_id x with
  | Some i => String.eqb i gid
  | None => false
  end.

(** No two neighbours of [a] both satisfy [P]. *)
Fixpoint no_adjacent {A : Type} (P : A -> bool) (a : list A) : Prop :=
  match a with
  | x :: ((y :: _) as a') => ~ (P x = true /\ P y = true) /\ no_adjacent P a'
  | _ => True
  end.

(** The walk with the callback [process] returned [v] at [p]: [p] leads
    to an object of [o] on which the callback asked to return [v]. *)
Definition returned_at (process : Rcoil.key -> jsval -> Rcoil.processResult)
    (o : jsval) (p : Rcoil.path) (v : jsval) : Prop :=
  p <> [] /\ exists k x,
    node_at p o = Some x /\ JS.typeof_object x = true
    /\ Rcoil.shouldReturn (process k x) = true /\ Rcoil.value (process k x) = v
    /\ JS.neq_null v = true.

(** A hit of the typed search, once the group it names went through
    [upd]. *)
Definition updated (upd : RequestGroup -> RequestGroup)
    (hit : option (Rcoil.path * RequestGroup)) : option (Rcoil.path * RequestGroup) :=
  match hit with
  | Some (p, x) => Some (p, upd x)
  | None => None
  end.


(** Small coils and runs to evaluate the operations on. *)
Module Fixture.

(** A coil whose cursor was moved to a group that does not exist:
    [startGroup("first").afterGroup("second")]. *)
Definition lost_cursor : Rcoil.t :=
  Rcoil.afterGroup "second" (fst (Rcoil.startGroup "first" Rcoil.new)).

(** [new Rcoil().afterGroup("ghost")] *)
Definition ghost_cursor : Rcoil.t := Rcoil.afterGroup "ghost" Rcoil.new.

(** [startGroup("testGroup").afterGroup("missing")] *)
Definition missing_cursor : Rcoil.t :=
  Rcoil.afterGroup "missing" (fst (Rcoil.startGroup "testGroup" Rcoil.new)).

(** The forest [group1 -> group2], and the builder on it with the cursor
    back on [group1]. *)
Definition two_groups : list RequestGroup := [Group "group1" [] [Group "group2" [] []]].
Definition on_group1 : Rcoil.t :=
  {| Rcoil.calls := map Tree.to_js two_groups; Rcoil._tmpPositionId := "group1";
     Rcoil._totalRequestGroups := 2 |}.

(** Two requests of the same name, the second with an input callback. *)
Definition same1 : Request.t := Request.new "same".
Definition same2 : Request.t := Request.onInput (JFun 1) (Request.new "same").

(** A coil of one group with one request, and one whose request has the
    input callback 0. *)
Definition one_group : Coil :=
  {| coil_calls := [Group "first" [Request.new "local"] []]; coil_count := 1 |}.
Definition cancelling : Request.t := Request.onInput (JFun 0) (Request.new "request1").
Definition one_cancelling_group : Coil :=
  {| coil_calls := [Group "group1" [cancelling] []]; coil_count := 1 |}.

(** A coil whose group and request are called as properties that every
    object has: the function [constructor], and its [name]. *)
Definition named_name : Request.t := Request.onInput (JFun 0) (Request.new "name").
Definition constructor_group : Coil :=
  {| coil_calls := [Group "constructor" [named_name] []]; coil_count := 1 |}.

(** The coil without groups. *)
Definition no_group : Coil := {| coil_calls := []; coil_count := 0 |}.

(** A request whose configuration object carries an [id], and a coil
    that holds it: [startGroup("group1").addRequest(labelled)]. *)
Definition labelled : Request.t :=
  {| Request.type := "http"; Request.name := "labelled";
     Request.settings :=
       JObj PlainObject
         [("id", JStr "ghost"); ("host", JStr "api.com"); ("path", JStr "/");
          ("protocol", JStr "http:"); ("method", JStr "GET")];
     Request.inputFunc := JNull; Request.outputFunc := JNull |}.
Definition labelled_coil : Rcoil.t :=
  fst (Rcoil.addRequest (Request.to_js labelled) (fst (Rcoil.startGroup "group1" Rcoil.new))).

(** A request whose configuration object carries the id of a group,
    and the coil
    [startGroup("group1").startGroup("group2").afterGroup("group1")
     .addRequest(shadow).afterGroup("group2")]:
    the cursor names the group [group2], and the walk meets the
    configuration object of [shadow] before it. *)
Definition shadow : Request.t :=
  {| Request.type := "http"; Request.name := "shadow";
     Request.settings :=
       JObj PlainObject
         [("id", JStr "group2"); ("host", JStr "api.com"); ("path", JStr "/");
          ("protocol", JStr "http:"); ("method", JStr "GET")];
     Request.inputFunc := JNull; Request.outputFunc := JNull |}.
Definition shadowed : Rcoil.t :=
  Rcoil.afterGroup "group2"
    (fst (Rcoil.addRequest (Request.to_js shadow)
            (Rcoil.afterGroup "group1"
               (fst (Rcoil.startGroup "group2" (fst (Rcoil.startGroup "group1" Rcoil.new))))))).

(** A request whose configuration object has an id, a [requests] and a
    [children] array, and the coil
    [startGroup("group1").addRequest(bag).afterGroup("ghost")]: the
    cursor names no group, and the walk finds the configuration object
    of [bag]. *)
Definition bag_settings (requests children : list jsval) : jsval :=
  JObj PlainObject
    [("id", JStr "ghost"); ("requests", JArr requests); ("children", JArr children);
     ("host", JStr "api.com"); ("path", JStr "/"); ("protocol", JStr "http:");
     ("method", JStr "GET")].
Definition bag (requests children : list jsval) : Request.t :=
  {| Request.type := "http"; Request.name := "bag";
     Request.settings := bag_settings requests children;
     Request.inputFunc := JNull; Request.outputFunc := JNull |}.
Definition on_bag : Rcoil.t :=
  Rcoil.afterGroup "ghost"
    (fst (Rcoil.addRequest (Request.to_js (bag [] []))
            (fst (Rcoil.startGroup "group1" Rcoil.new)))).

(** [on_bag] after [startGroup("group2")], as the director reads it:
    one group, and a count of two. *)
Definition bag_coil : Coil :=
  {| coil_calls :=
       [Group "group1" [bag [] [Rcoil._createEmptyRequestGroup "group2"]] []];
     coil_count := 2 |}.


(** A walker callback that never asks to return. *)
Definition keep_walking (_ : Rcoil.key) (_ : jsval) : Rcoil.processResult :=
  {| Rcoil.shouldReturn := false; Rcoil.value := JNull |}.

(** A context on which the group [A] is active. *)
Definition groupA : RequestGroup := Group "A" [] [].
Definition groupB : RequestGroup := Group "B" [] [].
Definition one_active : ExecutionContext.t nat nat :=
  ExecutionContext.registerActiveGroup groupA ExecutionContext.new.

(** A request made for a Lambda function, then given an input callback. *)
Definition job : Request.t :=
  Request.onInput (JFun 3) (Request.lambda "job" (JStr "arn:aws:lambda:fn") JUndef).

(** The director of [one_group], started and then aborted. *)
Definition aborted_world : ExecutionDirector.world :=
  ExecutionDirector.with_director
    (ExecutionDirector.abort
       (ExecutionDirector.director
          (ExecutionDirector.start (Some 1) (ExecutionDirector.init one_group false))))
    (ExecutionDirector.start (Some 1) (ExecutionDirector.init one_group false)).

End Fixture.

(** The coil of the repository's builder test, call after call. *)
Module CoilTest.
Definition request : Request.t :=
  {| Request.type := "http"; Request.name := "test";
     Request.settings :=
       JObj PlainObject
         [("host", JStr "api.com"); ("path", JStr "/test"); ("port", JNull);
          ("protocol", JStr "http:"); ("method", JStr "GET")];
     Request.inputFunc := JNull; Request.outputFunc := JNull |}.
Definition coil1 : Rcoil.t := fst (Rcoil.startGroup "testGroup" Rcoil.new).
Definition coil2 : Rcoil.t := fst (Rcoil.addRequest (Request.to_js request) coil1).
Definition coil3 : Rcoil.t := fst (Rcoil.startGroup "secondGroup" coil2).
End CoilTest.

(** Input callbacks for the examples: callback 0 asks not to send, any
    other sends the body ["body"] on the handle as prepared. *)
Definition example_callbacks : InputCallbacks :=
  {| run_input := fun f _ o => if Nat.eqb f 0 then DoNotSend else Send (JStr "body") o |}.

Definition example_outgoing : outgoing :=
  {| out_headers := JObj PlainObject []; out_url := JStr "http://localhost:3000/users";
     out_method := JStr "GET" |}.

Definition example_response : response :=
  HttpResponse (JObj PlainObject []) (JStr "1.1") JUndef 200 (JStr "OK").

(** The run of [Fixture.one_group] in which [abort()] is called before
    the group ends; [start] called again on that director, with another
    callback, and the run of the group to its end. *)
Definition example_aborted_run : option ExecutionDirector.world :=
  @ExecutionDirector.run example_callbacks
    [ExecutionDirector.LInput 0 0 1 example_outgoing;
     ExecutionDirector.LAbort;
     ExecutionDirector.LResponse 0 0 2 example_response (JStr "[]");
     ExecutionDirector.LGroupEnd 0]
    (ExecutionDirector.start (Some 1) (ExecutionDirector.init Fixture.one_group false)).

Definition example_restart : option ExecutionDirector.world :=
  match example_aborted_run with
  | Some w =>
      @ExecutionDirector.run example_callbacks
        [ExecutionDirector.LInput 1 0 3 example_outgoing;
         ExecutionDirector.LResponse 1 0 4 example_response (JStr "[]");
         ExecutionDirector.LGroupEnd 1]
        (ExecutionDirector.start (Some 2) w)
  | None => None
  end.

(** [start] called twice in a row, with the callbacks 1 and 2, and the
    run of both players to their end. *)
Definition example_double_start : option ExecutionDirector.world :=
  @ExecutionDirector.run example_callbacks
    [ExecutionDirector.LInput 0 0 1 example_outgoing;
     ExecutionDirector.LResponse 0 0 2 example_response (JStr "[]");
     ExecutionDirector.LGroupEnd 0;
     ExecutionDirector.LInput 1 0 3 example_outgoing;
     ExecutionDirector.LResponse 1 0 4 example_response (JStr "[]");
     ExecutionDirector.LGroupEnd 1]
    (ExecutionDirector.start (Some 2)
       (ExecutionDirector.start (Some 1) (ExecutionDirector.init Fixture.one_group false))).

(* ===================================================================== *)
(** * Properties *)
(* ===================================================================== *)

(** ** Request factories *)





(** ** Execution context *)

Section Tables.
Context {A : Type}.
Implicit Types groups : gmap string (gmap string A).

Lemma plain_inherited k : JS.plain k = true -> JS.inherited k = false.
Proof. unfold JS.plain. destruct (JS.inherited k); [discriminate | reflexivity]. Qed.

Lemma plain_proto k : JS.plain k = true -> String.eqb k "__proto__" = false.
Proof.
  destruct (String.eqb_spec k "__proto__") as [-> | _]; [| reflexivity].
  intros H. vm_compute in H. discriminate H.
Qed.

(** Under a group id and a request name that [Object.prototype] does
    not hold, a write makes or overwrites an own property. *)
Lemma write_plain g n (d : A) groups :
  JS.plain g = true -> JS.plain n = true ->
  ExecutionContext.write g n d (ExecutionContext.Own groups)
  = ExecutionContext.Own (<[g := <[n := d]> (default ∅ (groups !! g))]> groups).
Proof.
  intros Hg Hn. unfold ExecutionContext.write.
  rewrite (plain_inherited _ Hg), (plain_proto _ Hn).
  destruct (groups !! g); reflexivity.
Qed.

Lemma read_write_plain g n g' n' (d : A) groups :
  JS.plain g' = true -> JS.plain n' = true -> JS.plain n = true ->
  ExecutionContext.read g n (ExecutionContext.write g' n' d (ExecutionContext.Own groups))
  = if decide (g' = g /\ n' = n) then Some (ExecutionContext.Stored d)
    else ExecutionContext.read g n (ExecutionContext.Own groups).
Proof.
  intros Hg' Hn' Hn. rewrite (write_plain _ _ _ _ Hg' Hn').
  unfold ExecutionContext.read.
  destruct (decide (g' = g)) as [-> | Hg].
  - rewrite lookup_insert_eq.
    destruct (decide (n' = n)) as [-> | Hne].
    + rewrite lookup_insert_eq. rewrite decide_True by done. reflexivity.
    + rewrite lookup_insert_ne by done. rewrite decide_False by tauto.
      destruct (groups !! g) as [byName |]; cbn [default]; [reflexivity |].
      rewrite lookup_empty.
      rewrite (plain_inherited _ Hn), (plain_inherited _ Hg'), (plain_proto _ Hg').
      reflexivity.
  - rewrite lookup_insert_ne by done. rewrite decide_False by tauto. reflexivity.
Qed.

End Tables.

Section ContextData.
Context {Req Res : Type}.
Implicit Types this : ExecutionContext.t Req Res.

Lemma tracked_tables this :
  ExecutionContext.tracked this = true ->
  exists rq rs, ExecutionContext._requests this = ExecutionContext.Own rq
                /\ ExecutionContext._responses this = ExecutionContext.Own rs.
Proof.
  unfold ExecutionContext.tracked.
  destruct (ExecutionContext._requests this) as [rq |]; [| discriminate].
  destruct (ExecutionContext._responses this) as [rs |]; [| discriminate].
  intros _. exists rq, rs. split; reflexivity.
Qed.

(** The setters leave the two lists alone. *)
Lemma setResponseData_activeRequests this g n (d : Res) :
  ExecutionContext._activeRequests (ExecutionContext.setResponseData g n d this)
  = ExecutionContext._activeRequests this.
Proof.
  unfold ExecutionContext.setResponseData.
  destruct (ExecutionContext.write g n d _); reflexivity.
Qed.

Lemma setResponseData_activeGroups this g n (d : Res) :
  ExecutionContext._activeGroups (ExecutionContext.setResponseData g n d this)
  = ExecutionContext._activeGroups this.
Proof.
  unfold ExecutionContext.setResponseData.
  destruct (ExecutionContext.write g n d _); reflexivity.
Qed.

Lemma setRequestData_activeRequests this g n (d : Req) :
  ExecutionContext._activeRequests (ExecutionContext.setRequestData g n d this)
  = ExecutionContext._activeRequests this.
Proof.
  unfold ExecutionContext.setRequestData.
  destruct (ExecutionContext.write g n d _); reflexivity.
Qed.

Lemma setRequestData_activeGroups this g n (d : Req) :
  ExecutionContext._activeGroups (ExecutionContext.setRequestData g n d this)
  = ExecutionContext._activeGroups this.
Proof.
  unfold ExecutionContext.setRequestData.
  destruct (ExecutionContext.write g n d _); reflexivity.
Qed.

(** A write under plain keys changes the one table, by [write]. *)
Lemma setResponseData_plain this g n (d : Res) :
  ExecutionContext.tracked this = true -> JS.plain g = true -> JS.plain n = true ->
  ExecutionContext.setResponseData g n d this
  = {| ExecutionContext._activeGroups := ExecutionContext._activeGroups this;
       ExecutionContext._activeRequests := ExecutionContext._activeRequests this;
       ExecutionContext._requests := ExecutionContext._requests this;
       ExecutionContext._responses :=
         ExecutionContext.write g n d (ExecutionContext._responses this) |}.
Proof.
  intros Ht Hg Hn. destruct (tracked_tables this Ht) as (rq & rs & Hrq & Hrs).
  unfold ExecutionContext.setResponseData. rewrite Hrs, (write_plain _ _ _ _ Hg Hn).
  reflexivity.
Qed.

Lemma setRequestData_plain this g n (d : Req) :
  ExecutionContext.tracked this = true -> JS.plain g = true -> JS.plain n = true ->
  ExecutionContext.setRequestData g n d this
  = {| ExecutionContext._activeGroups := ExecutionContext._activeGroups this;
       ExecutionContext._activeRequests := ExecutionContext._activeRequests this;
       ExecutionContext._requests :=
         ExecutionContext.write g n d (ExecutionContext._requests this);
       ExecutionContext._responses := ExecutionContext._responses this |}.
Proof.
  intros Ht Hg Hn. destruct (tracked_tables this Ht) as (rq & rs & Hrq & Hrs).
  unfold ExecutionContext.setRequestData. rewrite Hrq, (write_plain _ _ _ _ Hg Hn).
  reflexivity.
Qed.

Lemma setResponseData_tracked this g n (d : Res) :
  ExecutionContext.tracked this = true -> JS.plain g = true -> JS.plain n = true ->
  ExecutionContext.tracked (ExecutionContext.setResponseData g n d this) = true.
Proof.
  intros Ht Hg Hn. rewrite (setResponseData_plain _ _ _ _ Ht Hg Hn).
  destruct (tracked_tables this Ht) as (rq & rs & Hrq & Hrs).
  unfold ExecutionContext.tracked. cbn. rewrite Hrq, Hrs, (write_plain _ _ _ _ Hg Hn).
  reflexivity.
Qed.

Lemma setRequestData_tracked this g n (d : Req) :
  ExecutionContext.tracked this = true -> JS.plain g = true -> JS.plain n = true ->
  ExecutionContext.tracked (ExecutionContext.setRequestData g n d this) = true.
Proof.
  intros Ht Hg Hn. rewrite (setRequestData_plain _ _ _ _ Ht Hg Hn).
  destruct (tracked_tables this Ht) as (rq & rs & Hrq & Hrs).
  unfold ExecutionContext.tracked. cbn. rewrite Hrq, Hrs, (write_plain _ _ _ _ Hg Hn).
  reflexivity.
Qed.

Lemma responseData_set this g n g' n' (d : Res) :
  ExecutionContext.tracked this = true ->
  JS.plain g' = true -> JS.plain n' = true -> JS.plain n = true ->
  ExecutionContext.responseData g n (ExecutionContext.setResponseData g' n' d this)
  = if decide (g' = g /\ n' = n) then Some (ExecutionContext.Stored d)
    else ExecutionContext.responseData g n this.
Proof.
  intros Ht Hg' Hn' Hn. rewrite (setResponseData_plain _ _ _ _ Ht Hg' Hn').
  destruct (tracked_tables this Ht) as (rq & rs & Hrq & Hrs).
  unfold ExecutionContext.responseData. cbn. rewrite Hrs.
  apply read_write_plain; assumption.
Qed.

Lemma requestData_set this g n g' n' (d : Req) :
  ExecutionContext.tracked this = true ->
  JS.plain g' = true -> JS.plain n' = true -> JS.plain n = true ->
  ExecutionContext.requestData g n (ExecutionContext.setRequestData g' n' d this)
  = if decide (g' = g /\ n' = n) then Some (ExecutionContext.Stored d)
    else ExecutionContext.requestData g n this.
Proof.
  intros Ht Hg' Hn' Hn. rewrite (setRequestData_plain _ _ _ _ Ht Hg' Hn').
  destruct (tracked_tables this Ht) as (rq & rs & Hrq & Hrs).
  unfold ExecutionContext.requestData. cbn. rewrite Hrq.
  apply read_write_plain; assumption.
Qed.

(** Each table is written by its own setter only. *)
Lemma responseData_setRequestData this g n g' n' (d : Req) :
  ExecutionContext.tracked this = true -> JS.plain g' = true -> JS.plain n' = true ->
  ExecutionContext.responseData g n (ExecutionContext.setRequestData g' n' d this)
  = ExecutionContext.responseData g n this.
Proof.
  intros Ht Hg' Hn'. rewrite (setRequestData_plain _ _ _ _ Ht Hg' Hn'). reflexivity.
Qed.

Lemma requestData_setResponseData this g n g' n' (d : Res) :
  ExecutionContext.tracked this = true -> JS.plain g' = true -> JS.plain n' = true ->
  ExecutionContext.requestData g n (ExecutionContext.setResponseData g' n' d this)
  = ExecutionContext.requestData g n this.
Proof.
  intros Ht Hg' Hn'. rewrite (setResponseData_plain _ _ _ _ Ht Hg' Hn'). reflexivity.
Qed.

Lemma plain_keys_set_request g n (d : Req) :
  plain_keys (@SetRequestData Req Res g n d) = true ->
  JS.plain g = true /\ JS.plain n = true.
Proof. cbn. intros H. apply andb_true_iff in H. exact H. Qed.

Lemma plain_keys_set_response g n (d : Res) :
  plain_keys (@SetResponseData Req Res g n d) = true ->
  JS.plain g = true /\ JS.plain n = true.
Proof. cbn. intros H. apply andb_true_iff in H. exact H. Qed.

Lemma apply_op_tracked this (op : context_op Req Res) :
  ExecutionContext.tracked this = true -> plain_keys op = true ->
  ExecutionContext.tracked (apply_op this op) = true.
Proof.
  intros Ht Hop. destruct op as [g | g | r | r | g n d | g n d]; cbn [apply_op];
    try exact Ht.
  - destruct (plain_keys_set_request _ _ _ Hop). apply setRequestData_tracked; assumption.
  - destruct (plain_keys_set_response _ _ _ Hop). apply setResponseData_tracked; assumption.
Qed.

Lemma fold_apply_op_tracked (ops : list (context_op Req Res)) this :
  ExecutionContext.tracked this = true -> forallb plain_keys ops = true ->
  ExecutionContext.tracked (fold_left apply_op ops this) = true.
Proof.
  revert this. induction ops as [| op ops IH]; intros this Ht Hops; [exact Ht |].
  cbn [forallb] in Hops. apply andb_true_iff in Hops. destruct Hops as [Hop Hops].
  cbn [fold_left]. apply IH; [apply apply_op_tracked; assumption | exact Hops].
Qed.

Lemma after_ops_tracked (ops : list (context_op Req Res)) :
  forallb plain_keys ops = true -> ExecutionContext.tracked (after_ops ops) = true.
Proof. intros Hops. apply fold_apply_op_tracked; [reflexivity | exact Hops]. Qed.

Lemma responseData_apply_op this g n (op : context_op Req Res) :
  ExecutionContext.tracked this = true -> plain_keys op = true -> JS.plain n = true ->
  ~ writes_response g n op ->
  ExecutionContext.responseData g n (apply_op this op) = ExecutionContext.responseData g n this.
Proof.
  intros Ht Hop Hn.
  destruct op as [g0 | g0 | r | r | g' n' d | g' n' d]; cbn [apply_op writes_response];
    intros Hw; try reflexivity.
  - destruct (plain_keys_set_request _ _ _ Hop).
    apply responseData_setRequestData; assumption.
  - destruct (plain_keys_set_response _ _ _ Hop).
    rewrite responseData_set by assumption. rewrite decide_False by exact Hw. reflexivity.
Qed.

Lemma requestData_apply_op this g n (op : context_op Req Res) :
  ExecutionContext.tracked this = true -> plain_keys op = true -> JS.plain n = true ->
  ~ writes_request g n op ->
  ExecutionContext.requestData g n (apply_op this op) = ExecutionContext.requestData g n this.
Proof.
  intros Ht Hop Hn.
  destruct op as [g0 | g0 | r | r | g' n' d | g' n' d]; cbn [apply_op writes_request];
    intros Hw; try reflexivity.
  - destruct (plain_keys_set_request _ _ _ Hop).
    rewrite requestData_set by assumption. rewrite decide_False by exact Hw. reflexivity.
  - destruct (plain_keys_set_response _ _ _ Hop).
    apply requestData_setResponseData; assumption.
Qed.

Lemma responseData_never_written (ops : list (context_op Req Res)) this g n :
  ExecutionContext.tracked this = true -> forallb plain_keys ops = true ->
  JS.plain n = true ->
  Forall (fun op => ~ writes_response g n op) ops ->
  ExecutionContext.responseData g n (fold_left apply_op ops this)
  = ExecutionContext.responseData g n this.
Proof.
  intros Ht Hplain Hn Hops. revert this Ht Hplain.
  induction Hops as [| op ops Hop _ IH]; intros this Ht Hplain; cbn [fold_left];
    [reflexivity |].
  cbn [forallb] in Hplain. apply andb_true_iff in Hplain. destruct Hplain as [Hp Hps].
  rewrite IH by (try apply apply_op_tracked; assumption).
  apply responseData_apply_op; assumption.
Qed.

Lemma requestData_never_written (ops : list (context_op Req Res)) this g n :
  ExecutionContext.tracked this = true -> forallb plain_keys ops = true ->
  JS.plain n = true ->
  Forall (fun op => ~ writes_request g n op) ops ->
  ExecutionContext.requestData g n (fold_left apply_op ops this)
  = ExecutionContext.requestData g n this.
Proof.
  intros Ht Hplain Hn Hops. revert this Ht Hplain.
  induction Hops as [| op ops Hop _ IH]; intros this Ht Hplain; cbn [fold_left];
    [reflexivity |].
  cbn [forallb] in Hplain. apply andb_true_iff in Hplain. destruct Hplain as [Hp Hps].
  rewrite IH by (try apply apply_op_tracked; assumption).
  apply requestData_apply_op; assumption.
Qed.

(** On a fresh context a pair of plain keys reads [null]. *)
Lemma read_fresh g n :
  JS.plain g = true ->
  @ExecutionContext.read Req g n (ExecutionContext.Own ∅) = None.
Proof.
  intros Hg. unfold ExecutionContext.read. rewrite lookup_empty.
  rewrite (plain_inherited _ Hg), (plain_proto _ Hg). reflexivity.
Qed.

End ContextData.

(** C4. For a group id and a request name that [Object.prototype] does
    not hold, on a context reached from a fresh one by calls that wrote
    data under such ids and names only: [responseData(groupId, name)]
    right after [setResponseData(groupId, name, record)] returns
    [record]; when the calls never wrote response data under
    [(groupId, name)], [responseData(groupId, name)] returns [null]; and
    the same holds of [requestData] and [setRequestData]. *)
Theorem C4_context_data_round_trip {Req Res : Type} :
  (forall (ops : list (context_op Req Res)) groupId name (record : Res),
      forallb plain_keys ops = true ->
      JS.plain groupId = true -> JS.plain name = true ->
      ExecutionContext.responseData groupId name
        (ExecutionContext.setResponseData groupId name record (after_ops ops))
      = Some (ExecutionContext.Stored record))
  /\ (forall (ops : list (context_op Req Res)) groupId name,
        forallb plain_keys ops = true ->
        JS.plain groupId = true -> JS.plain name = true ->
        Forall (fun op => ~ writes_response groupId name op) ops ->
        ExecutionContext.responseData groupId name (after_ops ops) = None)
  /\ (forall (ops : list (context_op Req Res)) groupId name (record : Req),
        forallb plain_keys ops = true ->
        JS.plain groupId = true -> JS.plain name = true ->
        ExecutionContext.requestData groupId name
          (ExecutionContext.setRequestData groupId name record (after_ops ops))
        = Some (ExecutionContext.Stored record))
  /\ (forall (ops : list (context_op Req Res)) groupId name,
        forallb plain_keys ops = true ->
        JS.plain groupId = true -> JS.plain name = true ->
        Forall (fun op => ~ writes_request groupId name op) ops ->
        ExecutionContext.requestData groupId name (after_ops ops) = None).
Proof.
  split; [| split; [| split]].
  - intros ops g n record Hops Hg Hn.
    rewrite responseData_set by (try apply after_ops_tracked; assumption).
    rewrite decide_True by done. reflexivity.
  - intros ops g n Hops Hg Hn Hnever. unfold after_ops.
    rewrite responseData_never_written by (try reflexivity; assumption).
    apply (read_fresh (Req := Res)). exact Hg.
  - intros ops g n record Hops Hg Hn.
    rewrite requestData_set by (try apply after_ops_tracked; assumption).
    rewrite decide_True by done. reflexivity.
  - intros ops g n Hops Hg Hn Hnever. unfold after_ops.
    rewrite requestData_never_written by (try reflexivity; assumption).
    apply (read_fresh (Req := Req)). exact Hg.
Qed.

Lemma C4_context_data_round_trip_witness :
  ExecutionContext.responseData "group1" "request1"
    (ExecutionContext.setResponseData "group1" "request1" 3
       (after_ops [SetRequestData "group1" "request1" 1; SetResponseData "group2" "request2" 2]))
  = Some (ExecutionContext.Stored 3)
  /\ ExecutionContext.responseData "group1" "request1"
       (after_ops [SetRequestData "group1" "request1" 1; SetResponseData "group2" "request2" 2])
     = @None (ExecutionContext.slot nat)
  /\ ExecutionContext.requestData "group2" "request2"
       (after_ops [SetRequestData "group1" "request1" 1; SetResponseData "group2" "request2" 2])
     = @None (ExecutionContext.slot nat).
Proof.
  destruct (@C4_context_data_round_trip nat nat) as (Hset & Hres & _ & Hreq).
  split; [| split].
  - apply Hset; reflexivity.
  - apply Hres; try reflexivity. repeat constructor; cbn; intros H; try exact H.
    destruct H as [H _]. discriminate H.
  - apply Hreq; try reflexivity. repeat constructor; cbn; intros H; try exact H.
    destruct H as [H _]. discriminate H.
Defined.

(** C4, as stated for every group id and name, fails:
    on a fresh context [responseData("constructor", "name")] does not
    return [null] (it returns the name of the function [Object]), and
    [setResponseData("constructor", "name", record)] does not change
    that; after [setResponseData("group1", "request1", record)] the
    pair [("group1", "toString")], never written, does not read as
    [null] either; and the same holds of the request data. *)
Lemma C4_context_data_round_trip_counterexample :
  ExecutionContext.responseData "constructor" "name" (@ExecutionContext.new nat nat)
  = Some ExecutionContext.Inherited
  /\ ExecutionContext.responseData "constructor" "name"
       (ExecutionContext.setResponseData "constructor" "name" 7 (@ExecutionContext.new nat nat))
     = Some ExecutionContext.Inherited
  /\ ExecutionContext.responseData "group1" "toString"
       (@after_ops nat nat [SetResponseData "group1" "request1" 7])
     = Some ExecutionContext.Inherited
  /\ ExecutionContext.requestData "constructor" "name" (@ExecutionContext.new nat nat)
     = Some ExecutionContext.Inherited
  /\ ExecutionContext.requestData "constructor" "name"
       (ExecutionContext.setRequestData "constructor" "name" 7 (@ExecutionContext.new nat nat))
     = Some ExecutionContext.Inherited
  /\ ExecutionContext.requestData "group1" "toString"
       (@after_ops nat nat [SetRequestData "group1" "request1" 7])
     = Some ExecutionContext.Inherited.
Proof. vm_compute. repeat split; reflexivity. Qed.

Section ActiveRequests.
Context {Req Res : Type}.
Implicit Types this : ExecutionContext.t Req Res.

Lemma getActiveRequest_null this requestName :
  ExecutionContext.getActiveRequest requestName this = JNull.
Proof.
  unfold ExecutionContext.getActiveRequest.
  generalize (seq 0 (length (ExecutionContext._activeRequests this))).
  intros l. induction l as [| i l IH]; cbn; [reflexivity | exact IH].
Qed.

End ActiveRequests.

(** C5. What [registerActiveRequest(r)] does on any context: [r] goes on
    the active-groups list; the active-requests list, and so what
    [getActiveRequests()] returns, stay as they were; and
    [getActiveRequest(name)] returns [null], as it does on every context. *)
Theorem C5_registerActiveRequest_registers_a_group {Req Res : Type}
    (this : ExecutionContext.t Req Res) (r : Request.t) :
  let this' := ExecutionContext.registerActiveRequest r this in
  ExecutionContext._activeGroups this'
  = ExecutionContext._activeGroups this ++ [ExecutionContext.ActiveRequest r]
  /\ ExecutionContext._activeRequests this' = ExecutionContext._activeRequests this
  /\ ExecutionContext.getActiveRequests this' = ExecutionContext.getActiveRequests this
  /\ ExecutionContext.getActiveRequest (Request.name r) this' = JNull
  /\ ExecutionContext.getActiveRequests
       (ExecutionContext.registerActiveRequest r (@ExecutionContext.new Req Res)) = [].
Proof.
  intros this'. repeat split. apply getActiveRequest_null.
Qed.


(** ** Execution director: single occurrences *)

(** C6. When the input callback of a pending request answers with the
    signal not to send, and neither the id of the group nor the name of
    the request is a name that [Object.prototype] holds, on a context
    whose tables no write has gone beyond: the input stage of the runner
    stores under [(groupId, request name)] a response record with
    [isCanceled = true], hands nothing to the transport, emits
    [requestEnd] for the request, and leaves the runner completed. *)
Theorem C6_cancelled_request `{InputCallbacks} (w : ExecutionDirector.world)
    (i j now : nat) (requestObject : outgoing) (p : ExecutionDirector.player)
    (r : Request.t) (f : nat) :
  ExecutionDirector.players w !! i = Some p ->
  ExecutionDirector.pl_runners p !! j = Some ExecutionDirector.Pending ->
  Tree.requests (ExecutionDirector.pl_group p) !! j = Some r ->
  Request.inputFunc r = JFun f ->
  run_input f (ExecutionDirector.executionContext (ExecutionDirector.director w)) requestObject
  = DoNotSend ->
  JS.plain (Tree.id (ExecutionDirector.pl_group p)) = true ->
  JS.plain (Request.name r) = true ->
  ExecutionContext.tracked (ExecutionDirector.executionContext (ExecutionDirector.director w))
  = true ->
  exists w',
    ExecutionDirector.step (ExecutionDirector.LInput i j now requestObject) w = Some w'
    /\ (exists record,
          ExecutionContext.responseData (Tree.id (ExecutionDirector.pl_group p)) (Request.name r)
            (ExecutionDirector.executionContext (ExecutionDirector.director w'))
          = Some (ExecutionContext.Stored record)
          /\ isCanceled record = true)
    /\ ExecutionDirector.transport w' = ExecutionDirector.transport w
    /\ ExecutionDirector.emitted (ExecutionDirector.director w')
       = ExecutionDirector.emitted (ExecutionDirector.director w)
           ++ [ExecutionDirector.requestEnd (Tree.id (ExecutionDirector.pl_group p)) r]
    /\ (exists p', ExecutionDirector.players w' !! i = Some p'
                   /\ ExecutionDirector.pl_runners p' !! j = Some ExecutionDirector.Completed).
Proof.
  intros Hp Hj Hr Hf Hcancel Hgid Hname Htracked.
  eexists. split.
  - unfold ExecutionDirector.step. rewrite Hp, Hj, Hr.
    unfold ExecutionDirector.runner_input. rewrite Hf, Hcancel. reflexivity.
  - split; [| split; [| split]].
    + eexists. split.
      * cbn. unfold ExecutionDirector._requestCanceled. cbn.
        rewrite responseData_set by assumption. rewrite decide_True by done. reflexivity.
      * reflexivity.
    + reflexivity.
    + reflexivity.
    + cbn. rewrite list_lookup_alter_eq, Hp. cbn. eexists. split; [reflexivity |].
      cbn. apply list_lookup_insert_eq. eapply lookup_lt_Some, Hj.
Qed.

Lemma C6_cancelled_request_witness :
  exists w',
    @ExecutionDirector.step example_callbacks
      (ExecutionDirector.LInput 0 0 5 example_outgoing)
      (ExecutionDirector.start (Some 1)
         (ExecutionDirector.init Fixture.one_cancelling_group false)) = Some w'
    /\ (exists record,
          ExecutionContext.responseData "group1" "request1"
            (ExecutionDirector.executionContext (ExecutionDirector.director w'))
          = Some (ExecutionContext.Stored record)
          /\ isCanceled record = true)
    /\ ExecutionDirector.transport w' = [].
Proof.
  destruct (@C6_cancelled_request example_callbacks
              (ExecutionDirector.start (Some 1)
                 (ExecutionDirector.init Fixture.one_cancelling_group false))
              0 0 5 example_outgoing
              (ExecutionDirector.new_player (Group "group1" [Fixture.cancelling] []))
              Fixture.cancelling 0
              eq_refl eq_refl eq_refl eq_refl eq_refl eq_refl eq_refl eq_refl)
    as (w' & Hstep & Hrec & Htr & _).
  exists w'. split; [exact Hstep | split; [exact Hrec | exact Htr]].
Defined.

(** C6, as stated for every request, fails: in the
    group [constructor], the request [name] whose input callback
    answers with the signal not to send is cancelled, [requestEnd] is
    emitted, and no record is stored: [_responses["constructor"]] is
    the function [Object], whose [name] cannot be written, and
    [responseData("constructor", "name")] returns that name. *)
Lemma C6_cancelled_request_counterexample :
  exists w',
    @ExecutionDirector.step example_callbacks
      (ExecutionDirector.LInput 0 0 5 example_outgoing)
      (ExecutionDirector.start (Some 1)
         (ExecutionDirector.init Fixture.constructor_group false)) = Some w'
    /\ ExecutionContext.responseData "constructor" "name"
         (ExecutionDirector.executionContext (ExecutionDirector.director w'))
       = Some ExecutionContext.Inherited
    /\ ExecutionDirector.emitted (ExecutionDirector.director w')
       = [ExecutionDirector.groupStart (Group "constructor" [Fixture.named_name] []);
          ExecutionDirector.requestEnd "constructor" Fixture.named_name]
    /\ ExecutionDirector.transport w' = [].
Proof. eexists. vm_compute. repeat split; reflexivity. Qed.

Section ActiveRequestsInRuns.
Import ExecutionDirector.
Context {cb : InputCallbacks}.

Lemma player_starts_no_active_requests gs w :
  no_active_requests w ->
  no_active_requests (fold_left (fun w g => player_start g w) gs w).
Proof.
  revert w. induction gs as [| g gs IH]; intros w Hw; [exact Hw |].
  cbn [fold_left]. apply IH. exact Hw.
Qed.

Lemma start_no_active_requests callback c dbg :
  no_active_requests (start callback (init c dbg)).
Proof. unfold start. apply player_starts_no_active_requests. reflexivity. Qed.

Lemma step_no_active_requests l w w' :
  no_active_requests w -> step l w = Some w' -> no_active_requests w'.
Proof.
  unfold no_active_requests. intros Hw.
  destruct l as [i j now o | i j now resp output | i |]; cbn [step].
  - destruct (players w !! i) as [p |]; [| discriminate].
    destruct (pl_runners p !! j) as [[| |] |]; try discriminate.
    destruct (Tree.requests (pl_group p) !! j) as [r |]; [| discriminate].
    unfold runner_input.
    destruct (match Request.inputFunc r with
              | JFun f => run_input f (executionContext (director w)) o
              | _ => Send JUndef o
              end) as [| input o']; intros [= <-]; cbn;
      rewrite ?setResponseData_activeRequests, ?setRequestData_activeRequests;
      cbn; rewrite ?Hw; reflexivity.
  - destruct (players w !! i) as [p |]; [| discriminate].
    destruct (pl_runners p !! j) as [[| |] |]; try discriminate.
    destruct (Tree.requests (pl_group p) !! j) as [r |]; [| discriminate].
    intros [= <-]. unfold _requestDone. cbn [with_director set_runner director].
    set (d := emit _ _).
    assert (Hd : ExecutionContext._activeRequests (executionContext d) = [])
      by (unfold d; cbn; rewrite setResponseData_activeRequests; cbn; rewrite Hw;
          reflexivity).
    destruct (debug d); [| exact Hd].
    destruct (ExecutionContext.requestData _ _ _) as [[| |] |]; exact Hd.
  - destruct (players w !! i) as [p |]; [| discriminate].
    destruct (negb (pl_done p) && all_completed (pl_runners p)); [| discriminate].
    intros [= <-]. unfold _requestGroupDone, _isAborted.
    cbn [set_done director with_context set_counter _aborted executionContext].
    destruct (_aborted (director w)).
    + match goal with |- context [if ?b then _ else _] => destruct b end; cbn; exact Hw.
    + set (w1 := fold_left _ _ _).
      assert (Hw1 : no_active_requests w1)
        by (apply player_starts_no_active_requests; exact Hw).
      destruct (Nat.eqb _ 0 && Nat.eqb _ _); [| exact Hw1].
      destruct (_endCallback (director w1)); exact Hw1.
  - intros [= <-]. exact Hw.
Qed.

(** Whatever occurs after [start], the active-requests list stays
    empty. *)
Lemma run_no_active_requests ls w w' :
  no_active_requests w -> run ls w = Some w' -> no_active_requests w'.
Proof.
  revert w. induction ls as [| l ls IH]; intros w Hw; cbn [run].
  - intros [= <-]. exact Hw.
  - destruct (step l w) as [w1 |] eqn:Hstep; [| discriminate].
    apply IH. eapply step_no_active_requests; eassumption.
Qed.

End ActiveRequestsInRuns.

(** In every run after [start], on any coil, [getActiveRequests()] is
    empty: the test [_isAborted] makes before it emits [abort] always
    succeeds. *)
Lemma getActiveRequests_always_empty `{InputCallbacks} c dbg callback ls w :
  ExecutionDirector.run ls
    (ExecutionDirector.start callback (ExecutionDirector.init c dbg)) = Some w ->
  ExecutionContext.getActiveRequests
    (ExecutionDirector.executionContext (ExecutionDirector.director w)) = [].
Proof.
  intros Hrun.
  pose proof (run_no_active_requests ls _ w (start_no_active_requests callback c dbg) Hrun)
    as Hw.
  unfold ExecutionContext.getActiveRequests. unfold no_active_requests in Hw.
  rewrite Hw. reflexivity.
Qed.

(** C2. Two sibling root groups [A] and [B] with one request each: both
    requests are dispatched, [abort()] is called, the transport answers
    the request of [A] and [A] ends.  The director emits [abort] at that
    group end although the request of [B] is still with the transport:
    no request was ever put on the active-requests list, so
    [getActiveRequests()] is empty at every group end. *)
Theorem C2_abort_event_with_request_in_flight :
  let gA := Group "A" [Request.new "a"] [] in
  let gB := Group "B" [Request.new "b"] [] in
  let w0 := ExecutionDirector.start (Some 1)
              (ExecutionDirector.init (MkCoil [gA; gB] 2) false) in
  exists w,
    @ExecutionDirector.run example_callbacks
      [ExecutionDirector.LInput 0 0 1 example_outgoing;
       ExecutionDirector.LInput 1 0 1 example_outgoing;
       ExecutionDirector.LAbort;
       ExecutionDirector.LResponse 0 0 2 example_response (JStr "[]");
       ExecutionDirector.LGroupEnd 0] w0 = Some w
    /\ ExecutionDirector.emitted (ExecutionDirector.director w)
       = [ExecutionDirector.groupStart gA; ExecutionDirector.groupStart gB;
          ExecutionDirector.requestStart "A" (Request.new "a");
          ExecutionDirector.requestStart "B" (Request.new "b");
          ExecutionDirector.requestEnd "A" (Request.new "a");
          ExecutionDirector.abort_event]
    /\ ExecutionDirector.pl_runners <$> (ExecutionDirector.players w !! 1)
       = Some [ExecutionDirector.Dispatched]
    /\ ExecutionContext.responseData "B" "b"
         (ExecutionDirector.executionContext (ExecutionDirector.director w)) = None
    /\ ExecutionContext.getActiveRequests
         (ExecutionDirector.executionContext (ExecutionDirector.director w)) = [].
Proof.
  intros gA gB w0. eexists. split; [vm_compute; reflexivity |].
  repeat split; vm_compute; reflexivity.
Qed.

(** ** Tree builder: the walk on typed forests *)

Lemma jsval_nested_ind (P : jsval -> Prop) :
  P JUndef -> P JNull -> (forall s, P (JStr s)) -> (forall f, P (JFun f)) ->
  (forall c ps, Forall (fun kv => P (snd kv)) ps -> P (JObj c ps)) ->
  (forall es, Forall P es -> P (JArr es)) ->
  forall v, P v.
Proof.
  intros HU HN HS HF HO HA.
  fix IH 1. intros [| | s | f | c ps | es].
  - exact HU.
  - exact HN.
  - apply HS.
  - apply HF.
  - apply HO. induction ps as [| [k x] ps IHps]; constructor; [apply IH | exact IHps].
  - apply HA. induction es as [| x es IHes]; constructor; [apply IH | exact IHes].
Qed.

Lemma RequestGroup_nested_ind (P : RequestGroup -> Prop) :
  (forall i rs cs, Forall P cs -> P (Group i rs cs)) ->
  forall g, P g.
Proof.
  intros HG. fix IH 1. intros [i rs cs].
  apply HG. induction cs as [| c cs IHcs]; constructor; [apply IH | exact IHcs].
Qed.

Lemma traverse_array es process :
  Rcoil._traverseTree (JArr es) process = each_elem process 0 es.
Proof.
  cbn [Rcoil._traverseTree]. generalize 0 as n.
  induction es as [| oi es IH]; intros n; [reflexivity |].
  cbn [each_elem]. rewrite <- IH. reflexivity.
Qed.

Lemma traverse_object c ps process :
  Rcoil._traverseTree (JObj c ps) process = each_prop process 0 ps.
Proof.
  cbn [Rcoil._traverseTree]. generalize 0 as n.
  induction ps as [| [i oi] ps IH]; intros n; [reflexivity |].
  cbn [each_prop]. rewrite <- IH. reflexivity.
Qed.

Lemma matches_id_free gid k x :
  Tree.id_free x = true ->
  Rcoil.shouldReturn (Rcoil.matches_id gid k x) = false.
Proof.
  intros Hx. unfold Rcoil.matches_id.
  destruct x as [| | s | f | c ps | es]; cbn; try reflexivity.
  cbn in Hx. apply andb_prop in Hx as [Hid _].
  destruct (JS.lookup_prop "id" ps) as [[| | s | f | c' ps' | es'] |]; cbn in *;
    try reflexivity; discriminate.
Qed.

Lemma visit_no_match gid k n x rest :
  Tree.id_free x = true ->
  Rcoil._traverseTree x (Rcoil.matches_id gid) = None ->
  Rcoil.visit (Rcoil.matches_id gid) k n x (Rcoil._traverseTree x (Rcoil.matches_id gid)) rest
  = rest.
Proof.
  intros Hfree Hsub. unfold Rcoil.visit.
  rewrite (matches_id_free gid k x Hfree), Hsub.
  destruct (negb (JS.typeof_object x)); [reflexivity |].
  destruct (negb (JS.is_null x)); reflexivity.
Qed.

Lemma id_free_props ps :
  Tree.id_free (JObj PlainObject ps) = true ->
  Forall (fun kv => Tree.id_free (snd kv) = true) ps.
Proof.
  cbn. intros H. apply andb_prop in H as [_ H].
  induction ps as [| [k x] ps IH]; constructor.
  - cbn. apply andb_prop in H as [H _]. exact H.
  - apply IH. apply andb_prop in H as [_ H]. exact H.
Qed.

Lemma id_free_elems es :
  Tree.id_free (JArr es) = true -> Forall (fun x => Tree.id_free x = true) es.
Proof.
  cbn. intros H. induction es as [| x es IH]; constructor.
  - apply andb_prop in H as [H _]. exact H.
  - apply IH. apply andb_prop in H as [_ H]. exact H.
Qed.

(** The walk finds nothing inside a value that carries no id. *)
Lemma traverse_id_free gid v :
  Tree.id_free v = true -> Rcoil._traverseTree v (Rcoil.matches_id gid) = None.
Proof.
  induction v as [| | s | f | c ps IH | es IH] using jsval_nested_ind; intros Hfree;
    try reflexivity.
  - rewrite traverse_object.
    assert (Hps : Forall (fun kv => Tree.id_free (snd kv) = true) ps).
    { apply id_free_props. cbn in *. exact Hfree. }
    clear Hfree. generalize 0 as n.
    induction ps as [| [k x] ps IHps]; intros n; cbn [each_prop]; [reflexivity |].
    inversion IH as [| ? ? IHx IHrest]; subst.
    inversion Hps as [| ? ? Hx Hrest]; subst. cbn in IHx, Hx.
    rewrite visit_no_match by auto. apply IHps; assumption.
  - rewrite traverse_array.
    apply id_free_elems in Hfree. generalize 0 as n.
    induction es as [| x es IHes]; intros n; cbn [each_elem]; [reflexivity |].
    inversion IH as [| ? ? IHx IHrest]; subst.
    inversion Hfree as [| ? ? Hx Hrest]; subst.
    rewrite visit_no_match by auto. apply IHes; assumption.
Qed.

Lemma quiet_id_free r :
  Tree.quiet r = true -> Tree.id_free (Request.to_js r) = true.
Proof.
  unfold Tree.quiet. intros H.
  apply andb_prop in H as [H Ho]. apply andb_prop in H as [Hs Hi].
  cbn. rewrite Hs, Hi, Ho. reflexivity.
Qed.

Lemma requests_id_free rs :
  forallb Tree.quiet rs = true -> Tree.id_free (JArr (map Request.to_js rs)) = true.
Proof.
  induction rs as [| r rs IH]; [reflexivity |].
  cbn [forallb]. intros H. apply andb_prop in H as [Hr Hrs].
  specialize (IH Hrs). cbn [map]. cbn in IH |- *.
  apply quiet_id_free in Hr. cbn in Hr. rewrite Hr. exact IH.
Qed.

Lemma all_quiet_children i rs cs :
  Tree.all_quiet (Group i rs cs) = true ->
  forallb Tree.quiet rs = true /\ forallb Tree.all_quiet cs = true.
Proof.
  cbn. intros H. apply andb_prop in H as [Hrs Hcs]. split; [exact Hrs |].
  induction cs as [| c cs IH]; [reflexivity |].
  apply andb_prop in Hcs as [Hc Hcs]. cbn. rewrite Hc. apply IH, Hcs.
Qed.

Lemma matches_id_group gid k g :
  Rcoil.matches_id gid k (Tree.to_js g)
  = if String.eqb (Tree.id g) gid
    then {| Rcoil.shouldReturn := true; Rcoil.value := Tree.to_js g |}
    else {| Rcoil.shouldReturn := false; Rcoil.value := JNull |}.
Proof. destruct g as [i rs cs]. reflexivity. Qed.

Lemma typeof_object_group g : JS.typeof_object (Tree.to_js g) = true.
Proof. destruct g; reflexivity. Qed.

Lemma is_null_group g : JS.is_null (Tree.to_js g) = false.
Proof. destruct g; reflexivity. Qed.

(** The walk over an array of group objects is the typed search, as
    soon as the walk inside each group is the typed search below it. *)
Lemma each_elem_first_match gid gs :
  Forall (fun g => Rcoil._traverseTree (Tree.to_js g) (Rcoil.matches_id gid)
                   = below_hit (Tree.find_below gid g)) gs ->
  forall n,
    each_elem (Rcoil.matches_id gid) n (map Tree.to_js gs)
    = typed_hit (Tree.first_match gid (Tree.find_below gid) n gs).
Proof.
  induction 1 as [| g gs Hg _ IH]; intros n; [reflexivity |].
  cbn [map each_elem Tree.first_match].
  unfold Rcoil.visit. rewrite Hg, matches_id_group, typeof_object_group, is_null_group.
  cbn [negb].
  destruct (String.eqb (Tree.id g) gid); cbn [Rcoil.shouldReturn Rcoil.value typed_hit].
  - destruct g; reflexivity.
  - destruct (Tree.find_below gid g) as [[p x] |]; cbn [below_hit typed_hit].
    + reflexivity.
    + apply IH.
Qed.

Lemma traverse_group gid g :
  Tree.all_quiet g = true ->
  Rcoil._traverseTree (Tree.to_js g) (Rcoil.matches_id gid) = below_hit (Tree.find_below gid g).
Proof.
  induction g as [i rs cs IH] using RequestGroup_nested_ind. intros Hq.
  apply all_quiet_children in Hq as [Hrs Hcs].
  cbn [Tree.to_js]. rewrite traverse_object. cbn [each_prop].
  unfold Rcoil.visit at 1. cbn [JS.typeof_object negb].
  rewrite visit_no_match;
    [| apply requests_id_free, Hrs | apply traverse_id_free, requests_id_free, Hrs].
  unfold Rcoil.visit. cbn [JS.typeof_object negb JS.is_null].
  unfold Rcoil.matches_id at 1. cbn [JS.typeof_object JS.neq_null JS.get JS.eq_string andb].
  cbn [Rcoil.shouldReturn].
  rewrite traverse_array, each_elem_first_match.
  - cbn [Tree.find_below].
    destruct (Tree.first_match gid (Tree.find_below gid) 0 cs) as [[p x] |]; reflexivity.
  - rewrite Forall_forall in IH |- *. intros c Hc. apply IH; [exact Hc |].
    rewrite forallb_forall in Hcs. apply Hcs, list_elem_of_In, Hc.
Qed.

(** On the encoding of a typed forest whose requests carry no id,
    [_findRequestGroup] is the typed search. *)
Lemma findRequestGroup_typed gid gs :
  forallb Tree.all_quiet gs = true ->
  Rcoil._findRequestGroup (JArr (map Tree.to_js gs)) gid = typed_hit (Tree.find gid gs).
Proof.
  intros Hq. unfold Rcoil._findRequestGroup, Tree.find.
  rewrite traverse_array. apply each_elem_first_match.
  rewrite Forall_forall. intros g Hg. apply traverse_group.
  rewrite forallb_forall in Hq. apply Hq, list_elem_of_In, Hg.
Qed.

(** ** Tree builder: what the typed search finds *)

Lemma forest_ids_cons g gs : Tree.forest_ids (g :: gs) = Tree.ids g ++ Tree.forest_ids gs.
Proof. reflexivity. Qed.

Lemma ids_group g : Tree.ids g = Tree.id g :: Tree.forest_ids (Tree.children g).
Proof. destruct g; reflexivity. Qed.

Lemma find_below_children gid g :
  Tree.find_below gid g = Tree.first_match gid (Tree.find_below gid) 0 (Tree.children g).
Proof. destruct g; reflexivity. Qed.

Lemma first_match_none_iff gid gs :
  Forall (fun g => Tree.find_below gid g = None <-> gid ∉ Tree.forest_ids (Tree.children g)) gs ->
  forall n, Tree.first_match gid (Tree.find_below gid) n gs = None <-> gid ∉ Tree.forest_ids gs.
Proof.
  induction 1 as [| g gs Hg _ IH]; intros n.
  - cbn. split; [intros _; apply not_elem_of_nil | reflexivity].
  - cbn [Tree.first_match]. rewrite forest_ids_cons, ids_group.
    rewrite elem_of_app, elem_of_cons.
    destruct (String.eqb_spec (Tree.id g) gid) as [Heq | Hne].
    + split; [discriminate | intros H; exfalso; apply H; auto].
    + destruct (Tree.find_below gid g) as [[p x] |] eqn:Hbelow.
      * split; [discriminate |]. intros H. exfalso.
        assert (Hin : gid ∈ Tree.forest_ids (Tree.children g)).
        { destruct (decide (gid ∈ Tree.forest_ids (Tree.children g))) as [Hin | Hnin];
            [exact Hin |]. apply Hg in Hnin. discriminate Hnin. }
        apply H. auto.
      * rewrite (IH (S n)). assert (Hnin : gid ∉ Tree.forest_ids (Tree.children g))
          by (apply Hg; reflexivity).
        split; [| tauto]. intros Hrest [[Heq | Hin] | Hin]; [congruence | tauto | tauto].
Qed.

Lemma find_below_none_iff gid g :
  Tree.find_below gid g = None <-> gid ∉ Tree.forest_ids (Tree.children g).
Proof.
  induction g as [i rs cs IH] using RequestGroup_nested_ind.
  cbn [Tree.find_below Tree.children]. apply first_match_none_iff, IH.
Qed.

(** The typed search fails exactly on the ids the forest does not have. *)
Lemma find_none_iff gid gs : Tree.find gid gs = None <-> gid ∉ Tree.forest_ids gs.
Proof.
  unfold Tree.find. apply first_match_none_iff.
  rewrite Forall_forall. intros g _. apply find_below_none_iff.
Qed.

Lemma first_match_id gid gs :
  Forall (fun g => forall p x, Tree.find_below gid g = Some (p, x) -> Tree.id x = gid) gs ->
  forall n p x, Tree.first_match gid (Tree.find_below gid) n gs = Some (p, x) -> Tree.id x = gid.
Proof.
  induction 1 as [| g gs Hg _ IH]; intros n p x; cbn [Tree.first_match]; [discriminate |].
  destruct (String.eqb_spec (Tree.id g) gid) as [Heq | Hne].
  - intros [= <- <-]. exact Heq.
  - destruct (Tree.find_below gid g) as [[q y] |] eqn:Hbelow.
    + intros [= <- <-]. eapply Hg. reflexivity.
    + apply IH.
Qed.

Lemma find_below_id gid g p x : Tree.find_below gid g = Some (p, x) -> Tree.id x = gid.
Proof.
  revert p x. induction g as [i rs cs IH] using RequestGroup_nested_ind.
  intros p x. cbn [Tree.find_below]. apply first_match_id, IH.
Qed.

Lemma find_id gid gs p x : Tree.find gid gs = Some (p, x) -> Tree.id x = gid.
Proof.
  unfold Tree.find. apply first_match_id.
  rewrite Forall_forall. intros g _ q y. apply find_below_id.
Qed.

Lemma update_group_fresh cursor upd g :
  cursor ∉ Tree.ids g -> Tree.update_group cursor upd g = g.
Proof.
  induction g as [i rs cs IH] using RequestGroup_nested_ind.
  cbn [Tree.ids Tree.update_group]. rewrite not_elem_of_cons. intros [Hne Hcs].
  destruct (String.eqb_spec i cursor) as [Heq | _]; [congruence |].
  f_equal. induction IH as [| c cs Hc _ IHcs]; [reflexivity |].
  cbn in Hcs. rewrite not_elem_of_app in Hcs. destruct Hcs as [Hc' Hcs'].
  cbn [map]. rewrite Hc by exact Hc'. f_equal. apply IHcs, Hcs'.
Qed.

Lemma update_forest_fresh cursor upd gs :
  cursor ∉ Tree.forest_ids gs -> map (Tree.update_group cursor upd) gs = gs.
Proof.
  induction gs as [| g gs IH]; [reflexivity |].
  rewrite forest_ids_cons, not_elem_of_app. intros [Hg Hgs].
  cbn [map]. rewrite update_group_fresh by exact Hg. f_equal. apply IH, Hgs.
Qed.

(** ** Tree builder: a push through the reference the walk returns *)

Section Modify.
Variable cursor : string.
Variable F : jsval -> jsval.
Variable upd : RequestGroup -> RequestGroup.

Lemma modify_first_match gs :
  Forall (modify_ok cursor F upd) gs ->
  forall pre p x,
    NoDup (Tree.forest_ids gs) ->
    Tree.first_match cursor (Tree.find_below cursor) (length pre) gs = Some (p, x) ->
    F (Tree.to_js x) = Tree.to_js (upd x) ->
    Rcoil.modify_at p F (JArr (map Tree.to_js (pre ++ gs)))
    = JArr (map Tree.to_js (pre ++ map (Tree.update_group cursor upd) gs)).
Proof.
  induction 1 as [| c cs Hc _ IH]; intros pre p x Hnd Hfind HF; [discriminate |].
  rewrite forest_ids_cons in Hnd. apply NoDup_app in Hnd as (Hndc & Hdisj & Hndcs).
  cbn [Tree.first_match] in Hfind.
  destruct (String.eqb_spec (Tree.id c) cursor) as [Heq | Hne].
  - injection Hfind as <- <-.
    assert (Hrest : map (Tree.update_group cursor upd) cs = cs).
    { apply update_forest_fresh, Hdisj. rewrite ids_group, Heq. apply list_elem_of_here. }
    cbn [map]. rewrite Hrest.
    assert (Hupd : Tree.update_group cursor upd c = upd c).
    { destruct c as [i rs cs']. cbn in Heq |- *. subst i. rewrite String.eqb_refl. reflexivity. }
    rewrite Hupd. cbn [Rcoil.modify_at]. f_equal.
    rewrite !map_app. cbn [map].
    replace (length pre) with (length (map Tree.to_js pre) + 0)
      by (rewrite length_map; lia).
    rewrite alter_app_r. cbn. rewrite HF. reflexivity.
  - destruct (Tree.find_below cursor c) as [[q y] |] eqn:Hbelow.
    + injection Hfind as <- <-.
      assert (Hin : cursor ∈ Tree.ids c).
      { rewrite ids_group. apply list_elem_of_further.
        destruct (decide (cursor ∈ Tree.forest_ids (Tree.children c))) as [Hin | Hnin];
          [exact Hin |]. apply find_below_none_iff in Hnin. congruence. }
      assert (Hrest : map (Tree.update_group cursor upd) cs = cs)
        by (apply update_forest_fresh, Hdisj, Hin).
      cbn [map]. rewrite Hrest. cbn [Rcoil.modify_at]. f_equal.
      rewrite !map_app. cbn [map].
      replace (length pre) with (length (map Tree.to_js pre) + 0)
        by (rewrite length_map; lia).
      rewrite alter_app_r. cbn [alter list_alter]. f_equal. f_equal.
      rewrite ids_group in Hndc. apply NoDup_cons in Hndc as [_ Hndc].
      specialize (Hc q y Hndc Hbelow HF).
      destruct c as [i rs cs']. cbn [Tree.children Tree.id] in *.
      cbn [Tree.update_group]. apply String.eqb_neq in Hne. rewrite Hne.
      cbn [Tree.to_js]. cbn [alter list_alter fst snd]. rewrite Hc. reflexivity.
    + assert (Hnin : cursor ∉ Tree.ids c).
      { rewrite ids_group, not_elem_of_cons. split; [congruence |].
        apply find_below_none_iff, Hbelow. }
      cbn [map]. rewrite update_group_fresh by exact Hnin.
      specialize (IH (pre ++ [c]) p x Hndcs).
      rewrite length_app, Nat.add_1_r in IH. specialize (IH Hfind HF).
      rewrite <- !app_assoc in IH. exact IH.
Qed.

Lemma modify_below g : modify_ok cursor F upd g.
Proof.
  induction g as [i rs cs IH] using RequestGroup_nested_ind.
  intros p x Hnd Hfind HF. cbn [Tree.children Tree.find_below] in *.
  apply (modify_first_match cs IH [] p x Hnd Hfind HF).
Qed.

(** A mutation [F] of the object the search returns for [cursor] shows
    in the encoded forest as the typed update [upd] of the group called
    [cursor]. *)
Lemma modify_found gs p x :
  NoDup (Tree.forest_ids gs) ->
  Tree.find cursor gs = Some (p, x) ->
  F (Tree.to_js x) = Tree.to_js (upd x) ->
  Rcoil.modify_at p F (JArr (map Tree.to_js gs))
  = JArr (map Tree.to_js (map (Tree.update_group cursor upd) gs)).
Proof.
  intros Hnd Hfind HF.
  apply (modify_first_match gs) with (pre := []) (x := x); try assumption.
  rewrite Forall_forall. intros g _. apply modify_below.
Qed.

End Modify.

Lemma push_into_children gs cursor pos count p x new :
  NoDup (Tree.forest_ids gs) ->
  Tree.find cursor gs = Some (p, x) ->
  Rcoil.push_into
    {| Rcoil.calls := map Tree.to_js gs; Rcoil._tmpPositionId := pos;
       Rcoil._totalRequestGroups := count |}
    p (Tree.to_js x) "children" (Tree.to_js new)
  = Some (map Tree.to_js (Tree.add_child cursor new gs)).
Proof.
  intros Hnd Hfind. unfold Rcoil.push_into, Tree.add_child.
  destruct x as [i rs cs] eqn:Hx. cbn [Tree.to_js JS.get JS.lookup_prop String.eqb Ascii.eqb Bool.eqb].
  cbn [Rcoil.calls]. rewrite <- Hx in Hfind.
  erewrite modify_found with (upd := Tree.push_child new); try eassumption; [reflexivity |].
  subst x. cbn. rewrite map_app. reflexivity.
Qed.

Lemma push_into_requests gs cursor pos count p x r :
  NoDup (Tree.forest_ids gs) ->
  Tree.find cursor gs = Some (p, x) ->
  Rcoil.push_into
    {| Rcoil.calls := map Tree.to_js gs; Rcoil._tmpPositionId := pos;
       Rcoil._totalRequestGroups := count |}
    p (Tree.to_js x) "requests" (Request.to_js r)
  = Some (map Tree.to_js (Tree.add_request cursor r gs)).
Proof.
  intros Hnd Hfind. unfold Rcoil.push_into, Tree.add_request.
  destruct x as [i rs cs] eqn:Hx. cbn [Tree.to_js JS.get JS.lookup_prop String.eqb Ascii.eqb Bool.eqb].
  cbn [Rcoil.calls]. rewrite <- Hx in Hfind.
  erewrite modify_found with (upd := Tree.push_request r); try eassumption; [reflexivity |].
  subst x. cbn. rewrite map_app. reflexivity.
Qed.

Lemma find_some_of_elem gid gs :
  gid ∈ Tree.forest_ids gs -> exists p x, Tree.find gid gs = Some (p, x) /\ Tree.id x = gid.
Proof.
  intros Hin. destruct (Tree.find gid gs) as [[p x] |] eqn:Hfind.
  - exists p, x. split; [reflexivity | eapply find_id, Hfind].
  - apply find_none_iff in Hfind. contradiction.
Qed.

(** ** Tree builder: the operations on a typed forest *)

Section Builder.
Variable gs : list RequestGroup.
Variable cursor : string.
Variable count : nat.
Hypothesis Hwf : Tree.well_formed gs.

Local Abbreviation this :=
  {| Rcoil.calls := map Tree.to_js gs; Rcoil._tmpPositionId := cursor;
     Rcoil._totalRequestGroups := count |}.

Lemma startGroup_duplicate groupId :
  groupId ∈ Tree.forest_ids gs ->
  Rcoil.startGroup groupId this
  = (this, Thrown (Error ("Request Group " +:+ groupId +:+ " already exists in your Symphony"))).
Proof.
  intros Hin. destruct Hwf as [_ Hq]. unfold Rcoil.startGroup. cbn [Rcoil.calls].
  rewrite findRequestGroup_typed by exact Hq.
  destruct (find_some_of_elem _ _ Hin) as (p & x & -> & _). reflexivity.
Qed.

Lemma startGroup_root groupId :
  groupId ∉ Tree.forest_ids gs ->
  cursor = "" ->
  Rcoil.startGroup groupId this
  = ({| Rcoil.calls := map Tree.to_js (gs ++ [Group groupId [] []]);
        Rcoil._tmpPositionId := groupId;
        Rcoil._totalRequestGroups := S count |}, Returned tt).
Proof.
  intros Hnin ->. destruct Hwf as [_ Hq]. unfold Rcoil.startGroup. cbn [Rcoil.calls].
  rewrite findRequestGroup_typed by exact Hq.
  apply find_none_iff in Hnin. rewrite Hnin. cbn. rewrite map_app. reflexivity.
Qed.

Lemma startGroup_child groupId :
  groupId ∉ Tree.forest_ids gs ->
  cursor <> "" ->
  cursor ∈ Tree.forest_ids gs ->
  Rcoil.startGroup groupId this
  = ({| Rcoil.calls := map Tree.to_js (Tree.add_child cursor (Group groupId [] []) gs);
        Rcoil._tmpPositionId := groupId;
        Rcoil._totalRequestGroups := S count |}, Returned tt).
Proof.
  intros Hnin Hne Hin. destruct Hwf as [Hnd Hq]. unfold Rcoil.startGroup.
  cbn [Rcoil.calls Rcoil._tmpPositionId Rcoil._totalRequestGroups].
  rewrite !findRequestGroup_typed by exact Hq.
  apply find_none_iff in Hnin. rewrite Hnin. cbn [typed_hit].
  apply String.eqb_neq in Hne. rewrite Hne. cbn [negb].
  destruct (find_some_of_elem _ _ Hin) as (p & x & Hfind & _). rewrite Hfind. cbn [typed_hit].
  change (Rcoil._createEmptyRequestGroup groupId) with (Tree.to_js (Group groupId [] [])).
  erewrite push_into_children by eassumption. reflexivity.
Qed.

Lemma startGroup_lost_cursor groupId :
  groupId ∉ Tree.forest_ids gs ->
  cursor <> "" ->
  cursor ∉ Tree.forest_ids gs ->
  Rcoil.startGroup groupId this = (this, Thrown TypeError).
Proof.
  intros Hnin Hne Hlost. destruct Hwf as [_ Hq]. unfold Rcoil.startGroup.
  cbn [Rcoil.calls Rcoil._tmpPositionId].
  rewrite !findRequestGroup_typed by exact Hq.
  apply find_none_iff in Hnin, Hlost. rewrite Hnin, Hlost. cbn [typed_hit].
  apply String.eqb_neq in Hne. rewrite Hne. reflexivity.
Qed.

Lemma addRequest_appends (r : Request.t) :
  cursor <> "" ->
  cursor ∈ Tree.forest_ids gs ->
  Rcoil.addRequest (Request.to_js r) this
  = ({| Rcoil.calls := map Tree.to_js (Tree.add_request cursor r gs);
        Rcoil._tmpPositionId := cursor;
        Rcoil._totalRequestGroups := count |}, Returned tt).
Proof.
  intros Hne Hin. destruct Hwf as [Hnd Hq]. unfold Rcoil.addRequest.
  cbn [Rcoil.calls Rcoil._tmpPositionId Rcoil._totalRequestGroups].
  apply String.eqb_neq in Hne. rewrite Hne.
  cbn [Rcoil.instanceof_Request Request.to_js negb].
  rewrite findRequestGroup_typed by exact Hq.
  destruct (find_some_of_elem _ _ Hin) as (p & x & Hfind & _). rewrite Hfind. cbn [typed_hit].
  change (JObj RequestObject _) with (Request.to_js r).
  erewrite push_into_requests by eassumption. reflexivity.
Qed.

Lemma addRequest_lost_cursor (r : Request.t) :
  cursor <> "" ->
  cursor ∉ Tree.forest_ids gs ->
  Rcoil.addRequest (Request.to_js r) this = (this, Thrown TypeError).
Proof.
  intros Hne Hlost. destruct Hwf as [_ Hq]. unfold Rcoil.addRequest.
  cbn [Rcoil.calls Rcoil._tmpPositionId].
  apply String.eqb_neq in Hne. rewrite Hne.
  cbn [Rcoil.instanceof_Request Request.to_js negb].
  rewrite findRequestGroup_typed by exact Hq.
  apply find_none_iff in Hlost. rewrite Hlost. reflexivity.
Qed.

End Builder.

Lemma addRequest_no_group (request : jsval) (this : Rcoil.t) :
  Rcoil._tmpPositionId this = "" ->
  Rcoil.addRequest request this
  = (this, Thrown (Error "Cannot add requests without starting a group first")).
Proof. intros Hc. unfold Rcoil.addRequest. rewrite Hc. reflexivity. Qed.

Lemma addRequest_invalid (request : jsval) (this : Rcoil.t) :
  Rcoil._tmpPositionId this <> "" ->
  Rcoil.instanceof_Request request = false ->
  Rcoil.addRequest request this = (this, Thrown (Error "Invalid Request object")).
Proof.
  intros Hc Hbad. unfold Rcoil.addRequest.
  apply String.eqb_neq in Hc. rewrite Hc, Hbad. reflexivity.
Qed.

(** ** Tree builder: ids, sizes and quietness under the updates *)

Lemma forest_ids_app gs hs : Tree.forest_ids (gs ++ hs) = Tree.forest_ids gs ++ Tree.forest_ids hs.
Proof. unfold Tree.forest_ids. rewrite map_app, concat_app. reflexivity. Qed.

Lemma forest_size_cons g gs : Tree.forest_size (g :: gs) = Tree.size g + Tree.forest_size gs.
Proof. reflexivity. Qed.

Lemma forest_size_app gs hs : Tree.forest_size (gs ++ hs) = Tree.forest_size gs + Tree.forest_size hs.
Proof. unfold Tree.forest_size. rewrite map_app, list_sum_app. reflexivity. Qed.

Lemma size_group g : Tree.size g = S (Tree.forest_size (Tree.children g)).
Proof. destruct g; reflexivity. Qed.

Lemma all_quiet_group i rs cs :
  forallb Tree.quiet rs = true -> forallb Tree.all_quiet cs = true ->
  Tree.all_quiet (Group i rs cs) = true.
Proof.
  intros Hrs Hcs. cbn. rewrite Hrs. cbn.
  induction cs as [| c cs IH]; [reflexivity |].
  cbn in Hcs. apply andb_prop in Hcs as [Hc Hcs]. rewrite Hc. apply IH, Hcs.
Qed.

Section ChildUpdate.
Variable cursor : string.
Variable gid : string.

Local Abbreviation update := (Tree.update_group cursor (Tree.push_child (Group gid [] []))).

Lemma add_child_forest gs :
  Forall (fun g => NoDup (Tree.ids g) -> cursor ∈ Tree.ids g ->
                   Tree.ids (update g) ≡ₚ gid :: Tree.ids g
                   /\ Tree.size (update g) = S (Tree.size g)) gs ->
  NoDup (Tree.forest_ids gs) -> cursor ∈ Tree.forest_ids gs ->
  Tree.forest_ids (map update gs) ≡ₚ gid :: Tree.forest_ids gs
  /\ Tree.forest_size (map update gs) = S (Tree.forest_size gs).
Proof.
  induction 1 as [| c cs Hc _ IH]; intros Hnd Hin.
  - cbn in Hin. apply elem_of_nil in Hin. contradiction.
  - rewrite forest_ids_cons in Hnd, Hin. apply NoDup_app in Hnd as (Hndc & Hdisj & Hndcs).
    cbn [map]. rewrite !forest_ids_cons, !forest_size_cons.
    destruct (decide (cursor ∈ Tree.ids c)) as [Hinc | Hninc].
    + destruct (Hc Hndc Hinc) as [Hperm Hsize].
      rewrite update_forest_fresh by (apply Hdisj, Hinc).
      split; [exact (Permutation_app_tail _ Hperm) | lia].
    + apply elem_of_app in Hin as [Hin | Hin]; [contradiction |].
      destruct (IH Hndcs Hin) as [Hperm Hsize].
      rewrite update_group_fresh by exact Hninc.
      split; [| lia].
      etransitivity; [exact (Permutation_app_head _ Hperm) |].
      symmetry. apply Permutation_middle.
Qed.

Lemma add_child_group g :
  NoDup (Tree.ids g) -> cursor ∈ Tree.ids g ->
  Tree.ids (update g) ≡ₚ gid :: Tree.ids g /\ Tree.size (update g) = S (Tree.size g).
Proof.
  induction g as [i rs cs IH] using RequestGroup_nested_ind. intros Hnd Hin.
  cbn [Tree.update_group].
  destruct (String.eqb_spec i cursor) as [Heq | Hne].
  - unfold Tree.push_child. cbn [Tree.id Tree.requests Tree.children Tree.ids Tree.size].
    fold (Tree.forest_ids (cs ++ [Group gid [] []])).
    fold (Tree.forest_size (cs ++ [Group gid [] []])).
    rewrite forest_ids_app, forest_size_app. fold (Tree.forest_ids cs). fold (Tree.forest_size cs).
    cbn. split; [| lia].
    rewrite (Permutation_app_comm (Tree.forest_ids cs) [gid]). cbn. apply perm_swap.
  - cbn [Tree.ids Tree.size] in *.
    fold (Tree.forest_ids cs) in *. fold (Tree.forest_size cs).
    fold (Tree.forest_ids (map (Tree.update_group cursor (Tree.push_child (Group gid [] []))) cs)).
    fold (Tree.forest_size (map (Tree.update_group cursor (Tree.push_child (Group gid [] []))) cs)).
    apply NoDup_cons in Hnd as [_ Hnd].
    apply elem_of_cons in Hin as [Hin | Hin]; [congruence |].
    destruct (add_child_forest cs IH Hnd Hin) as [Hperm Hsize].
    rewrite Hperm, Hsize. split; [apply perm_swap | reflexivity].
Qed.

Lemma add_child_ids gs :
  NoDup (Tree.forest_ids gs) -> cursor ∈ Tree.forest_ids gs ->
  Tree.forest_ids (Tree.add_child cursor (Group gid [] []) gs) ≡ₚ gid :: Tree.forest_ids gs
  /\ Tree.forest_size (Tree.add_child cursor (Group gid [] []) gs) = S (Tree.forest_size gs).
Proof.
  intros Hnd Hin. apply add_child_forest; try assumption.
  rewrite Forall_forall. intros g _. apply add_child_group.
Qed.

Lemma add_child_quiet g : Tree.all_quiet g = true -> Tree.all_quiet (update g) = true.
Proof.
  induction g as [i rs cs IH] using RequestGroup_nested_ind. intros Hq.
  apply all_quiet_children in Hq as [Hrs Hcs].
  cbn [Tree.update_group].
  destruct (String.eqb i cursor).
  - apply all_quiet_group; [exact Hrs |].
    cbn [Tree.children]. rewrite forallb_app, Hcs. reflexivity.
  - apply all_quiet_group; [exact Hrs |].
    rewrite forallb_forall in Hcs |- *. intros c' Hc'.
    apply in_map_iff in Hc' as (c & <- & Hc).
    rewrite Forall_forall in IH. apply IH; [apply list_elem_of_In, Hc | apply Hcs, Hc].
Qed.

End ChildUpdate.

Section RequestUpdate.
Variable cursor : string.
Variable r : Request.t.

Local Abbreviation update := (Tree.update_group cursor (Tree.push_request r)).

Lemma add_request_group g :
  Tree.ids (update g) = Tree.ids g /\ Tree.size (update g) = Tree.size g
  /\ (Tree.quiet r = true -> Tree.all_quiet g = true -> Tree.all_quiet (update g) = true).
Proof.
  induction g as [i rs cs IH] using RequestGroup_nested_ind.
  cbn [Tree.update_group].
  destruct (String.eqb i cursor).
  - split; [reflexivity | split; [reflexivity |]]. intros Hr Hq.
    apply all_quiet_children in Hq as [Hrs Hcs].
    apply all_quiet_group; [| exact Hcs].
    cbn [Tree.requests]. rewrite forallb_app, Hrs. cbn. rewrite Hr. reflexivity.
  - assert (Hids : map Tree.ids (map (Tree.update_group cursor (Tree.push_request r)) cs)
                   = map Tree.ids cs).
    { induction IH as [| c cs' Hc _ IHcs]; [reflexivity |].
      cbn [map]. destruct Hc as [-> _]. rewrite IHcs. reflexivity. }
    assert (Hsizes : map Tree.size (map (Tree.update_group cursor (Tree.push_request r)) cs)
                     = map Tree.size cs).
    { clear Hids. induction IH as [| c cs' Hc _ IHcs]; [reflexivity |].
      cbn [map]. destruct Hc as (_ & -> & _). rewrite IHcs. reflexivity. }
    cbn [Tree.ids Tree.size]. rewrite Hids, Hsizes.
    split; [reflexivity | split; [reflexivity |]]. intros Hr Hq.
    apply all_quiet_children in Hq as [Hrs Hcs].
    apply all_quiet_group; [exact Hrs |].
    rewrite forallb_forall in Hcs |- *. intros c' Hc'.
    apply in_map_iff in Hc' as (c & <- & Hc).
    rewrite Forall_forall in IH. apply IH; [apply list_elem_of_In, Hc | exact Hr | apply Hcs, Hc].
Qed.

Lemma add_request_forest gs :
  Tree.forest_ids (Tree.add_request cursor r gs) = Tree.forest_ids gs
  /\ Tree.forest_size (Tree.add_request cursor r gs) = Tree.forest_size gs
  /\ (Tree.quiet r = true -> forallb Tree.all_quiet gs = true ->
      forallb Tree.all_quiet (Tree.add_request cursor r gs) = true).
Proof.
  unfold Tree.add_request. induction gs as [| g gs (IHids & IHsize & IHq)].
  - repeat split; reflexivity.
  - cbn [map]. rewrite !forest_ids_cons, !forest_size_cons.
    destruct (add_request_group g) as (Hids & Hsize & Hq).
    rewrite Hids, Hsize. rewrite IHids, IHsize.
    split; [reflexivity | split; [reflexivity |]]. intros Hr Hall.
    cbn [forallb] in *. apply andb_prop in Hall as [Hg Hgs].
    rewrite (Hq Hr Hg). cbn. apply IHq; assumption.
Qed.

End RequestUpdate.

(** ** Tree builder: every built coil is a typed forest *)

Lemma forallb_add_child_quiet cursor gid gs :
  forallb Tree.all_quiet gs = true ->
  forallb Tree.all_quiet (Tree.add_child cursor (Group gid [] []) gs) = true.
Proof.
  unfold Tree.add_child. rewrite !forallb_forall. intros Hq g' Hg'.
  apply in_map_iff in Hg' as (g & <- & Hg). apply add_child_quiet, Hq, Hg.
Qed.

(** A built coil is the encoding of a well-formed forest, and its group
    counter is the number of groups of that forest. *)
Lemma built_typed this :
  built this ->
  exists gs,
    Rcoil.calls this = map Tree.to_js gs
    /\ Tree.well_formed gs
    /\ Rcoil.requestGroupsCount this = Tree.forest_size gs.
Proof.
  induction 1 as [| this gid this' _ (gs & Hcalls & Hwf & Hcount) Hstart
                  | this gid _ (gs & Hcalls & Hwf & Hcount)
                  | this r this' _ (gs & Hcalls & Hwf & Hcount) Hr Hadd
                  | this _ (gs & Hcalls & Hwf & Hcount)].
  - exists []. repeat split; try reflexivity. constructor.
  - destruct this as [calls cursor count]. cbn in Hcalls, Hcount. subst calls count.
    destruct (decide (gid ∈ Tree.forest_ids gs)) as [Hin | Hnin].
    { rewrite (startGroup_duplicate gs cursor _ Hwf gid Hin) in Hstart. discriminate. }
    destruct (decide (cursor = "")) as [Hroot | Hne].
    { rewrite (startGroup_root gs cursor _ Hwf gid Hnin Hroot) in Hstart.
      injection Hstart as <-. exists (gs ++ [Group gid [] []]).
      destruct Hwf as [Hnd Hq]. repeat split.
      - rewrite forest_ids_app. cbn. apply NoDup_app. repeat split; [exact Hnd | | ].
        + intros x Hx Hx'. apply list_elem_of_singleton in Hx'. subst x. contradiction.
        + apply NoDup_singleton.
      - rewrite forallb_app, Hq. reflexivity.
      - cbn. rewrite forest_size_app. cbn. lia. }
    destruct (decide (cursor ∈ Tree.forest_ids gs)) as [Hcur | Hlost].
    + rewrite (startGroup_child gs cursor _ Hwf gid Hnin Hne Hcur) in Hstart.
      injection Hstart as <-. exists (Tree.add_child cursor (Group gid [] []) gs).
      destruct Hwf as [Hnd Hq].
      destruct (add_child_ids cursor gid gs Hnd Hcur) as [Hperm Hsize].
      repeat split.
      * rewrite Hperm. apply NoDup_cons. split; assumption.
      * apply forallb_add_child_quiet, Hq.
      * cbn. rewrite Hsize. reflexivity.
    + rewrite (startGroup_lost_cursor gs cursor _ Hwf gid Hnin Hne Hlost) in Hstart.
      discriminate.
  - exists gs. repeat split; try apply Hwf; assumption.
  - destruct this as [calls cursor count]. cbn in Hcalls, Hcount. subst calls count.
    destruct (decide (cursor = "")) as [Hroot | Hne].
    { rewrite addRequest_no_group in Hadd by exact Hroot. discriminate. }
    destruct (decide (cursor ∈ Tree.forest_ids gs)) as [Hcur | Hlost].
    + rewrite (addRequest_appends gs cursor _ Hwf r Hne Hcur) in Hadd.
      injection Hadd as <-. exists (Tree.add_request cursor r gs).
      destruct Hwf as [Hnd Hq].
      destruct (add_request_forest cursor r gs) as (Hids & Hsize & Hquiet).
      repeat split.
      * rewrite Hids. exact Hnd.
      * apply Hquiet; assumption.
      * cbn. rewrite Hsize. reflexivity.
    + rewrite (addRequest_lost_cursor gs cursor _ Hwf r Hne Hlost) in Hadd. discriminate.
  - exists gs. repeat split; try apply Hwf; assumption.
Qed.

(** ** Tree builder: the operations, as specified *)

(** C3. On the encoding of a well-formed forest (groups whose ids
    differ, no request carrying an id), at any cursor and counter:
    [startGroup(id)] for an id the forest has throws the
    configuration error and leaves calls, cursor and counter as they
    were.  For an id the forest does not have: with an empty cursor the
    new empty group becomes the last root; with a cursor that names a
    group of the forest it becomes the last child of that group; in both
    cases the cursor becomes [id] and the counter grows by one.  With a
    cursor that names no group the call throws a [TypeError] and changes
    nothing. *)
Theorem C3_startGroup (gs : list RequestGroup) (cursor : string) (count : nat)
    (groupId : string) :
  Tree.well_formed gs ->
  let this := {| Rcoil.calls := map Tree.to_js gs; Rcoil._tmpPositionId := cursor;
                 Rcoil._totalRequestGroups := count |} in
  (groupId ∈ Tree.forest_ids gs ->
     Rcoil.startGroup groupId this
     = (this, Thrown (Error ("Request Group " +:+ groupId +:+ " already exists in your Symphony"))))
  /\ (groupId ∉ Tree.forest_ids gs -> cursor = "" ->
        Rcoil.startGroup groupId this
        = ({| Rcoil.calls := map Tree.to_js (gs ++ [Group groupId [] []]);
              Rcoil._tmpPositionId := groupId;
              Rcoil._totalRequestGroups := S count |}, Returned tt))
  /\ (groupId ∉ Tree.forest_ids gs -> cursor <> "" -> cursor ∈ Tree.forest_ids gs ->
        Rcoil.startGroup groupId this
        = ({| Rcoil.calls := map Tree.to_js (Tree.add_child cursor (Group groupId [] []) gs);
              Rcoil._tmpPositionId := groupId;
              Rcoil._totalRequestGroups := S count |}, Returned tt))
  /\ (groupId ∉ Tree.forest_ids gs -> cursor <> "" -> cursor ∉ Tree.forest_ids gs ->
        Rcoil.startGroup groupId this = (this, Thrown TypeError)).
Proof.
  intros Hwf this. split; [| split; [| split]].
  - apply startGroup_duplicate, Hwf.
  - apply startGroup_root, Hwf.
  - apply startGroup_child, Hwf.
  - apply startGroup_lost_cursor, Hwf.
Qed.

Lemma C3_startGroup_witness :
  Rcoil.startGroup "group3" Fixture.on_group1
  = ({| Rcoil.calls :=
          map Tree.to_js [Group "group1" [] [Group "group2" [] []; Group "group3" [] []]];
        Rcoil._tmpPositionId := "group3";
        Rcoil._totalRequestGroups := 3 |}, Returned tt)
  /\ Rcoil.startGroup "group2" Fixture.on_group1
     = (Fixture.on_group1,
        Thrown (Error "Request Group group2 already exists in your Symphony")).
Proof.
  assert (Hwf : Tree.well_formed Fixture.two_groups).
  { split; [| reflexivity]. apply (bool_decide_unpack _). vm_compute. exact I. }
  split.
  - destruct (C3_startGroup Fixture.two_groups "group1" 2 "group3" Hwf) as (_ & _ & Hchild & _).
    apply Hchild.
    + apply (bool_decide_unpack _). vm_compute. exact I.
    + discriminate.
    + apply (bool_decide_unpack _). vm_compute. exact I.
  - destruct (C3_startGroup Fixture.two_groups "group1" 2 "group2" Hwf) as (Hdup & _).
    apply Hdup. apply (bool_decide_unpack _). vm_compute. exact I.
Defined.

(** C3, as stated for every tree built so far, fails.
    After [startGroup("first")] and [afterGroup("second")], the id
    ["third"] is not in the tree, yet [startGroup("third")] throws and
    adds no group.  On [Fixture.shadowed] the cursor names the group
    [group2] and ["group3"] is not in the tree, yet [startGroup("group3")]
    throws a [TypeError]: the walk returns the configuration object of
    the request [shadow], which has no [children].  On [Fixture.on_bag]
    the cursor names no group, and [startGroup("group2")] returns: the
    new group goes into the configuration object of the request [bag],
    the tree has the one group it had, and the counter is 2. *)
Lemma C3_startGroup_counterexample :
  (Rcoil._findRequestGroup (JArr (Rcoil.calls Fixture.lost_cursor)) "third" = None
   /\ Rcoil.startGroup "third" Fixture.lost_cursor = (Fixture.lost_cursor, Thrown TypeError))
  /\ (Rcoil.calls Fixture.shadowed
      = map Tree.to_js [Group "group1" [Fixture.shadow] [Group "group2" [] []]]
      /\ Rcoil._tmpPositionId Fixture.shadowed = "group2"
      /\ Rcoil._findRequestGroup (JArr (Rcoil.calls Fixture.shadowed)) "group3" = None
      /\ Rcoil.startGroup "group3" Fixture.shadowed = (Fixture.shadowed, Thrown TypeError))
  /\ (Rcoil.calls Fixture.on_bag = map Tree.to_js [Group "group1" [Fixture.bag [] []] []]
      /\ Rcoil._tmpPositionId Fixture.on_bag = "ghost"
      /\ Rcoil.startGroup "group2" Fixture.on_bag
         = ({| Rcoil.calls := map Tree.to_js (coil_calls Fixture.bag_coil);
               Rcoil._tmpPositionId := "group2";
               Rcoil._totalRequestGroups := 2 |}, Returned tt)
      /\ Tree.forest_ids (coil_calls Fixture.bag_coil) = ["group1"]).
Proof. vm_compute. repeat split; reflexivity. Qed.

(** C7. [addRequest(request)] with an empty cursor throws the
    configuration error "Cannot add requests without starting a group
    first"; with a cursor and a [request] that is not a [Request] it
    throws "Invalid Request object"; both leave the coil as it was.  On
    the encoding of a well-formed forest (groups whose ids differ, no
    request carrying an id), with a cursor that names a group of the
    forest, it appends a [Request] to the requests of that group. *)
Theorem C7_addRequest :
  (forall this request,
      Rcoil._tmpPositionId this = "" ->
      Rcoil.addRequest request this
      = (this, Thrown (Error "Cannot add requests without starting a group first")))
  /\ (forall this request,
        Rcoil._tmpPositionId this <> "" ->
        Rcoil.instanceof_Request request = false ->
        Rcoil.addRequest request this = (this, Thrown (Error "Invalid Request object")))
  /\ (forall gs cursor count (r : Request.t),
        Tree.well_formed gs -> cursor <> "" -> cursor ∈ Tree.forest_ids gs ->
        Rcoil.addRequest (Request.to_js r)
          {| Rcoil.calls := map Tree.to_js gs; Rcoil._tmpPositionId := cursor;
             Rcoil._totalRequestGroups := count |}
        = ({| Rcoil.calls := map Tree.to_js (Tree.add_request cursor r gs);
              Rcoil._tmpPositionId := cursor;
              Rcoil._totalRequestGroups := count |}, Returned tt)).
Proof.
  split; [| split].
  - intros. apply addRequest_no_group. assumption.
  - intros. apply addRequest_invalid; assumption.
  - intros gs cursor count r Hwf Hne Hin. apply addRequest_appends; assumption.
Qed.

Lemma C7_addRequest_witness :
  Rcoil.addRequest (Request.to_js (Request.new "test")) Rcoil.new
  = (Rcoil.new, Thrown (Error "Cannot add requests without starting a group first"))
  /\ Rcoil.addRequest (JObj PlainObject [("hello", JStr "World")])
       (fst (Rcoil.startGroup "testGroup" Rcoil.new))
     = (fst (Rcoil.startGroup "testGroup" Rcoil.new), Thrown (Error "Invalid Request object"))
  /\ Rcoil.addRequest (Request.to_js (Request.new "test"))
       {| Rcoil.calls := map Tree.to_js [Group "testGroup" [] []];
          Rcoil._tmpPositionId := "testGroup"; Rcoil._totalRequestGroups := 1 |}
     = ({| Rcoil.calls := map Tree.to_js [Group "testGroup" [Request.new "test"] []];
           Rcoil._tmpPositionId := "testGroup"; Rcoil._totalRequestGroups := 1 |},
        Returned tt).
Proof.
  destruct C7_addRequest as (Hempty & Hinvalid & Happend).
  split; [| split].
  - apply Hempty. reflexivity.
  - apply Hinvalid; [discriminate | reflexivity].
  - apply (Happend [Group "testGroup" [] []] "testGroup" 1 (Request.new "test")).
    + split; [| reflexivity]. apply (bool_decide_unpack _). vm_compute. exact I.
    + discriminate.
    + apply (bool_decide_unpack _). vm_compute. exact I.
Defined.

(** C7, as stated, fails.  On a fresh coil after
    [afterGroup("ghost")] the cursor is not empty and the argument is a
    [Request], yet [addRequest] appends nothing and throws.  And on
    [Fixture.shadowed] the cursor names the group [group2] of the tree,
    yet [addRequest] of a [Request] throws a [TypeError] and appends
    nothing: the walk returns the configuration object of the request
    [shadow], which has no [requests]. *)
Lemma C7_addRequest_counterexample :
  Rcoil._tmpPositionId Fixture.ghost_cursor <> ""
  /\ Rcoil.instanceof_Request (Request.to_js (Request.new "test")) = true
  /\ Rcoil.addRequest (Request.to_js (Request.new "test")) Fixture.ghost_cursor
     = (Fixture.ghost_cursor, Thrown TypeError)
  /\ Rcoil.calls Fixture.shadowed
     = map Tree.to_js [Group "group1" [Fixture.shadow] [Group "group2" [] []]]
  /\ Rcoil._tmpPositionId Fixture.shadowed = "group2"
  /\ Rcoil.addRequest (Request.to_js (Request.new "test")) Fixture.shadowed
     = (Fixture.shadowed, Thrown TypeError).
Proof. repeat split. discriminate. Qed.

(** C9. [afterGroup(id)] sets the cursor to [id] whatever the tree
    holds and changes nothing else; on the encoding of a well-formed
    forest (groups whose ids differ, no request carrying an id) with a
    cursor that names no group, [addRequest] of a [Request] throws a
    [TypeError] and leaves calls, cursor and counter as they were. *)
Theorem C9_afterGroup_unchecked :
  (forall this groupId,
      Rcoil.afterGroup groupId this
      = {| Rcoil.calls := Rcoil.calls this; Rcoil._tmpPositionId := groupId;
           Rcoil._totalRequestGroups := Rcoil._totalRequestGroups this |})
  /\ (forall gs groupId count (r : Request.t),
        Tree.well_formed gs -> groupId <> "" -> groupId ∉ Tree.forest_ids gs ->
        let this := {| Rcoil.calls := map Tree.to_js gs; Rcoil._tmpPositionId := groupId;
                       Rcoil._totalRequestGroups := count |} in
        Rcoil.addRequest (Request.to_js r) this = (this, Thrown TypeError)).
Proof.
  split; [reflexivity |].
  intros gs groupId count r Hwf Hne Hlost this. apply addRequest_lost_cursor; assumption.
Qed.

Lemma C9_afterGroup_unchecked_witness :
  Rcoil.addRequest (Request.to_js (Request.new "test"))
    {| Rcoil.calls := map Tree.to_js [Group "testGroup" [] []];
       Rcoil._tmpPositionId := "missing"; Rcoil._totalRequestGroups := 1 |}
  = ({| Rcoil.calls := map Tree.to_js [Group "testGroup" [] []];
        Rcoil._tmpPositionId := "missing"; Rcoil._totalRequestGroups := 1 |},
     Thrown TypeError).
Proof.
  destruct C9_afterGroup_unchecked as [_ Hlost].
  apply (Hlost [Group "testGroup" [] []] "missing" 1 (Request.new "test")).
  - split; [| reflexivity]. apply (bool_decide_unpack _). vm_compute. exact I.
  - discriminate.
  - apply (bool_decide_unpack _). vm_compute. exact I.
Defined.

(** C9, as stated, fails: after [startGroup("testGroup")] and
    [afterGroup("missing")], [addRequest]
    does not go through silently: it throws, and no request is stored
    anywhere. *)
Lemma C9_afterGroup_unchecked_counterexample :
  snd (Rcoil.addRequest (Request.to_js (Request.new "test")) Fixture.missing_cursor)
  = Thrown TypeError
  /\ Rcoil.calls
       (fst (Rcoil.addRequest (Request.to_js (Request.new "test")) Fixture.missing_cursor))
     = Rcoil.calls Fixture.missing_cursor.
Proof. split; reflexivity. Qed.

(** What the forests of C9 leave out.  On [Fixture.on_bag] the cursor
    names no group, the configuration object of the request [bag]
    carries that id and a [requests] array, and [addRequest] returns:
    the request goes into that array. *)
Lemma addRequest_into_configuration :
  Rcoil.addRequest (Request.to_js (Request.new "test")) Fixture.on_bag
  = ({| Rcoil.calls :=
          map Tree.to_js
            [Group "group1" [Fixture.bag [Request.to_js (Request.new "test")] []] []];
        Rcoil._tmpPositionId := "ghost"; Rcoil._totalRequestGroups := 1 |}, Returned tt).
Proof. reflexivity. Qed.

(** C10. On the encoding of a well-formed forest (ids that differ, no
    request carrying an id) with a cursor that names a group of the
    forest, [addRequest] of a [Request] returns and appends it, whatever
    names the requests of that group have; and for a group id and a
    request name that [Object.prototype] does not hold, on a context
    reached from a fresh one by calls that wrote data under such ids and
    names only, a second [setRequestData] or [setResponseData] under the
    same [(groupId, name)] replaces what the first stored. *)
Theorem C10_request_names_not_unique {Req Res : Type} :
  (forall gs cursor count (r : Request.t),
      Tree.well_formed gs -> cursor <> "" -> cursor ∈ Tree.forest_ids gs ->
      Rcoil.addRequest (Request.to_js r)
        {| Rcoil.calls := map Tree.to_js gs; Rcoil._tmpPositionId := cursor;
           Rcoil._totalRequestGroups := count |}
      = ({| Rcoil.calls := map Tree.to_js (Tree.add_request cursor r gs);
            Rcoil._tmpPositionId := cursor;
            Rcoil._totalRequestGroups := count |}, Returned tt))
  /\ (forall (ops : list (context_op Req Res)) groupId name (first second : Req),
        forallb plain_keys ops = true ->
        JS.plain groupId = true -> JS.plain name = true ->
        ExecutionContext.requestData groupId name
          (ExecutionContext.setRequestData groupId name second
             (ExecutionContext.setRequestData groupId name first (after_ops ops)))
        = Some (ExecutionContext.Stored second))
  /\ (forall (ops : list (context_op Req Res)) groupId name (first second : Res),
        forallb plain_keys ops = true ->
        JS.plain groupId = true -> JS.plain name = true ->
        ExecutionContext.responseData groupId name
          (ExecutionContext.setResponseData groupId name second
             (ExecutionContext.setResponseData groupId name first (after_ops ops)))
        = Some (ExecutionContext.Stored second)).
Proof.
  split; [| split].
  - intros gs cursor count r Hwf Hne Hin. apply addRequest_appends; assumption.
  - intros ops g n first second Hops Hg Hn.
    rewrite requestData_set
      by (try apply setRequestData_tracked; try apply after_ops_tracked; assumption).
    rewrite decide_True by done. reflexivity.
  - intros ops g n first second Hops Hg Hn.
    rewrite responseData_set
      by (try apply setResponseData_tracked; try apply after_ops_tracked; assumption).
    rewrite decide_True by done. reflexivity.
Qed.

Lemma C10_request_names_not_unique_witness :
  Rcoil.addRequest (Request.to_js Fixture.same2)
    {| Rcoil.calls := map Tree.to_js [Group "group1" [Fixture.same1] []];
       Rcoil._tmpPositionId := "group1"; Rcoil._totalRequestGroups := 1 |}
  = ({| Rcoil.calls := map Tree.to_js [Group "group1" [Fixture.same1; Fixture.same2] []];
        Rcoil._tmpPositionId := "group1"; Rcoil._totalRequestGroups := 1 |}, Returned tt)
  /\ Request.name Fixture.same1 = Request.name Fixture.same2
  /\ ExecutionContext.requestData "group1" "same"
       (ExecutionContext.setRequestData "group1" "same" 2
          (ExecutionContext.setRequestData "group1" "same" 1
             (@after_ops nat nat [SetResponseData "group1" "same" 0])))
     = Some (ExecutionContext.Stored 2).
Proof.
  destruct (@C10_request_names_not_unique nat nat) as (Happend & Hreq & _).
  split; [| split; [reflexivity |]].
  - apply (Happend [Group "group1" [Fixture.same1] []] "group1" 1 Fixture.same2).
    + split; [| reflexivity]. apply (bool_decide_unpack _). vm_compute. exact I.
    + discriminate.
    + apply (bool_decide_unpack _). vm_compute. exact I.
  - apply Hreq; reflexivity.
Defined.

(** C10, as stated for every group at the cursor and every pair of
    keys, fails.  On [Fixture.shadowed] the cursor
    names the group [group2] of the tree, and [addRequest] of a
    [Request] throws a [TypeError]: the walk returns the configuration
    object of the request [shadow], which has no [requests].  And under
    [("constructor", "name")] a second write replaces nothing: neither
    write stores a record. *)
Lemma C10_request_names_not_unique_counterexample :
  Rcoil.calls Fixture.shadowed
  = map Tree.to_js [Group "group1" [Fixture.shadow] [Group "group2" [] []]]
  /\ Rcoil._tmpPositionId Fixture.shadowed = "group2"
  /\ Rcoil.addRequest (Request.to_js Fixture.same1) Fixture.shadowed
     = (Fixture.shadowed, Thrown TypeError)
  /\ ExecutionContext.requestData "constructor" "name"
       (ExecutionContext.setRequestData "constructor" "name" 2
          (ExecutionContext.setRequestData "constructor" "name" 1
             (@ExecutionContext.new nat nat)))
     = Some ExecutionContext.Inherited
  /\ ExecutionContext.responseData "constructor" "name"
       (ExecutionContext.setResponseData "constructor" "name" 2
          (ExecutionContext.setResponseData "constructor" "name" 1
             (@ExecutionContext.new nat nat)))
     = Some ExecutionContext.Inherited.
Proof. vm_compute. repeat split; reflexivity. Qed.

(** ** Execution director: runs *)

Section DirectorFacts.
Import ExecutionDirector.

Lemma callback_calls_emit e d :
  callback_calls (emit e d) = callback_calls d + (if is_endCallback e then 1 else 0).
Proof.
  unfold callback_calls. cbn. rewrite List.filter_app, length_app. cbn.
  destruct (is_endCallback e); reflexivity.
Qed.

Lemma book_requestGroupStarted g d : book (_requestGroupStarted g d) = book d.
Proof.
  unfold book, _requestGroupStarted. rewrite callback_calls_emit. cbn.
  rewrite Nat.add_0_r. reflexivity.
Qed.

Lemma book_requestStarted now g r o input d :
  book (_requestStarted now g r o input d) = book d.
Proof.
  unfold book, _requestStarted. rewrite callback_calls_emit. cbn.
  rewrite Nat.add_0_r. reflexivity.
Qed.

Lemma book_requestCanceled now g r d : book (_requestCanceled now g r d) = book d.
Proof.
  unfold book, _requestCanceled. rewrite callback_calls_emit. cbn.
  rewrite Nat.add_0_r. reflexivity.
Qed.

Lemma book_requestDone now g r resp output d :
  book (fst (_requestDone now g r resp output d)) = book d.
Proof.
  unfold _requestDone.
  set (d' := emit _ _).
  assert (Hd' : book d' = book d).
  { unfold d', book. rewrite callback_calls_emit. cbn. rewrite Nat.add_0_r. reflexivity. }
  destruct (debug d'); [| exact Hd'].
  destruct (ExecutionContext.requestData _ _ _) as [[| |] |]; exact Hd'.
Qed.

Lemma fold_player_start cs w :
  let w' := fold_left (fun w c => player_start c w) cs w in
  players w' = players w ++ map new_player cs
  /\ book (director w') = book (director w)
  /\ transport w' = transport w.
Proof.
  revert w. induction cs as [| c cs IH]; intros w; cbn.
  - rewrite app_nil_r. repeat split.
  - destruct (IH (player_start c w)) as (Hp & Hb & Ht).
    rewrite Hp, Hb, Ht. cbn. rewrite book_requestGroupStarted, <- app_assoc.
    repeat split.
Qed.

Lemma list_sum_cons x l : list_sum (x :: l) = x + list_sum l.
Proof. reflexivity. Qed.

Lemma pending_app ps qs :
  list_sum (map weight (ps ++ qs)) = list_sum (map weight ps) + list_sum (map weight qs).
Proof. rewrite map_app, list_sum_app. reflexivity. Qed.

Lemma pending_new_players cs :
  list_sum (map weight (map new_player cs)) = Tree.forest_size cs.
Proof.
  unfold Tree.forest_size. induction cs as [| c cs IH]; [reflexivity |].
  cbn [map]. rewrite !list_sum_cons, IH. reflexivity.
Qed.

Lemma measure_new_players cs :
  list_sum (map player_measure (map new_player cs)) = forest_potential cs.
Proof.
  unfold forest_potential. induction cs as [| c cs IH]; [reflexivity |].
  cbn [map]. rewrite !list_sum_cons, IH. f_equal.
  destruct c as [i rs cs']. unfold player_measure, new_player.
  cbn [pl_done pl_runners pl_group Tree.requests Tree.children potential].
  fold (forest_potential cs'). f_equal. f_equal.
  clear. induction rs as [| r rs IH]; [reflexivity |].
  cbn [map length]. rewrite list_sum_cons, IH. cbn [runner_weight].
  lia.
Qed.

Lemma list_sum_alter {A : Type} (m : A -> nat) (f : A -> A) (l : list A) i x :
  l !! i = Some x ->
  list_sum (map m (alter f i l)) + m x = list_sum (map m l) + m (f x).
Proof.
  revert i. induction l as [| y l IH]; intros [| i] Hi; try discriminate.
  - injection Hi as ->. cbn [alter list_alter map]. rewrite !list_sum_cons. lia.
  - cbn in Hi. specialize (IH i Hi).
    cbn [alter list_alter map]. rewrite !list_sum_cons.
    change (list_alter f i l) with (alter f i l). lia.
Qed.

Lemma size_positive g : 0 < Tree.size g.
Proof. destruct g; cbn; lia. Qed.

Lemma forest_size_zero cs : Tree.forest_size cs = 0 -> cs = [].
Proof.
  destruct cs as [| c cs]; [reflexivity |].
  rewrite forest_size_cons. pose proof (size_positive c). lia.
Qed.

End DirectorFacts.

Section Runs.
Import ExecutionDirector.
Context {cb : InputCallbacks}.

Lemma requestGroupDone_running g w :
  _aborted (director w) = false ->
  let w' := _requestGroupDone g w in
  players w' = players w ++ map new_player (Tree.children g)
  /\ transport w' = transport w
  /\ _totalGroups (director w') = _totalGroups (director w)
  /\ _tmpGroupsCounter (director w') = S (_tmpGroupsCounter (director w))
  /\ _aborted (director w') = false
  /\ _endCallback (director w') = _endCallback (director w)
  /\ callback_calls (director w')
     = callback_calls (director w)
       + (if Nat.eqb (length (Tree.children g)) 0
             && Nat.eqb (S (_tmpGroupsCounter (director w))) (_totalGroups (director w))
          then (match _endCallback (director w) with Some _ => 1 | None => 0 end) else 0).
Proof.
  intros Hab w'. subst w'. unfold _requestGroupDone, _isAborted.
  cbn [with_context set_counter _aborted]. rewrite Hab.
  set (d1 := emit _ _). set (w1 := with_director d1 w).
  destruct (fold_player_start (Tree.children g) w1) as (Hp & Hb & Ht).
  set (w2 := fold_left _ _ w1) in *.
  assert (Hb1 : book d1 = (_totalGroups (director w), S (_tmpGroupsCounter (director w)),
                           false, _endCallback (director w), callback_calls (director w))).
  { unfold book, d1. rewrite callback_calls_emit. cbn. rewrite Hab, Nat.add_0_r. reflexivity. }
  cbn [w1 with_director director players transport] in Hp, Hb, Ht.
  rewrite Hb1 in Hb. unfold book in Hb. injection Hb as Htot Hcnt Habort Hcb Hcalls.
  rewrite Htot, Hcnt.
  destruct (Nat.eqb (length (Tree.children g)) 0
            && Nat.eqb (S (_tmpGroupsCounter (director w))) (_totalGroups (director w))).
  - rewrite Hcb. destruct (_endCallback (director w)) as [f |].
    + cbn [with_director director players transport].
      rewrite callback_calls_emit. cbn. rewrite Hcalls.
      repeat split; try assumption.
    + rewrite Nat.add_0_r. repeat split; assumption.
  - rewrite Nat.add_0_r. repeat split; assumption.
Qed.

Lemma runner_input_facts now g r o w w1 s :
  runner_input now g r o w = (w1, s) ->
  players w1 = players w /\ book (director w1) = book (director w)
  /\ (s = Completed \/ s = Dispatched).
Proof.
  unfold runner_input.
  destruct (match Request.inputFunc r with
            | JFun f => run_input f (executionContext (director w)) o
            | _ => Send JUndef o
            end) as [| input o'].
  - intros [= <- <-]. cbn. rewrite book_requestCanceled. auto.
  - intros [= <- <-]. cbn. rewrite book_requestStarted. auto.
Qed.

Lemma all_completed_weight rs :
  all_completed rs = true -> list_sum (map runner_weight rs) = 0.
Proof.
  induction rs as [| s rs IH]; [reflexivity |].
  cbn [all_completed forallb]. intros H. apply andb_prop in H as [Hs Hrs].
  cbn [map]. rewrite list_sum_cons. unfold all_completed in IH. rewrite (IH Hrs).
  destruct s; try discriminate. reflexivity.
Qed.

Lemma all_completed_lookup rs j s :
  all_completed rs = true -> rs !! j = Some s -> s = Completed.
Proof.
  unfold all_completed. rewrite forallb_forall. intros Hall Hj.
  specialize (Hall s). destruct s; try reflexivity;
    (discriminate Hall; apply list_elem_of_In; eapply list_elem_of_lookup_2, Hj).
Qed.

Lemma list_sum_insert {A : Type} (m : A -> nat) (l : list A) i x y :
  l !! i = Some x ->
  list_sum (map m (<[i := y]> l)) + m x = list_sum (map m l) + m y.
Proof.
  revert i. induction l as [| z l IH]; intros [| i] Hi; try discriminate.
  - injection Hi as ->. cbn [insert list_insert map]. rewrite !list_sum_cons. lia.
  - cbn in Hi. specialize (IH i Hi).
    change (<[S i := y]> (z :: l)) with (z :: <[i := y]> l).
    cbn [map]. rewrite !list_sum_cons. lia.
Qed.

End Runs.

Section Invariant.
Import ExecutionDirector.
Context {cb : InputCallbacks}.
Variable total : nat.
Variable f : nat.

Lemma invariant_player w i p :
  run_invariant total f w -> players w !! i = Some p ->
  length (pl_runners p) = length (Tree.requests (pl_group p))
  /\ (pl_done p = true -> all_completed (pl_runners p) = true).
Proof.
  intros (_ & _ & _ & _ & _ & Hps) Hp.
  rewrite Forall_forall in Hps. apply Hps. eapply list_elem_of_lookup_2, Hp.
Qed.

(** A runner that moves from [s] to a lighter [s'] keeps the invariant
    and lowers the measure, whatever the director did that leaves its
    bookkeeping alone. *)
Lemma runner_step w w1 i j p s s' :
  run_invariant total f w ->
  players w !! i = Some p ->
  pl_runners p !! j = Some s ->
  s <> Completed ->
  runner_weight s' < runner_weight s ->
  players w1 = players w ->
  book (director w1) = book (director w) ->
  run_invariant total f (set_runner i j s' w1)
  /\ measure (set_runner i j s' w1) < measure w
  /\ callback_calls (director (set_runner i j s' w1)) = callback_calls (director w).
Proof.
  intros Hinv Hp Hj Hs Hlt Hplayers Hbook.
  destruct (invariant_player w i p Hinv Hp) as [Hlen Hdone].
  assert (Hnd : pl_done p = false).
  { destruct (pl_done p) eqn:Hd; [| reflexivity].
    specialize (Hdone eq_refl). apply (all_completed_lookup _ _ _ Hdone) in Hj. contradiction. }
  destruct Hinv as (Hab & Hcb & Htot & Hcount & Hcalls & Hps).
  unfold book in Hbook. injection Hbook as Hb1 Hb2 Hb3 Hb4 Hb5.
  set (upd := fun p0 => {| pl_group := pl_group p0; pl_runners := <[j := s']> (pl_runners p0);
                           pl_done := pl_done p0 |}).
  assert (Hpend : pending (set_runner i j s' w1) = pending w).
  { unfold pending, set_runner. cbn [players]. rewrite Hplayers.
    pose proof (list_sum_alter weight upd (players w) i p Hp) as Hsum.
    fold upd. unfold weight at 2 4 in Hsum.
    cbn [upd pl_done pl_runners pl_group] in Hsum. rewrite Hnd in Hsum. lia. }
  assert (Hmeas : measure (set_runner i j s' w1) < measure w).
  { unfold measure, set_runner. cbn [players]. rewrite Hplayers.
    pose proof (list_sum_alter player_measure upd (players w) i p Hp) as Hsum.
    fold upd. unfold player_measure at 2 4 in Hsum.
    cbn [upd pl_done pl_runners pl_group] in Hsum. rewrite Hnd in Hsum.
    pose proof (list_sum_insert runner_weight (pl_runners p) j s s' Hj) as Hins. lia. }
  split; [| split; [exact Hmeas | cbn; congruence]].
  unfold run_invariant. rewrite Hpend. cbn [set_runner director].
  repeat split; try congruence.
  unfold set_runner. cbn [players]. rewrite Hplayers.
  apply Forall_alter; [exact Hps |].
  intros q Hq. cbn. rewrite Hp in Hq. injection Hq as <-.
  rewrite length_insert. split; [exact Hlen |]. rewrite Hnd. discriminate.
Qed.

Lemma step_input_invariant w w' i j now o :
  run_invariant total f w ->
  step (LInput i j now o) w = Some w' ->
  run_invariant total f w' /\ measure w' < measure w
  /\ callback_calls (director w') = callback_calls (director w).
Proof.
  intros Hinv. cbn [step].
  destruct (players w !! i) as [p |] eqn:Hp; [| discriminate].
  destruct (pl_runners p !! j) as [[| |] |] eqn:Hj; try discriminate.
  destruct (Tree.requests (pl_group p) !! j) as [r |] eqn:Hr; [| discriminate].
  destruct (runner_input now (pl_group p) r o w) as [w1 s] eqn:Hrun.
  intros [= <-].
  destruct (runner_input_facts _ _ _ _ _ _ _ Hrun) as (Hplayers & Hbook & Hs).
  eapply runner_step; try eassumption; [discriminate |].
  destruct Hs as [-> | ->]; cbn; lia.
Qed.

Lemma step_response_invariant w w' i j now resp output :
  run_invariant total f w ->
  step (LResponse i j now resp output) w = Some w' ->
  run_invariant total f w' /\ measure w' < measure w
  /\ callback_calls (director w') = callback_calls (director w).
Proof.
  intros Hinv. cbn [step].
  destruct (players w !! i) as [p |] eqn:Hp; [| discriminate].
  destruct (pl_runners p !! j) as [[| |] |] eqn:Hj; try discriminate.
  destruct (Tree.requests (pl_group p) !! j) as [r |] eqn:Hr; [| discriminate].
  intros [= <-].
  eapply runner_step; try eassumption; [discriminate | cbn; lia | reflexivity |].
  cbn. apply book_requestDone.
Qed.

End Invariant.

Section GroupEnd.
Import ExecutionDirector.
Context {cb : InputCallbacks}.
Variable total : nat.
Variable f : nat.

Lemma step_group_end_invariant w w' i :
  run_invariant total f w ->
  step (LGroupEnd i) w = Some w' ->
  exists p,
    players w !! i = Some p
    /\ run_invariant total f w'
    /\ measure w' < measure w
    /\ S (pending w') = pending w
    /\ callback_calls (director w')
       = callback_calls (director w) + (if Nat.eqb (pending w') 0 then 1 else 0)
    /\ (pending w' = 0 -> Tree.children (pl_group p) = [])
    /\ _tmpGroupsCounter (director w') = S (_tmpGroupsCounter (director w)).
Proof.
  intros Hinv. cbn [step].
  destruct (players w !! i) as [p |] eqn:Hp; [| discriminate].
  destruct (negb (pl_done p) && all_completed (pl_runners p)) eqn:Hcond; [| discriminate].
  apply andb_prop in Hcond as [Hnd Hall]. apply negb_true_iff in Hnd.
  intros [= <-]. exists p. split; [reflexivity |].
  destruct (invariant_player total f w i p Hinv Hp) as [Hlen _].
  destruct Hinv as (Hab & Hcb & Htot & Hcount & Hcalls & Hps).
  set (g := pl_group p).
  set (done := fun p0 => {| pl_group := pl_group p0; pl_runners := pl_runners p0;
                            pl_done := true |}).
  destruct (requestGroupDone_running g (set_done i w) Hab)
    as (Hplayers & _ & Htot' & Hcnt' & Hab' & Hcb' & Hcalls').
  set (w' := _requestGroupDone g (set_done i w)) in *.
  cbn [set_done director players] in Hplayers, Htot', Hcnt', Hcb', Hcalls'.
  fold done in Hplayers.
  assert (Hpend : S (pending w') = pending w).
  { unfold pending. rewrite Hplayers, pending_app, pending_new_players.
    pose proof (list_sum_alter weight done (players w) i p Hp) as Hsum.
    unfold weight at 2 4 in Hsum. cbn [done pl_done pl_group] in Hsum. rewrite Hnd in Hsum.
    fold g in Hsum. rewrite (size_group g) in Hsum. lia. }
  assert (Hmeas : S (measure w') = measure w).
  { unfold measure. rewrite Hplayers, map_app, list_sum_app, measure_new_players.
    pose proof (list_sum_alter player_measure done (players w) i p Hp) as Hsum.
    unfold player_measure at 2 4 in Hsum. cbn [done pl_done pl_group pl_runners] in Hsum.
    rewrite Hnd, (all_completed_weight _ Hall) in Hsum. fold g in Hsum. lia. }
  assert (Hleaf : pending w' = 0 -> Tree.children g = []).
  { unfold pending. rewrite Hplayers, pending_app, pending_new_players. intros H0.
    apply forest_size_zero. lia. }
  assert (Hfire : (Nat.eqb (length (Tree.children g)) 0
                   && Nat.eqb (S (_tmpGroupsCounter (director w))) (_totalGroups (director w)))
                  = Nat.eqb (pending w') 0).
  { destruct (Nat.eqb_spec (pending w') 0) as [H0 | H0].
    - rewrite (Hleaf H0). cbn [length]. rewrite Nat.eqb_refl, andb_true_l.
      apply Nat.eqb_eq. lia.
    - apply andb_false_iff. right. apply Nat.eqb_neq. lia. }
  rewrite Hfire, Hcb in Hcalls'.
  split; [| split; [lia | split; [exact Hpend | split; [exact Hcalls' | split; assumption]]]].
  unfold run_invariant. rewrite Hab', Hcb', Htot', Hcnt', Hcalls', Hcalls.
  repeat split; try assumption; try lia.
  - destruct (Nat.eqb_spec (pending w) 0) as [H0 | H0]; [lia |].
    destruct (Nat.eqb (pending w') 0); reflexivity.
  - rewrite Hplayers. apply Forall_app. split.
    + apply Forall_alter; [exact Hps |].
      intros q Hq. rewrite Hp in Hq. injection Hq as <-. cbn. split; [exact Hlen | auto].
    + rewrite Forall_forall. intros q Hq.
      apply list_elem_of_fmap in Hq as (c & -> & _). cbn.
      rewrite length_map. split; [reflexivity | discriminate].
Qed.

End GroupEnd.

Section WholeRuns.
Import ExecutionDirector.
Context {cb : InputCallbacks}.

Lemma start_invariant (c : Coil) (dbg : bool) (f : nat) :
  coil_count c = Tree.forest_size (coil_calls c) ->
  coil_calls c <> [] ->
  run_invariant (coil_count c) f (start (Some f) (init c dbg))
  /\ measure (start (Some f) (init c dbg)) = forest_potential (coil_calls c).
Proof.
  intros Hcount Hne. unfold start.
  cbn [init director new rcoil with_director players transport].
  match goal with |- context [fold_left _ _ ?x] => set (w0 := x) end.
  destruct (fold_player_start (coil_calls c) w0) as (Hp & Hb & _).
  set (w := fold_left _ _ w0) in *. cbn [w0 players director] in Hp, Hb.
  unfold book in Hb. cbn in Hb. injection Hb as Htot Hcnt Hab Hcb Hcalls.
  assert (Hpend : pending w = Tree.forest_size (coil_calls c)).
  { unfold pending. rewrite Hp. apply pending_new_players. }
  split.
  - unfold run_invariant. rewrite Hab, Hcb, Htot, Hcnt, Hcalls, Hpend.
    repeat split; try lia.
    + destruct (Nat.eqb_spec (Tree.forest_size (coil_calls c)) 0) as [H0 | H0]; [| reflexivity].
      apply forest_size_zero in H0. contradiction.
    + rewrite Hp, Forall_forall. intros q Hq.
      apply list_elem_of_fmap in Hq as (g & -> & _). cbn.
      rewrite length_map. split; [reflexivity | discriminate].
  - unfold measure. rewrite Hp. apply measure_new_players.
Qed.

Lemma step_invariant total f l w w' :
  l <> LAbort ->
  run_invariant total f w ->
  step l w = Some w' ->
  run_invariant total f w' /\ measure w' < measure w
  /\ callback_calls (director w) <= callback_calls (director w').
Proof.
  intros Hl Hinv Hstep. destruct l as [i j now o | i j now resp output | i |].
  - destruct (step_input_invariant total f _ _ _ _ _ _ Hinv Hstep) as (H1 & H2 & H3).
    split; [exact H1 | split; [exact H2 | lia]].
  - destruct (step_response_invariant total f _ _ _ _ _ _ _ Hinv Hstep) as (H1 & H2 & H3).
    split; [exact H1 | split; [exact H2 | lia]].
  - destruct (step_group_end_invariant total f _ _ _ Hinv Hstep)
      as (p & _ & H1 & H2 & _ & H3 & _).
    split; [exact H1 | split; [exact H2 | lia]].
  - contradiction.
Qed.

Lemma run_invariant_kept total f ls w w' :
  Forall (fun l => l <> LAbort) ls ->
  run_invariant total f w ->
  run ls w = Some w' ->
  run_invariant total f w' /\ measure w' + length ls <= measure w.
Proof.
  intros Hls. revert w. induction Hls as [| l ls Hl _ IH]; intros w Hinv; cbn [run].
  - intros [= <-]. split; [exact Hinv | cbn; lia].
  - destruct (step l w) as [w1 |] eqn:Hstep; [| discriminate]. intros Hrun.
    destruct (step_invariant total f l w w1 Hl Hinv Hstep) as (Hinv1 & Hlt & _).
    destruct (IH w1 Hinv1 Hrun) as [Hinv' Hle]. split; [exact Hinv' | cbn; lia].
Qed.

Lemma pending_player ps :
  list_sum (map weight ps) <> 0 -> exists i p, ps !! i = Some p /\ pl_done p = false.
Proof.
  induction ps as [| q ps IH]; [cbn; congruence |].
  cbn [map]. rewrite list_sum_cons. intros Hsum.
  destruct (pl_done q) eqn:Hq.
  - unfold weight at 1 in Hsum. rewrite Hq in Hsum.
    destruct (IH Hsum) as (i & p & Hp & Hd). exists (S i), p. split; assumption.
  - exists 0, q. split; [reflexivity | exact Hq].
Qed.

Lemma not_all_completed rs :
  all_completed rs = false -> exists j s, rs !! j = Some s /\ s <> Completed.
Proof.
  induction rs as [| s rs IH]; [discriminate |].
  cbn [all_completed forallb]. intros H. apply andb_false_iff in H as [Hs | Hrs].
  - exists 0, s. split; [reflexivity |]. intros ->. discriminate.
  - destruct (IH Hrs) as (j & s' & Hj & Hs'). exists (S j), s'. split; assumption.
Qed.

(** In a world at rest, every player is done. *)
Lemma quiescent_nothing_pending total f w :
  run_invariant total f w -> quiescent w -> pending w = 0.
Proof.
  intros Hinv Hq. destruct (Nat.eq_dec (pending w) 0) as [H0 | H0]; [exact H0 |].
  exfalso. apply pending_player in H0 as (i & p & Hp & Hd).
  destruct (invariant_player total f w i p Hinv Hp) as [Hlen _].
  destruct (all_completed (pl_runners p)) eqn:Hall.
  - specialize (Hq (LGroupEnd i)). cbn [step] in Hq. rewrite Hp, Hd, Hall in Hq.
    discriminate Hq. discriminate.
  - apply not_all_completed in Hall as (j & s & Hj & Hs).
    assert (Hr : is_Some (Tree.requests (pl_group p) !! j)).
    { apply lookup_lt_is_Some. rewrite <- Hlen. eapply lookup_lt_Some, Hj. }
    destruct Hr as [r Hr].
    destruct s; [| | contradiction].
    + specialize (Hq (LInput i j 0 (MkOutgoing JUndef JUndef JUndef))).
      cbn [step] in Hq. rewrite Hp, Hj, Hr in Hq.
      destruct (runner_input _ _ _ _ _) in Hq. discriminate Hq. discriminate.
    + specialize (Hq (LResponse i j 0 (LambdaResponse JUndef) JUndef)).
      cbn [step] in Hq. rewrite Hp, Hj, Hr in Hq. discriminate Hq. discriminate.
Qed.

End WholeRuns.

(** A built coil gives the director a forest and a count that agree. *)
Lemma built_coil (this : Rcoil.t) :
  built this ->
  exists c, represents c this
            /\ Tree.well_formed (coil_calls c)
            /\ coil_count c = Tree.forest_size (coil_calls c).
Proof.
  intros Hb. destruct (built_typed this Hb) as (gs & Hcalls & Hwf & Hcount).
  exists {| coil_calls := gs; coil_count := Tree.forest_size gs |}.
  unfold represents. cbn. auto.
Qed.

(** C1. For a coil with at least one group, whose count is the number
    of its groups (as for every coil built with requests that carry no
    id) and whose group ids and request names are no names that
    [Object.prototype] holds; on a director just constructed for it, on
    which [start] is called once, with a callback; in any run in which
    [abort()] is not called: the callback has been called at most once;
    once nothing more can occur it has been called exactly once; that
    point is reached, the run being no longer than the potential of the
    forest; a call happens only in the group-end of a group without
    children that leaves the counter at the total; and a group-end that
    leaves the counter at the total is that of a group without
    children. *)
Theorem C1_completion_callback `{InputCallbacks} (c : Coil) (dbg : bool) (f : nat)
    (ls : list ExecutionDirector.label) (w : ExecutionDirector.world) :
  coil_count c = Tree.forest_size (coil_calls c) ->
  forallb Tree.plain_names (coil_calls c) = true ->
  coil_calls c <> [] ->
  Forall (fun l => l <> ExecutionDirector.LAbort) ls ->
  ExecutionDirector.run ls (ExecutionDirector.start (Some f) (ExecutionDirector.init c dbg))
  = Some w ->
  ExecutionDirector.callback_calls (ExecutionDirector.director w) <= 1
  /\ (ExecutionDirector.quiescent w ->
      ExecutionDirector.callback_calls (ExecutionDirector.director w) = 1)
  /\ length ls <= ExecutionDirector.forest_potential (coil_calls c)
  /\ (forall l w',
        l <> ExecutionDirector.LAbort ->
        ExecutionDirector.step l w = Some w' ->
        ExecutionDirector.callback_calls (ExecutionDirector.director w')
        <> ExecutionDirector.callback_calls (ExecutionDirector.director w) ->
        exists i p,
          l = ExecutionDirector.LGroupEnd i
          /\ ExecutionDirector.players w !! i = Some p
          /\ Tree.children (ExecutionDirector.pl_group p) = []
          /\ ExecutionDirector._tmpGroupsCounter (ExecutionDirector.director w')
             = ExecutionDirector._totalGroups (ExecutionDirector.director w'))
  /\ (forall i p w',
        ExecutionDirector.players w !! i = Some p ->
        ExecutionDirector.step (ExecutionDirector.LGroupEnd i) w = Some w' ->
        ExecutionDirector._tmpGroupsCounter (ExecutionDirector.director w')
        = ExecutionDirector._totalGroups (ExecutionDirector.director w') ->
        Tree.children (ExecutionDirector.pl_group p) = []).
Proof.
  intros Hcount _ Hne Hls Hrun.
  destruct (start_invariant c dbg f Hcount Hne) as [Hinv0 Hmeas0].
  destruct (run_invariant_kept _ _ _ _ _ Hls Hinv0 Hrun) as [Hinv Hle].
  pose proof Hinv as (_ & _ & Htot & Hsum & Hcalls & _).
  split; [| split; [| split; [| split]]].
  - rewrite Hcalls. destruct (Nat.eqb _ 0); lia.
  - intros Hq. rewrite Hcalls, (quiescent_nothing_pending _ _ _ Hinv Hq). reflexivity.
  - lia.
  - intros l w' Hl Hstep Hchange.
    destruct l as [i j now o | i j now resp output | i |].
    + destruct (step_input_invariant _ _ _ _ _ _ _ _ Hinv Hstep) as (_ & _ & Hsame).
      congruence.
    + destruct (step_response_invariant _ _ _ _ _ _ _ _ _ Hinv Hstep) as (_ & _ & Hsame).
      congruence.
    + destruct (step_group_end_invariant _ _ _ _ _ Hinv Hstep)
        as (p & Hp & Hinv' & _ & _ & Hcalls' & Hleaf & _).
      destruct Hinv' as (_ & _ & Htot' & Hsum' & _).
      destruct (Nat.eqb_spec (ExecutionDirector.pending w') 0) as [H0 | H0]; [| lia].
      exists i, p. repeat split; [exact Hp | exact (Hleaf H0) | lia].
    + contradiction.
  - intros i p w' Hp Hstep Hfull.
    destruct (step_group_end_invariant _ _ _ _ _ Hinv Hstep)
      as (p' & Hp' & Hinv' & _ & _ & _ & Hleaf & _).
    rewrite Hp in Hp'. injection Hp' as <-.
    destruct Hinv' as (_ & _ & Htot' & Hsum' & _). apply Hleaf. lia.
Qed.

Lemma C1_completion_callback_witness :
  exists w,
    @ExecutionDirector.run example_callbacks
      [ExecutionDirector.LInput 0 0 1 example_outgoing;
       ExecutionDirector.LResponse 0 0 2 example_response (JStr "[]");
       ExecutionDirector.LGroupEnd 0]
      (ExecutionDirector.start (Some 1) (ExecutionDirector.init Fixture.one_group true))
    = Some w
    /\ ExecutionDirector.callback_calls (ExecutionDirector.director w) <= 1
    /\ 3 <= ExecutionDirector.forest_potential (coil_calls Fixture.one_group)
    /\ ExecutionDirector.callback_calls (ExecutionDirector.director w) = 1.
Proof.
  eexists. split; [vm_compute; reflexivity |].
  match goal with
  | |- ExecutionDirector.callback_calls (ExecutionDirector.director ?w) <= 1 /\ _ =>
      destruct (@C1_completion_callback example_callbacks Fixture.one_group true 1
                  [ExecutionDirector.LInput 0 0 1 example_outgoing;
                   ExecutionDirector.LResponse 0 0 2 example_response (JStr "[]");
                   ExecutionDirector.LGroupEnd 0] w) as (Hmost & _ & Hlen & _)
  end.
  - reflexivity.
  - reflexivity.
  - discriminate.
  - repeat constructor; discriminate.
  - vm_compute. reflexivity.
  - split; [exact Hmost | split; [exact Hlen | vm_compute; reflexivity]].
Defined.

(** C1, as stated for every built tree and every [start()] call,
    fails.  The director of a coil without groups starts no player: nothing can occur after [start] and the callback
    is never called.  In a run of a one-group coil in which [abort()] is
    called before the group ends, nothing more can occur after the group
    end and the callback has not been called.  The builder counts two
    groups on [Fixture.bag_coil], whose tree has one, the other being in
    the configuration object of a request: its run ends without a call.
    When [start] is called again after the aborted run, the group runs
    to its end and the new callback is not called.  And when [start] is
    called twice in a row, the first callback is never called. *)
Lemma C1_completion_callback_counterexample :
  (represents Fixture.no_group Rcoil.new
   /\ ExecutionDirector.callback_calls
        (ExecutionDirector.director
           (ExecutionDirector.start (Some 1) (ExecutionDirector.init Fixture.no_group false)))
      = 0
   /\ @ExecutionDirector.quiescent example_callbacks
        (ExecutionDirector.start (Some 1) (ExecutionDirector.init Fixture.no_group false)))
  /\ (exists w,
        example_aborted_run = Some w
        /\ ExecutionDirector.callback_calls (ExecutionDirector.director w) = 0
        /\ @ExecutionDirector.quiescent example_callbacks w)
  /\ (represents Fixture.bag_coil (fst (Rcoil.startGroup "group2" Fixture.on_bag))
      /\ Tree.forest_size (coil_calls Fixture.bag_coil) = 1
      /\ exists w,
           @ExecutionDirector.run example_callbacks
             [ExecutionDirector.LInput 0 0 1 example_outgoing;
              ExecutionDirector.LResponse 0 0 2 example_response (JStr "[]");
              ExecutionDirector.LGroupEnd 0]
             (ExecutionDirector.start (Some 1) (ExecutionDirector.init Fixture.bag_coil false))
           = Some w
           /\ ExecutionDirector.callback_calls (ExecutionDirector.director w) = 0
           /\ @ExecutionDirector.quiescent example_callbacks w)
  /\ (exists w,
        example_restart = Some w
        /\ ExecutionDirector.callback_calls (ExecutionDirector.director w) = 0
        /\ @ExecutionDirector.quiescent example_callbacks w)
  /\ (exists w,
        example_double_start = Some w
        /\ List.filter ExecutionDirector.is_endCallback
             (ExecutionDirector.emitted (ExecutionDirector.director w))
           = [ExecutionDirector.endCallback 2]
        /\ @ExecutionDirector.quiescent example_callbacks w).
Proof.
  split; [| split; [| split; [| split]]].
  - split; [split; reflexivity |]. split; [reflexivity |].
    intros [i j now o | i j now resp output | i |] Hl; try reflexivity. contradiction.
  - eexists. split; [vm_compute; reflexivity |]. split; [vm_compute; reflexivity |].
    intros [i j now o | i j now resp output | i |] Hl.
    + destruct i as [| i]; [destruct j as [| j] |]; reflexivity.
    + destruct i as [| i]; [destruct j as [| j] |]; reflexivity.
    + destruct i as [| i]; reflexivity.
    + contradiction.
  - split; [split; vm_compute; reflexivity |]. split; [reflexivity |].
    eexists. split; [vm_compute; reflexivity |]. split; [vm_compute; reflexivity |].
    intros [i j now o | i j now resp output | i |] Hl.
    + destruct i as [| i]; [destruct j as [| j] |]; reflexivity.
    + destruct i as [| i]; [destruct j as [| j] |]; reflexivity.
    + destruct i as [| i]; reflexivity.
    + contradiction.
  - eexists. split; [vm_compute; reflexivity |]. split; [vm_compute; reflexivity |].
    intros [i j now o | i j now resp output | i |] Hl.
    + destruct i as [| [| i]]; [destruct j as [| j] | destruct j as [| j] |]; reflexivity.
    + destruct i as [| [| i]]; [destruct j as [| j] | destruct j as [| j] |]; reflexivity.
    + destruct i as [| [| i]]; reflexivity.
    + contradiction.
  - eexists. split; [vm_compute; reflexivity |]. split; [vm_compute; reflexivity |].
    intros [i j now o | i j now resp output | i |] Hl.
    + destruct i as [| [| i]]; [destruct j as [| j] | destruct j as [| j] |]; reflexivity.
    + destruct i as [| [| i]]; [destruct j as [| j] | destruct j as [| j] |]; reflexivity.
    + destruct i as [| [| i]]; reflexivity.
    + contradiction.
Qed.

(* ===================================================================== *)
(** * Further properties of the tree builder *)
(* ===================================================================== *)

(** ** The walk on any value *)

Section Walk.
Variable process : Rcoil.key -> jsval -> Rcoil.processResult.

(** How one turn of the loop can come to return a hit: the callback
    asked for it, the walk inside did, or a later turn did. *)
Lemma visit_some k n oi sub rest p v :
  Rcoil.visit process k n oi sub rest = Some (p, v) ->
  (JS.typeof_object oi = true /\ Rcoil.shouldReturn (process k oi) = true
   /\ Rcoil.value (process k oi) = v /\ JS.neq_null v = true /\ p = [n])
  \/ (JS.typeof_object oi = true /\ exists q, sub = Some (q, v) /\ p = n :: q)
  \/ rest = Some (p, v).
Proof.
  unfold Rcoil.visit. destruct (JS.typeof_object oi); cbn [negb]; [| auto].
  destruct (Rcoil.shouldReturn (process k oi)).
  - destruct (JS.neq_null (Rcoil.value (process k oi))) eqn:Hv; [| discriminate].
    intros [= <- <-]. left. auto.
  - destruct (negb (JS.is_null oi)); [| auto].
    destruct sub as [[q x] |]; [| auto].
    intros [= <- <-]. right. left. split; [reflexivity |]. exists q. auto.
Qed.

Lemma each_elem_sound es :
  Forall (fun x => forall p v, Rcoil._traverseTree x process = Some (p, v) ->
                               returned_at process x p v) es ->
  forall n p v,
    each_elem process n es = Some (p, v) ->
    exists i q x, p = (n + i) :: q /\ es !! i = Some x
                  /\ returned_at process (JArr [x]) (0 :: q) v.
Proof.
  induction 1 as [| oi es Hoi _ IH]; intros n p v; cbn [each_elem]; [discriminate |].
  intros Hvisit.
  apply visit_some in Hvisit
    as [(Hty & Hret & Hval & Hnn & ->) | [(Hty & q & Hsub & ->) | Hrest]].
  - exists 0, [], oi. rewrite Nat.add_0_r. split; [reflexivity |]. split; [reflexivity |].
    split; [discriminate |]. exists (Rcoil.KIdx n), oi. cbn. auto.
  - exists 0, q, oi. rewrite Nat.add_0_r. split; [reflexivity |]. split; [reflexivity |].
    destruct (Hoi q v Hsub) as (Hq & k & x & Hnode & Hx).
    split; [discriminate |]. exists k, x. cbn. auto.
  - destruct (IH (S n) p v Hrest) as (i & q & x & -> & Hi & Hx).
    exists (S i), q, x. split; [f_equal; lia |]. split; [exact Hi | exact Hx].
Qed.

Lemma each_prop_sound ps :
  Forall (fun kv => forall p v, Rcoil._traverseTree (snd kv) process = Some (p, v) ->
                                returned_at process (snd kv) p v) ps ->
  forall n p v,
    each_prop process n ps = Some (p, v) ->
    exists i q kx, p = (n + i) :: q /\ ps !! i = Some kx
                   /\ returned_at process (JArr [snd kx]) (0 :: q) v.
Proof.
  induction 1 as [| [name oi] ps Hoi _ IH]; intros n p v; cbn [each_prop]; [discriminate |].
  intros Hvisit.
  apply visit_some in Hvisit
    as [(Hty & Hret & Hval & Hnn & ->) | [(Hty & q & Hsub & ->) | Hrest]].
  - exists 0, [], (name, oi). rewrite Nat.add_0_r.
    split; [reflexivity |]. split; [reflexivity |].
    split; [discriminate |]. exists (Rcoil.KProp name), oi. cbn. auto.
  - exists 0, q, (name, oi). rewrite Nat.add_0_r.
    split; [reflexivity |]. split; [reflexivity |].
    destruct (Hoi q v Hsub) as (Hq & k & x & Hnode & Hx).
    split; [discriminate |]. exists k, x. cbn. auto.
  - destruct (IH (S n) p v Hrest) as (i & q & x & -> & Hi & Hx).
    exists (S i), q, x. split; [f_equal; lia |]. split; [exact Hi | exact Hx].
Qed.

(** Whatever the walk returns is what the callback returned on an
    object of the tree, and the path leads to that object. *)
Lemma traverse_sound o p v :
  Rcoil._traverseTree o process = Some (p, v) -> returned_at process o p v.
Proof.
  revert p v. induction o as [| | s | f | c ps IH | es IH] using jsval_nested_ind;
    intros p v; try discriminate.
  - rewrite traverse_object. intros Hloop.
    destruct (each_prop_sound ps IH 0 p v Hloop)
      as (i & q & [name x] & -> & Hi & Hq & k & y & Hnode & Hy).
    split; [discriminate |]. exists k, y. cbn [node_at Nat.add]. rewrite Hi.
    cbn in Hnode. auto.
  - rewrite traverse_array. intros Hloop.
    destruct (each_elem_sound es IH 0 p v Hloop)
      as (i & q & x & -> & Hi & Hq & k & y & Hnode & Hy).
    split; [discriminate |]. exists k, y. cbn [node_at Nat.add]. rewrite Hi.
    cbn in Hnode. auto.
Qed.

End Walk.

Lemma matches_id_true gid k x :
  Rcoil.shouldReturn (Rcoil.matches_id gid k x) = true ->
  Rcoil.value (Rcoil.matches_id gid k x) = x /\ has_id gid x.
Proof.
  unfold Rcoil.matches_id, has_id.
  destruct (JS.typeof_object x && JS.neq_null x && JS.eq_string (JS.get x "id") gid) eqn:Htest;
    [| discriminate].
  intros _. split; [reflexivity |].
  apply andb_prop in Htest as [_ Hid].
  destruct (JS.get x "id") as [| | s | | |]; try discriminate.
  cbn in Hid. apply String.eqb_eq in Hid. subst s. reflexivity.
Qed.

Lemma has_id_matches gid k x :
  has_id gid x -> Rcoil.matches_id gid k x = {| Rcoil.shouldReturn := true; Rcoil.value := x |}.
Proof.
  unfold has_id, Rcoil.matches_id. intros Hid.
  destruct x as [| | s | f | c ps | es]; try discriminate.
  rewrite Hid. cbn. rewrite String.eqb_refl. reflexivity.
Qed.

Lemma has_id_object gid x : has_id gid x -> JS.typeof_object x = true /\ JS.neq_null x = true.
Proof. unfold has_id. destruct x; try discriminate. auto. Qed.

(** What [_findRequestGroup] returns is an object of the tree with the
    id asked for, at the place returned. *)
Lemma findRequestGroup_sound o gid p v :
  Rcoil._findRequestGroup o gid = Some (p, v) ->
  p <> [] /\ node_at p o = Some v /\ has_id gid v.
Proof.
  intros Hfind. apply traverse_sound in Hfind as (Hp & k & x & Hnode & _ & Hret & Hval & _).
  apply matches_id_true in Hret as [Hx Hid]. rewrite Hx in Hval. subst x. auto.
Qed.

(** One turn of the loop of [_findRequestGroup] returns a hit, or goes
    on with the next turn. *)
Lemma visit_matches_id gid k n oi sub rest :
  Rcoil.visit (Rcoil.matches_id gid) k n oi sub rest = rest
  \/ exists hit, Rcoil.visit (Rcoil.matches_id gid) k n oi sub rest = Some hit.
Proof.
  unfold Rcoil.visit. destruct (negb (JS.typeof_object oi)); [auto |].
  destruct (Rcoil.shouldReturn (Rcoil.matches_id gid k oi)) eqn:Hret.
  - apply matches_id_true in Hret as [-> Hid].
    apply has_id_object in Hid as [_ ->]. right. eexists. reflexivity.
  - destruct (negb (JS.is_null oi)); [| auto].
    destruct sub as [[q x] |]; [| auto]. right. eexists. reflexivity.
Qed.

Lemma visit_reaches gid k n oi rest q x :
  node_at q oi = Some x -> has_id gid x ->
  (q <> [] -> Rcoil._traverseTree oi (Rcoil.matches_id gid) <> None) ->
  Rcoil.visit (Rcoil.matches_id gid) k n oi (Rcoil._traverseTree oi (Rcoil.matches_id gid)) rest
  <> None.
Proof.
  intros Hnode Hid Hsub. unfold Rcoil.visit.
  destruct q as [| m q].
  - cbn in Hnode. injection Hnode as ->.
    destruct (has_id_object _ _ Hid) as [-> Hnn]. cbn [negb].
    rewrite has_id_matches by exact Hid. cbn. rewrite Hnn. discriminate.
  - assert (Hobj : JS.typeof_object oi = true /\ JS.is_null oi = false)
      by (destruct oi; try discriminate; auto).
    destruct Hobj as [-> ->]. cbn [negb].
    destruct (Rcoil.shouldReturn (Rcoil.matches_id gid k oi)) eqn:Hret.
    + apply matches_id_true in Hret as [-> Hid'].
      apply has_id_object in Hid' as [_ ->]. discriminate.
    + destruct (Rcoil._traverseTree oi (Rcoil.matches_id gid)) as [[q' y] |] eqn:Ht;
        [discriminate |]. exfalso. apply Hsub; [discriminate | reflexivity].
Qed.

Lemma each_elem_reaches gid es :
  forall i oi n,
    es !! i = Some oi ->
    (forall k m rest,
        Rcoil.visit (Rcoil.matches_id gid) k m oi
          (Rcoil._traverseTree oi (Rcoil.matches_id gid)) rest <> None) ->
    each_elem (Rcoil.matches_id gid) n es <> None.
Proof.
  induction es as [| y es IH]; intros i oi n Hi Hhit; [discriminate |].
  cbn [each_elem]. destruct i as [| i].
  - cbn in Hi. injection Hi as ->. apply Hhit.
  - destruct (visit_matches_id gid (Rcoil.KIdx n) n y
                (Rcoil._traverseTree y (Rcoil.matches_id gid))
                (each_elem (Rcoil.matches_id gid) (S n) es)) as [-> | [hit ->]];
      [| discriminate].
    eapply IH; [exact Hi | exact Hhit].
Qed.

Lemma each_prop_reaches gid ps :
  forall i name oi n,
    ps !! i = Some (name, oi) ->
    (forall k m rest,
        Rcoil.visit (Rcoil.matches_id gid) k m oi
          (Rcoil._traverseTree oi (Rcoil.matches_id gid)) rest <> None) ->
    each_prop (Rcoil.matches_id gid) n ps <> None.
Proof.
  induction ps as [| [name' y] ps IH]; intros i name oi n Hi Hhit; [discriminate |].
  cbn [each_prop]. destruct i as [| i].
  - cbn in Hi. injection Hi as -> ->. apply Hhit.
  - destruct (visit_matches_id gid (Rcoil.KProp name') n y
                (Rcoil._traverseTree y (Rcoil.matches_id gid))
                (each_prop (Rcoil.matches_id gid) (S n) ps)) as [-> | [hit ->]];
      [| discriminate].
    eapply IH; [exact Hi | exact Hhit].
Qed.

(** An object with the id asked for, anywhere below [o], makes
    [_findRequestGroup] return an object. *)
Lemma findRequestGroup_complete o gid :
  forall p x, p <> [] -> node_at p o = Some x -> has_id gid x ->
              Rcoil._findRequestGroup o gid <> None.
Proof.
  unfold Rcoil._findRequestGroup.
  induction o as [| | s | f | c ps IH | es IH] using jsval_nested_ind;
    intros p x Hp Hnode Hid; destruct p as [| n q]; try contradiction; try discriminate.
  - rewrite traverse_object. cbn [node_at] in Hnode.
    destruct (ps !! n) as [[name oi] |] eqn:Hn; [| discriminate].
    eapply each_prop_reaches; [exact Hn |]. intros k m rest.
    eapply visit_reaches; [exact Hnode | exact Hid |]. intros Hq.
    rewrite Forall_forall in IH. eapply (IH (name, oi)); try eassumption.
    eapply list_elem_of_lookup_2, Hn.
  - rewrite traverse_array. cbn [node_at] in Hnode.
    destruct (es !! n) as [oi |] eqn:Hn; [| discriminate].
    eapply each_elem_reaches; [exact Hn |]. intros k m rest.
    eapply visit_reaches; [exact Hnode | exact Hid |]. intros Hq.
    rewrite Forall_forall in IH. eapply (IH oi); try eassumption.
    eapply list_elem_of_lookup_2, Hn.
Qed.

(** X1. On any value [o] in which every [id] is a string, [undefined],
    [null] or absent, whatever its shape otherwise: an object that
    [_findRequestGroup(o, id)] returns lies in [o] at the place the walk
    reached, below the root, and its [id] is the string asked for; and the
    search returns an object exactly when some object below the root of
    [o] has that id. *)
Theorem X1_findRequestGroup_anywhere (o : jsval) (groupId : string) :
  Tree.string_ids o = true ->
  (forall p v,
      Rcoil._findRequestGroup o groupId = Some (p, v) ->
      p <> [] /\ node_at p o = Some v /\ has_id groupId v)
  /\ (Rcoil._findRequestGroup o groupId <> None
      <-> exists p x, p <> [] /\ node_at p o = Some x /\ has_id groupId x).
Proof.
  intros _. split; [apply findRequestGroup_sound |]. split.
  - destruct (Rcoil._findRequestGroup o groupId) as [[p v] |] eqn:Hfind; [| contradiction].
    intros _. exists p, v. eapply findRequestGroup_sound, Hfind.
  - intros (p & x & Hp & Hnode & Hid). eapply findRequestGroup_complete; eassumption.
Qed.

Lemma X1_findRequestGroup_anywhere_witness :
  node_at [0; 2; 0] (JArr (Rcoil.calls CoilTest.coil3))
  = Some (Rcoil._createEmptyRequestGroup "secondGroup")
  /\ Rcoil._findRequestGroup (JArr (Rcoil.calls Fixture.labelled_coil)) "ghost" <> None.
Proof.
  split.
  - destruct (X1_findRequestGroup_anywhere (JArr (Rcoil.calls CoilTest.coil3)) "secondGroup"
                eq_refl)
      as [Hsound _].
    destruct (Hsound [0; 2; 0] (Rcoil._createEmptyRequestGroup "secondGroup") eq_refl)
      as (_ & Hnode & _).
    exact Hnode.
  - destruct (X1_findRequestGroup_anywhere (JArr (Rcoil.calls Fixture.labelled_coil)) "ghost"
                eq_refl)
      as [_ Hiff].
    apply Hiff. exists [0; 1; 0; 2], (Request.settings Fixture.labelled).
    split; [discriminate | split; reflexivity].
Defined.

(** X2. On any builder state in whose tree every [id] is a string,
    [undefined], [null] or absent, [startGroup(id)] throws the error
    "Request Group id already exists" and leaves the state as it was
    exactly when some object below [calls] has that id, be it a group or
    not: a configuration object of a request that carries an [id] blocks
    that id for groups. *)
Theorem X2_startGroup_refuses_any_id (this : Rcoil.t) (groupId : string) :
  Tree.string_ids (JArr (Rcoil.calls this)) = true ->
  Rcoil.startGroup groupId this
  = (this, Thrown (Error ("Request Group " +:+ groupId +:+ " already exists in your Symphony")))
  <-> exists p x, p <> [] /\ node_at p (JArr (Rcoil.calls this)) = Some x /\ has_id groupId x.
Proof.
  intros _.
  assert (Hiff : Rcoil._findRequestGroup (JArr (Rcoil.calls this)) groupId <> None
                 <-> exists p x, p <> [] /\ node_at p (JArr (Rcoil.calls this)) = Some x
                                 /\ has_id groupId x).
  { split.
    - destruct (Rcoil._findRequestGroup (JArr (Rcoil.calls this)) groupId) as [[p v] |] eqn:Hfind;
        [| contradiction].
      intros _. exists p, v. eapply findRequestGroup_sound, Hfind.
    - intros (p & x & Hp & Hnode & Hid). eapply findRequestGroup_complete; eassumption. }
  rewrite <- Hiff. unfold Rcoil.startGroup.
  destruct (Rcoil._findRequestGroup (JArr (Rcoil.calls this)) groupId) as [hit |].
  - split; [discriminate | reflexivity].
  - split; [| contradiction]. intros Hthrow. exfalso.
    match type of Hthrow with
    | (match ?pushed with Some _ => _ | None => _ end) = _ => destruct pushed
    end; discriminate.
Qed.

Lemma X2_startGroup_refuses_any_id_witness :
  Rcoil.startGroup "ghost" Fixture.labelled_coil
  = (Fixture.labelled_coil,
     Thrown (Error "Request Group ghost already exists in your Symphony"))
  /\ Tree.forest_ids [Group "group1" [Fixture.labelled] []] = ["group1"].
Proof.
  split; [| reflexivity].
  apply (proj2 (X2_startGroup_refuses_any_id Fixture.labelled_coil "ghost" eq_refl)).
  exists [0; 1; 0; 2], (Request.settings Fixture.labelled).
  split; [discriminate | split; reflexivity].
Defined.

(** X3. The walker with any callback.  What [_traverseTree] returns is
    the value the callback returned, with [shouldReturn] set, on an object
    of the tree that the returned path leads to, and it is not [null];
    with a callback that never sets [shouldReturn] the walk returns
    [null]; and when the callback sets it on the first element of an
    array, the walk returns that value at once, [null] included, without
    visiting the rest. *)
Theorem X3_traverseTree_contract (process : Rcoil.key -> jsval -> Rcoil.processResult)
    (o : jsval) :
  (forall p v,
      Rcoil._traverseTree o process = Some (p, v) ->
      p <> [] /\ exists k x,
        node_at p o = Some x /\ JS.typeof_object x = true
        /\ process k x = {| Rcoil.shouldReturn := true; Rcoil.value := v |}
        /\ JS.neq_null v = true)
  /\ ((forall k x, Rcoil.shouldReturn (process k x) = false) ->
      Rcoil._traverseTree o process = None)
  /\ (forall x es v,
        o = JArr (x :: es) -> JS.typeof_object x = true ->
        process (Rcoil.KIdx 0) x = {| Rcoil.shouldReturn := true; Rcoil.value := v |} ->
        Rcoil._traverseTree o process
        = if JS.neq_null v then Some ([0], v) else None).
Proof.
  split; [| split].
  - intros p v Hwalk.
    apply traverse_sound in Hwalk as (Hp & k & x & Hnode & Hty & Hret & Hval & Hv).
    split; [exact Hp |]. exists k, x. repeat split; try assumption.
    destruct (process k x) as [ret value]. cbn in Hret, Hval. subst. reflexivity.
  - intros Hnever. destruct (Rcoil._traverseTree o process) as [[p v] |] eqn:Hwalk;
      [| reflexivity].
    apply traverse_sound in Hwalk as (_ & k & x & _ & _ & Hret & _).
    rewrite Hnever in Hret. discriminate.
  - intros x es v -> Hty Hfirst. rewrite traverse_array. cbn [each_elem].
    unfold Rcoil.visit. rewrite Hty, Hfirst. reflexivity.
Qed.

Lemma X3_traverseTree_contract_witness :
  Rcoil._traverseTree (JArr (Rcoil.calls CoilTest.coil3)) Fixture.keep_walking = None
  /\ Rcoil._traverseTree (JArr (Rcoil.calls CoilTest.coil3)) (Rcoil.matches_id "testGroup")
     = Some ([0], Tree.to_js (Group "testGroup" [CoilTest.request] [Group "secondGroup" [] []])).
Proof.
  split.
  - destruct (X3_traverseTree_contract Fixture.keep_walking
                (JArr (Rcoil.calls CoilTest.coil3))) as (_ & Hnever & _).
    apply Hnever. reflexivity.
  - destruct (X3_traverseTree_contract (Rcoil.matches_id "testGroup")
                (JArr (Rcoil.calls CoilTest.coil3))) as (_ & _ & Hfirst).
    apply (Hfirst _ [] _ eq_refl eq_refl eq_refl).
Defined.

(** ** Lookups on built coils *)

Lemma forest_size_ids gs : Tree.forest_size gs = length (Tree.forest_ids gs).
Proof.
  assert (Hg : forall g, Tree.size g = length (Tree.ids g)).
  { induction g as [i rs cs IH] using RequestGroup_nested_ind.
    cbn [Tree.size Tree.ids length]. f_equal.
    induction IH as [| c cs Hc _ IHcs]; [reflexivity |].
    cbn [map concat]. rewrite list_sum_cons, length_app, Hc, IHcs. reflexivity. }
  induction gs as [| g gs IH]; [reflexivity |].
  rewrite forest_size_cons, forest_ids_cons, length_app, Hg, IH. reflexivity.
Qed.

Lemma first_match_app gid below gs hs :
  forall n,
    Tree.first_match gid below n (gs ++ hs)
    = match Tree.first_match gid below n gs with
      | Some hit => Some hit
      | None => Tree.first_match gid below (n + length gs) hs
      end.
Proof.
  induction gs as [| g gs IH]; intros n.
  - cbn. rewrite Nat.add_0_r. reflexivity.
  - cbn [app Tree.first_match length].
    destruct (String.eqb (Tree.id g) gid); [reflexivity |].
    destruct (below g) as [[p x] |]; [reflexivity |].
    rewrite IH. replace (S n + length gs) with (n + S (length gs)) by lia. reflexivity.
Qed.

Section LookupAfterUpdate.
Variable cursor : string.
Variable upd : RequestGroup -> RequestGroup.
Hypothesis upd_id : forall g, Tree.id (upd g) = Tree.id g.

Lemma update_group_id g : Tree.id (Tree.update_group cursor upd g) = Tree.id g.
Proof.
  destruct g as [i rs cs]. cbn [Tree.update_group].
  destruct (String.eqb i cursor); [apply upd_id | reflexivity].
Qed.

Lemma first_match_update gs :
  Forall (fun g => Tree.id g <> cursor ->
                   Tree.find_below cursor (Tree.update_group cursor upd g)
                   = updated upd (Tree.find_below cursor g)) gs ->
  forall n,
    Tree.first_match cursor (Tree.find_below cursor) n (map (Tree.update_group cursor upd) gs)
    = updated upd (Tree.first_match cursor (Tree.find_below cursor) n gs).
Proof.
  induction 1 as [| g gs Hg _ IH]; intros n; [reflexivity |].
  cbn [map Tree.first_match]. rewrite update_group_id.
  destruct (String.eqb_spec (Tree.id g) cursor) as [Heq | Hne].
  - cbn [updated]. destruct g as [i rs cs]. cbn in Heq. subst i.
    cbn [Tree.update_group]. rewrite String.eqb_refl. reflexivity.
  - rewrite (Hg Hne). destruct (Tree.find_below cursor g) as [[p x] |]; cbn [updated].
    + reflexivity.
    + apply IH.
Qed.

Lemma find_below_update g :
  Tree.id g <> cursor ->
  Tree.find_below cursor (Tree.update_group cursor upd g)
  = updated upd (Tree.find_below cursor g).
Proof.
  induction g as [i rs cs IH] using RequestGroup_nested_ind. cbn [Tree.id]. intros Hne.
  cbn [Tree.update_group]. apply String.eqb_neq in Hne. rewrite Hne.
  cbn [Tree.find_below]. apply first_match_update, IH.
Qed.

(** The search for [cursor] goes the same way before and after the
    group called [cursor] went through [upd]. *)
Lemma find_update gs :
  Tree.find cursor (map (Tree.update_group cursor upd) gs) = updated upd (Tree.find cursor gs).
Proof.
  unfold Tree.find. apply first_match_update.
  rewrite Forall_forall. intros g _. apply find_below_update.
Qed.

End LookupAfterUpdate.

Section LookupNewGroup.
Variable cursor : string.
Variable gid : string.

Local Abbreviation new := (Group gid [] []).
Local Abbreviation update := (Tree.update_group cursor (Tree.push_child new)).

Lemma first_match_fresh gs n :
  gid ∉ Tree.forest_ids gs -> Tree.first_match gid (Tree.find_below gid) n gs = None.
Proof.
  intros Hfresh. apply first_match_none_iff; [| exact Hfresh].
  rewrite Forall_forall. intros g _. apply find_below_none_iff.
Qed.

Lemma first_match_new gs :
  Forall (fun g => Tree.id g <> cursor ->
                   cursor ∈ Tree.forest_ids (Tree.children g) ->
                   gid ∉ Tree.forest_ids (Tree.children g) ->
                   exists p, Tree.find_below gid (update g) = Some (p, new)) gs ->
  forall n,
    cursor ∈ Tree.forest_ids gs -> gid ∉ Tree.forest_ids gs ->
    exists p, Tree.first_match gid (Tree.find_below gid) n (map update gs) = Some (p, new).
Proof.
  induction 1 as [| g gs Hg _ IH]; intros n Hcur Hfresh.
  - cbn in Hcur. apply elem_of_nil in Hcur. contradiction.
  - rewrite forest_ids_cons, ids_group in Hcur, Hfresh.
    apply not_elem_of_app in Hfresh as [Hfresh_g Hfresh_gs].
    apply not_elem_of_cons in Hfresh_g as [Hne_gid Hfresh_cs].
    cbn [map Tree.first_match].
    rewrite (update_group_id cursor (Tree.push_child new)) by (intros [? ? ?]; reflexivity).
    apply not_eq_sym in Hne_gid. apply String.eqb_neq in Hne_gid. rewrite Hne_gid.
    destruct (String.eqb_spec (Tree.id g) cursor) as [Heq | Hne].
    + destruct g as [i rs cs]. cbn [Tree.id Tree.children] in *. subst i.
      cbn [Tree.update_group]. rewrite String.eqb_refl.
      unfold Tree.push_child. cbn [Tree.id Tree.requests Tree.children Tree.find_below].
      rewrite first_match_app, first_match_fresh by exact Hfresh_cs.
      cbn [Tree.first_match Tree.id]. rewrite String.eqb_refl. eexists. reflexivity.
    + destruct (decide (cursor ∈ Tree.forest_ids (Tree.children g))) as [Hin | Hnin].
      * destruct (Hg Hne Hin Hfresh_cs) as [p ->]. eexists. reflexivity.
      * assert (Hsame : update g = g).
        { apply update_group_fresh. rewrite ids_group, not_elem_of_cons.
          split; [congruence | exact Hnin]. }
        rewrite Hsame.
        assert (Hbelow : Tree.find_below gid g = None)
          by (apply find_below_none_iff; exact Hfresh_cs).
        rewrite Hbelow. apply IH; [| exact Hfresh_gs].
        apply elem_of_app in Hcur as [Hcur | Hcur]; [| exact Hcur].
        apply elem_of_cons in Hcur as [Hcur | Hcur]; [congruence | contradiction].
Qed.

Lemma find_below_new g :
  Tree.id g <> cursor ->
  cursor ∈ Tree.forest_ids (Tree.children g) ->
  gid ∉ Tree.forest_ids (Tree.children g) ->
  exists p, Tree.find_below gid (update g) = Some (p, new).
Proof.
  induction g as [i rs cs IH] using RequestGroup_nested_ind.
  cbn [Tree.id Tree.children]. intros Hne Hcur Hfresh.
  cbn [Tree.update_group]. apply String.eqb_neq in Hne. rewrite Hne.
  cbn [Tree.find_below]. apply first_match_new; assumption.
Qed.

(** The search finds the group pushed below [cursor] by its new id. *)
Lemma find_new gs :
  cursor ∈ Tree.forest_ids gs -> gid ∉ Tree.forest_ids gs ->
  exists p, Tree.find gid (Tree.add_child cursor new gs) = Some (p, new).
Proof.
  intros Hcur Hfresh. unfold Tree.find, Tree.add_child. apply first_match_new; try assumption.
  rewrite Forall_forall. intros g _. apply find_below_new.
Qed.

Lemma find_new_root gs :
  gid ∉ Tree.forest_ids gs ->
  Tree.find gid (gs ++ [new]) = Some ([length gs], new).
Proof.
  intros Hfresh. unfold Tree.find.
  rewrite first_match_app, first_match_fresh by exact Hfresh.
  cbn. rewrite String.eqb_refl. reflexivity.
Qed.

End LookupNewGroup.

Lemma findRequestGroup_found_iff gs gid :
  forallb Tree.all_quiet gs = true ->
  Rcoil._findRequestGroup (JArr (map Tree.to_js gs)) gid <> None <-> gid ∈ Tree.forest_ids gs.
Proof.
  intros Hq. rewrite findRequestGroup_typed by exact Hq.
  destruct (Tree.find gid gs) as [[p x] |] eqn:Hfind; cbn.
  - split; [intros _ | discriminate].
    destruct (decide (gid ∈ Tree.forest_ids gs)) as [Hin | Hnin]; [exact Hin |].
    apply find_none_iff in Hnin. congruence.
  - apply find_none_iff in Hfind. split; [contradiction | intros Hin; contradiction].
Qed.

(** What a call of [startGroup] that returns has done, on the encoding
    of a well-formed forest. *)
Lemma startGroup_returns gs cursor count groupId this' :
  Tree.well_formed gs ->
  Rcoil.startGroup groupId
    {| Rcoil.calls := map Tree.to_js gs; Rcoil._tmpPositionId := cursor;
       Rcoil._totalRequestGroups := count |} = (this', Returned tt) ->
  (groupId ∉ Tree.forest_ids gs)
  /\ (exists gs',
         this' = {| Rcoil.calls := map Tree.to_js gs'; Rcoil._tmpPositionId := groupId;
                    Rcoil._totalRequestGroups := S count |}
         /\ (exists p, Tree.find groupId gs' = Some (p, Group groupId [] []))
         /\ Tree.forest_ids gs' ≡ₚ groupId :: Tree.forest_ids gs
         /\ forallb Tree.all_quiet gs' = true
         /\ (cursor = "" /\ gs' = gs ++ [Group groupId [] []]
             \/ cursor <> "" /\ cursor ∈ Tree.forest_ids gs
                /\ gs' = Tree.add_child cursor (Group groupId [] []) gs)).
Proof.
  intros Hwf Hstart.
  destruct (decide (groupId ∈ Tree.forest_ids gs)) as [Hin | Hnin].
  { rewrite (startGroup_duplicate gs cursor _ Hwf groupId Hin) in Hstart. discriminate. }
  split; [exact Hnin |].
  destruct (decide (cursor = "")) as [Hroot | Hne].
  - rewrite (startGroup_root gs cursor _ Hwf groupId Hnin Hroot) in Hstart.
    injection Hstart as <-. exists (gs ++ [Group groupId [] []]).
    split; [reflexivity |]. split; [| split; [| split]].
    + eexists. apply find_new_root, Hnin.
    + rewrite forest_ids_app. change (Tree.forest_ids [Group groupId [] []]) with [groupId].
      symmetry. apply Permutation_cons_append.
    + destruct Hwf as [_ Hq]. rewrite forallb_app, Hq. reflexivity.
    + left. auto.
  - destruct (decide (cursor ∈ Tree.forest_ids gs)) as [Hcur | Hlost].
    + rewrite (startGroup_child gs cursor _ Hwf groupId Hnin Hne Hcur) in Hstart.
      injection Hstart as <-. exists (Tree.add_child cursor (Group groupId [] []) gs).
      destruct Hwf as [Hnd Hq].
      split; [reflexivity |]. split; [| split; [| split]].
      * apply find_new; assumption.
      * apply add_child_ids; assumption.
      * apply forallb_add_child_quiet, Hq.
      * right. auto.
    + rewrite (startGroup_lost_cursor gs cursor _ Hwf groupId Hnin Hne Hlost) in Hstart.
      discriminate.
Qed.

Lemma addRequest_returns gs cursor count (r : Request.t) this' :
  Tree.well_formed gs ->
  Rcoil.addRequest (Request.to_js r)
    {| Rcoil.calls := map Tree.to_js gs; Rcoil._tmpPositionId := cursor;
       Rcoil._totalRequestGroups := count |} = (this', Returned tt) ->
  cursor ∈ Tree.forest_ids gs
  /\ this' = {| Rcoil.calls := map Tree.to_js (Tree.add_request cursor r gs);
                Rcoil._tmpPositionId := cursor; Rcoil._totalRequestGroups := count |}.
Proof.
  intros Hwf Hadd.
  destruct (decide (cursor = "")) as [Hroot | Hne].
  { rewrite addRequest_no_group in Hadd by exact Hroot. discriminate. }
  destruct (decide (cursor ∈ Tree.forest_ids gs)) as [Hcur | Hlost].
  - rewrite (addRequest_appends gs cursor _ Hwf r Hne Hcur) in Hadd.
    injection Hadd as <-. auto.
  - rewrite (addRequest_lost_cursor gs cursor _ Hwf r Hne Hlost) in Hadd. discriminate.
Qed.

(** The coils of the repository's builder test are built coils. *)
Lemma built_coil1 : built CoilTest.coil1.
Proof. exact (built_startGroup Rcoil.new "testGroup" CoilTest.coil1 built_new eq_refl). Qed.

Lemma built_coil2 : built CoilTest.coil2.
Proof.
  exact (built_addRequest CoilTest.coil1 CoilTest.request CoilTest.coil2
           built_coil1 eq_refl eq_refl).
Qed.

Lemma built_coil3 : built CoilTest.coil3.
Proof.
  exact (built_startGroup CoilTest.coil2 "secondGroup" CoilTest.coil3 built_coil2 eq_refl).
Qed.

(** X4. Every coil built from [new Rcoil()] by calls that return (with
    requests that carry no [id]) holds a forest of group objects whose
    ids are all different, and [requestGroupsCount()] is the number of
    groups in that forest, at any depth. *)
Theorem X4_built_coil_counts_groups (this : Rcoil.t) :
  built this ->
  exists gs,
    Rcoil.calls this = map Tree.to_js gs
    /\ NoDup (Tree.forest_ids gs)
    /\ forallb Tree.all_quiet gs = true
    /\ Rcoil.requestGroupsCount this = length (Tree.forest_ids gs).
Proof.
  intros Hb. destruct (built_typed this Hb) as (gs & Hcalls & [Hnd Hq] & Hcount).
  exists gs. rewrite Hcount, forest_size_ids. auto.
Qed.

Lemma X4_built_coil_counts_groups_witness :
  exists gs,
    Rcoil.calls CoilTest.coil3 = map Tree.to_js gs
    /\ NoDup (Tree.forest_ids gs)
    /\ forallb Tree.all_quiet gs = true
    /\ Rcoil.requestGroupsCount CoilTest.coil3 = length (Tree.forest_ids gs).
Proof. exact (X4_built_coil_counts_groups CoilTest.coil3 built_coil3). Defined.

(** X5. On a forest of groups whose requests carry no [id],
    [_findRequestGroup] looks groups up by their id: it returns [null]
    exactly for the ids no group has, and otherwise the object of a group
    with that id, which lies in the tree at the place the walk reached. *)
Theorem X5_findRequestGroup_by_group_id (gs : list RequestGroup) (groupId : string) :
  forallb Tree.all_quiet gs = true ->
  match Rcoil._findRequestGroup (JArr (map Tree.to_js gs)) groupId with
  | Some (p, v) =>
      groupId ∈ Tree.forest_ids gs
      /\ node_at p (JArr (map Tree.to_js gs)) = Some v
      /\ exists g, v = Tree.to_js g /\ Tree.id g = groupId
  | None => groupId ∉ Tree.forest_ids gs
  end.
Proof.
  intros Hq.
  destruct (Rcoil._findRequestGroup (JArr (map Tree.to_js gs)) groupId) as [[p v] |] eqn:Hfind.
  - destruct (findRequestGroup_sound _ _ _ _ Hfind) as (_ & Hnode & _).
    rewrite findRequestGroup_typed in Hfind by exact Hq.
    destruct (Tree.find groupId gs) as [[q g] |] eqn:Htyped; [| discriminate].
    cbn in Hfind. injection Hfind as <- <-.
    split; [| split; [exact Hnode |]].
    + destruct (decide (groupId ∈ Tree.forest_ids gs)) as [Hin | Hnin]; [exact Hin |].
      apply find_none_iff in Hnin. congruence.
    + exists g. split; [reflexivity | eapply find_id, Htyped].
  - rewrite findRequestGroup_typed in Hfind by exact Hq.
    destruct (Tree.find groupId gs) as [[q g] |] eqn:Htyped; [discriminate |].
    apply find_none_iff, Htyped.
Qed.

Lemma X5_findRequestGroup_by_group_id_witness :
  match Rcoil._findRequestGroup (JArr (map Tree.to_js Fixture.two_groups)) "group2" with
  | Some (p, v) =>
      "group2" ∈ Tree.forest_ids Fixture.two_groups
      /\ node_at p (JArr (map Tree.to_js Fixture.two_groups)) = Some v
      /\ exists g, v = Tree.to_js g /\ Tree.id g = "group2"
  | None => "group2" ∉ Tree.forest_ids Fixture.two_groups
  end.
Proof. exact (X5_findRequestGroup_by_group_id Fixture.two_groups "group2" eq_refl). Defined.

(** X6. On a built coil, after a call [startGroup(id)] that returns:
    [id] was not found before the call; [_findRequestGroup] now finds,
    under [id], a group object with no request and no child; every id that
    was found before is still found; the counter has grown by one and the
    cursor is [id].  The new group is the last root when the cursor was
    empty; otherwise the group found under the old cursor is the one found
    there before, at the same place, with the new group appended to its
    children and its requests as they were. *)
Theorem X6_startGroup_then_lookup (this this' : Rcoil.t) (groupId : string) :
  built this ->
  Rcoil.startGroup groupId this = (this', Returned tt) ->
  Rcoil._findRequestGroup (JArr (Rcoil.calls this)) groupId = None
  /\ (exists p,
         Rcoil._findRequestGroup (JArr (Rcoil.calls this')) groupId
         = Some (p, Rcoil._createEmptyRequestGroup groupId))
  /\ (forall other,
         Rcoil._findRequestGroup (JArr (Rcoil.calls this)) other <> None ->
         Rcoil._findRequestGroup (JArr (Rcoil.calls this')) other <> None)
  /\ Rcoil.requestGroupsCount this' = S (Rcoil.requestGroupsCount this)
  /\ Rcoil._tmpPositionId this' = groupId
  /\ (Rcoil._tmpPositionId this = "" ->
      Rcoil.calls this' = Rcoil.calls this ++ [Rcoil._createEmptyRequestGroup groupId])
  /\ (Rcoil._tmpPositionId this <> "" ->
      exists p g,
        Rcoil._findRequestGroup (JArr (Rcoil.calls this)) (Rcoil._tmpPositionId this)
        = Some (p, Tree.to_js g)
        /\ Rcoil._findRequestGroup (JArr (Rcoil.calls this')) (Rcoil._tmpPositionId this)
           = Some (p, Tree.to_js (Group (Tree.id g) (Tree.requests g)
                                    (Tree.children g ++ [Group groupId [] []])))).
Proof.
  intros Hb Hstart.
  destruct (built_typed this Hb) as (gs & Hcalls & Hwf & _).
  destruct this as [calls cursor count]. cbn in Hcalls. subst calls.
  destruct (startGroup_returns _ _ _ _ _ Hwf Hstart)
    as (Hfresh & gs' & -> & [p Hnew] & Hperm & Hq' & Hshape).
  destruct Hwf as [_ Hq].
  cbn [Rcoil.calls Rcoil.requestGroupsCount Rcoil._totalRequestGroups Rcoil._tmpPositionId].
  split; [| split; [| split; [| split; [| split; [| split]]]]]; try reflexivity.
  - rewrite findRequestGroup_typed by exact Hq.
    apply find_none_iff in Hfresh. rewrite Hfresh. reflexivity.
  - exists p. rewrite findRequestGroup_typed by exact Hq'. rewrite Hnew. reflexivity.
  - intros other. rewrite !findRequestGroup_found_iff by assumption.
    intros Hin. rewrite Hperm. apply list_elem_of_further, Hin.
  - intros Hroot. destruct Hshape as [[_ ->] | [Hne _]]; [| contradiction].
    rewrite map_app. reflexivity.
  - intros Hne. destruct Hshape as [[Hroot _] | (_ & Hcur & ->)]; [contradiction |].
    destruct (find_some_of_elem _ _ Hcur) as (q & g & Hfind & _).
    exists q, g. rewrite findRequestGroup_typed by exact Hq.
    rewrite findRequestGroup_typed by exact Hq'.
    unfold Tree.add_child. rewrite find_update by (intros [? ? ?]; reflexivity).
    rewrite Hfind. split; reflexivity.
Qed.

Lemma X6_startGroup_then_lookup_witness :
  Rcoil._findRequestGroup (JArr (Rcoil.calls CoilTest.coil2)) "secondGroup" = None
  /\ (exists p,
         Rcoil._findRequestGroup (JArr (Rcoil.calls CoilTest.coil3)) "secondGroup"
         = Some (p, Rcoil._createEmptyRequestGroup "secondGroup"))
  /\ Rcoil.requestGroupsCount CoilTest.coil3 = S (Rcoil.requestGroupsCount CoilTest.coil2)
  /\ (exists p g,
         Rcoil._findRequestGroup (JArr (Rcoil.calls CoilTest.coil2)) "testGroup"
         = Some (p, Tree.to_js g)
         /\ Rcoil._findRequestGroup (JArr (Rcoil.calls CoilTest.coil3)) "testGroup"
            = Some (p, Tree.to_js (Group (Tree.id g) (Tree.requests g)
                                     (Tree.children g ++ [Group "secondGroup" [] []])))).
Proof.
  destruct (X6_startGroup_then_lookup CoilTest.coil2 CoilTest.coil3 "secondGroup"
              built_coil2 eq_refl) as (Hfresh & Hnew & _ & Hcount & _ & _ & Hparent).
  split; [exact Hfresh |]. split; [exact Hnew |]. split; [exact Hcount |].
  apply Hparent. discriminate.
Defined.

(** X7. On a built coil, after a call [addRequest(r)] that returns (for
    a request that carries no [id]): the group found under the cursor is
    the one found before the call, at the same place, with [r] appended
    to its requests and its children as they were; the ids found are the
    same as before; counter and cursor have not changed. *)
Theorem X7_addRequest_then_lookup (this this' : Rcoil.t) (r : Request.t) :
  built this ->
  Tree.quiet r = true ->
  Rcoil.addRequest (Request.to_js r) this = (this', Returned tt) ->
  (exists p g,
      Rcoil._findRequestGroup (JArr (Rcoil.calls this)) (Rcoil._tmpPositionId this)
      = Some (p, Tree.to_js g)
      /\ Rcoil._findRequestGroup (JArr (Rcoil.calls this')) (Rcoil._tmpPositionId this)
         = Some (p, Tree.to_js (Group (Tree.id g) (Tree.requests g ++ [r]) (Tree.children g))))
  /\ (forall other,
         Rcoil._findRequestGroup (JArr (Rcoil.calls this')) other = None
         <-> Rcoil._findRequestGroup (JArr (Rcoil.calls this)) other = None)
  /\ Rcoil.requestGroupsCount this' = Rcoil.requestGroupsCount this
  /\ Rcoil._tmpPositionId this' = Rcoil._tmpPositionId this.
Proof.
  intros Hb Hr Hadd.
  destruct (built_typed this Hb) as (gs & Hcalls & Hwf & _).
  destruct this as [calls cursor count]. cbn in Hcalls. subst calls.
  destruct (addRequest_returns _ _ _ _ _ Hwf Hadd) as (Hcur & ->).
  destruct Hwf as [Hnd Hq].
  destruct (add_request_forest cursor r gs) as (Hids & _ & Hquiet).
  specialize (Hquiet Hr Hq).
  cbn [Rcoil.calls Rcoil.requestGroupsCount Rcoil._totalRequestGroups Rcoil._tmpPositionId].
  split; [| split; [| split]]; try reflexivity.
  - destruct (find_some_of_elem _ _ Hcur) as (p & g & Hfind & _).
    exists p, g. rewrite !findRequestGroup_typed by assumption.
    unfold Tree.add_request. rewrite find_update by (intros [? ? ?]; reflexivity).
    rewrite Hfind. split; reflexivity.
  - intros other. rewrite !findRequestGroup_typed by assumption.
    assert (Hn : forall hit, typed_hit hit = None <-> hit = None)
      by (intros [[? ?] |]; cbn; split; congruence).
    rewrite !Hn, !find_none_iff, Hids. reflexivity.
Qed.

Lemma X7_addRequest_then_lookup_witness :
  (exists p g,
      Rcoil._findRequestGroup (JArr (Rcoil.calls CoilTest.coil1)) "testGroup"
      = Some (p, Tree.to_js g)
      /\ Rcoil._findRequestGroup (JArr (Rcoil.calls CoilTest.coil2)) "testGroup"
         = Some (p, Tree.to_js (Group (Tree.id g) (Tree.requests g ++ [CoilTest.request])
                                  (Tree.children g))))
  /\ Rcoil.requestGroupsCount CoilTest.coil2 = Rcoil.requestGroupsCount CoilTest.coil1.
Proof.
  destruct (X7_addRequest_then_lookup CoilTest.coil1 CoilTest.coil2 CoilTest.request
              built_coil1 eq_refl eq_refl) as (Hfound & _ & Hcount & _).
  split; [exact Hfound | exact Hcount].
Defined.





(* ===================================================================== *)
(** * Further properties of the requests *)
(* ===================================================================== *)

Lemma createHttpRequest_object `{UrlModules} (httpVerb : string) (c : cls)
    (props : list (string * jsval)) (this : Request.t) :
  Request._createHttpRequest httpVerb (JObj c props) this
  = if forallb (JS.hasOwnProperty (JObj c props)) ["host"; "path"; "protocol"; "method"]
    then ({| Request.type := "http"; Request.name := Request.name this;
             Request.settings := JObj c props;
             Request.inputFunc := Request.inputFunc this;
             Request.outputFunc := Request.outputFunc this |}, Returned tt)
    else ({| Request.type := "http"; Request.name := Request.name this;
             Request.settings := JObj PlainObject [];
             Request.inputFunc := Request.inputFunc this;
             Request.outputFunc := Request.outputFunc this |},
          Thrown (Error "Invalid request configuration. Missing parameters")).
Proof.
  unfold Request._createHttpRequest. cbn [JS.typeof_object forallb].
  destruct (JS.hasOwnProperty (JObj c props) "host");
    destruct (JS.hasOwnProperty (JObj c props) "path");
    destruct (JS.hasOwnProperty (JObj c props) "protocol");
    destruct (JS.hasOwnProperty (JObj c props) "method"); reflexivity.
Qed.

Lemma setHttpRequest_object `{UrlModules} (httpVerb : string) (c : cls)
    (props : list (string * jsval)) (this : Request.t) :
  Request.setHttpRequest httpVerb (JObj c props) this
  = if forallb (JS.hasOwnProperty (JObj c props)) ["host"; "path"; "protocol"; "method"]
    then Returned {| Request.type := "http"; Request.name := Request.name this;
                     Request.settings := JObj c props;
                     Request.inputFunc := Request.inputFunc this;
                     Request.outputFunc := Request.outputFunc this |}
    else Thrown (Error "Invalid request configuration. Missing parameters").
Proof.
  unfold Request.setHttpRequest. rewrite createHttpRequest_object.
  destruct (forallb _ _); reflexivity.
Qed.

Lemma setHttpRequest_url `{UrlModules} (httpVerb s : string) (this : Request.t) :
  Request.setHttpRequest httpVerb (JStr s) this
  = if isUri (JStr s)
    then Returned
           {| Request.type := "http"; Request.name := Request.name this;
              Request.settings :=
                JObj PlainObject
                  [("host", JS.of_option (url_hostname (url_parse s)));
                   ("path", JStr (default "" (url_path (url_parse s)) +:+
                                  default "" (url_hash (url_parse s))));
                   ("port", JS.of_option (url_port (url_parse s)));
                   ("protocol", JS.of_option (url_protocol (url_parse s)));
                   ("method", JStr (JS.toUpperCase httpVerb))];
              Request.inputFunc := Request.inputFunc this;
              Request.outputFunc := Request.outputFunc this |}
    else Thrown (Error ("Invalid request url: " +:+ s)).
Proof.
  unfold Request.setHttpRequest, Request._createHttpRequest. cbn [JS.typeof_object].
  destruct (isUri (JStr s)); reflexivity.
Qed.

(** A call of [_createHttpRequest] that throws has assigned [type] and
    the empty [settings] before. *)
Lemma createHttpRequest_throws `{UrlModules} (httpVerb : string) (config : jsval)
    (this this' : Request.t) (e : exn) :
  Request._createHttpRequest httpVerb config this = (this', Thrown e) ->
  this' = {| Request.type := "http"; Request.name := Request.name this;
             Request.settings := JObj PlainObject [];
             Request.inputFunc := Request.inputFunc this;
             Request.outputFunc := Request.outputFunc this |}.
Proof.
  unfold Request._createHttpRequest.
  destruct config as [| | s | f | c ps | es]; cbn [JS.typeof_object];
    repeat match goal with
           | |- context [if ?b then _ else _] => destruct b
           end;
    first [intros [= <- _]; reflexivity | discriminate].
Qed.

Lemma append_assoc (a b c : string) : (a +:+ b) +:+ c = a +:+ (b +:+ c).
Proof.
  induction a as [| x a IH]; [reflexivity |].
  change (String x ((a +:+ b) +:+ c) = String x (a +:+ (b +:+ c))). f_equal. exact IH.
Qed.

(** X10. With a configuration object that has no own property named
    [hasOwnProperty], every factory and every
    [setHttpRequest(verb, config)] does the same, whatever the verb: when
    the object has the own properties [host], [path], [protocol] and
    [method] it becomes the settings of the request as it is, its own
    [method] included; otherwise the call throws "Invalid request
    configuration. Missing parameters", as it does for an array; and for
    [null] the call throws a [TypeError]. *)
Theorem X10_config_object_ignores_verb `{UrlModules} (c : cls)
    (props : list (string * jsval)) :
  JS.lookup_prop "hasOwnProperty" props = None ->
  let config := JObj c props in
  let complete :=
    forallb (JS.hasOwnProperty config) ["host"; "path"; "protocol"; "method"] in
  (forall httpVerb this,
      Request.setHttpRequest httpVerb config this
      = if complete
        then Returned {| Request.type := "http"; Request.name := Request.name this;
                         Request.settings := config;
                         Request.inputFunc := Request.inputFunc this;
                         Request.outputFunc := Request.outputFunc this |}
        else Thrown (Error "Invalid request configuration. Missing parameters"))
  /\ (forall name,
        Request.post name config = Request.get name config
        /\ Request.put name config = Request.get name config
        /\ Request.patch name config = Request.get name config
        /\ Request.head name config = Request.get name config
        /\ Request.delete name config = Request.get name config
        /\ Request.options name config = Request.get name config)
  /\ (forall httpVerb this, Request.setHttpRequest httpVerb JNull this = Thrown TypeError)
  /\ (forall httpVerb this es,
        Request.setHttpRequest httpVerb (JArr es) this
        = Thrown (Error "Invalid request configuration. Missing parameters")).
Proof.
  intros _ config complete.
  split; [intros; apply setHttpRequest_object |]. split; [| split].
  - intros name.
    unfold Request.post, Request.put, Request.patch, Request.head, Request.delete,
      Request.options, Request.get, Request.setPost, Request.setPut, Request.setPatch,
      Request.setHead, Request.setDelete, Request.setOptions, Request.setGet, config.
    rewrite !setHttpRequest_object. repeat split.
  - reflexivity.
  - reflexivity.
Qed.

Lemma X10_config_object_ignores_verb_witness :
  @Request.post SimpleUrl.modules "test" (Request.settings CoilTest.request)
  = Returned CoilTest.request
  /\ @Request.setHttpRequest SimpleUrl.modules "delete"
       (JObj PlainObject [("host", JStr "api.com"); ("method", JStr "GET")])
       (Request.new "test")
     = Thrown (Error "Invalid request configuration. Missing parameters").
Proof.
  split.
  - destruct (@X10_config_object_ignores_verb SimpleUrl.modules PlainObject
                [("host", JStr "api.com"); ("path", JStr "/test"); ("port", JNull);
                 ("protocol", JStr "http:"); ("method", JStr "GET")] eq_refl)
      as (Hset & _).
    exact (Hset "POST" (Request.new "test")).
  - destruct (@X10_config_object_ignores_verb SimpleUrl.modules PlainObject
                [("host", JStr "api.com"); ("method", JStr "GET")] eq_refl)
      as (Hset & _).
    exact (Hset "delete" (Request.new "test")).
Defined.

(** X11. A call of [_createHttpRequest] that throws does not leave the
    request as it was: its [type] is ["http"] and its [settings] are the
    empty object, whatever they were before; name and callbacks are
    kept. *)
Theorem X11_failed_setup_resets_request `{UrlModules} (httpVerb : string) (config : jsval)
    (this this' : Request.t) (e : exn) :
  Request._createHttpRequest httpVerb config this = (this', Thrown e) ->
  this' = {| Request.type := "http"; Request.name := Request.name this;
             Request.settings := JObj PlainObject [];
             Request.inputFunc := Request.inputFunc this;
             Request.outputFunc := Request.outputFunc this |}.
Proof. apply createHttpRequest_throws. Qed.

Lemma X11_failed_setup_resets_request_witness :
  fst (@Request._createHttpRequest SimpleUrl.modules "GET" (JStr "not a url") Fixture.job)
  = {| Request.type := "http"; Request.name := "job";
       Request.settings := JObj PlainObject [];
       Request.inputFunc := JFun 3; Request.outputFunc := JNull |}.
Proof.
  apply (@X11_failed_setup_resets_request SimpleUrl.modules "GET" (JStr "not a url")
           Fixture.job _ (Error "Invalid request url: not a url")).
  reflexivity.
Defined.

Lemma upper_ascii_code c :
  nat_of_ascii (JS.upper_ascii c)
  = if (97 <=? nat_of_ascii c)%nat && (nat_of_ascii c <=? 122)%nat
    then nat_of_ascii c - 32 else nat_of_ascii c.
Proof.
  unfold JS.upper_ascii.
  destruct ((97 <=? nat_of_ascii c)%nat && (nat_of_ascii c <=? 122)%nat) eqn:Hc;
    [| reflexivity].
  apply nat_ascii_embedding.
  apply andb_true_iff in Hc. destruct Hc as [_ Hc]. apply Nat.leb_le in Hc. lia.
Qed.

Lemma toUpperCase_length s : String.length (JS.toUpperCase s) = String.length s.
Proof. induction s as [| c s IH]; [reflexivity |]. cbn. rewrite IH. reflexivity. Qed.

Lemma toUpperCase_get s i :
  String.get i (JS.toUpperCase s) = JS.upper_ascii <$> String.get i s.
Proof.
  revert i. induction s as [| c s IH]; intros i; [reflexivity |].
  destruct i as [| i]; [reflexivity |]. cbn [JS.toUpperCase String.get]. apply IH.
Qed.

(** X12. The seven factories on a string: when [validUrl.isUri]
    accepts it, each returns a request of type ["http"] whose settings
    hold the host name, path (with the hash), port and protocol that
    [url.parse] gives, and as [method] the verb of the factory; when it
    does not, each throws "Invalid request url: " followed by the string.
    [setHttpRequest(verb, url)] with a verb of ASCII characters stores a
    verb of the same length in which each letter [a] to [z] (codes 97
    to 122) has become the letter 32 codes below, [A] to [Z], and every
    other character is as it was. *)
Theorem X12_verb_factories `{UrlModules} (name s : string) :
  let made := fun verb =>
    if isUri (JStr s)
    then Returned
           {| Request.type := "http"; Request.name := name;
              Request.settings :=
                JObj PlainObject
                  [("host", JS.of_option (url_hostname (url_parse s)));
                   ("path", JStr (default "" (url_path (url_parse s)) +:+
                                  default "" (url_hash (url_parse s))));
                   ("port", JS.of_option (url_port (url_parse s)));
                   ("protocol", JS.of_option (url_protocol (url_parse s)));
                   ("method", JStr verb)];
              Request.inputFunc := JNull; Request.outputFunc := JNull |}
    else Thrown (Error ("Invalid request url: " +:+ s)) in
  Request.get name (JStr s) = made "GET"
  /\ Request.post name (JStr s) = made "POST"
  /\ Request.put name (JStr s) = made "PUT"
  /\ Request.patch name (JStr s) = made "PATCH"
  /\ Request.head name (JStr s) = made "HEAD"
  /\ Request.delete name (JStr s) = made "DELETE"
  /\ Request.options name (JStr s) = made "OPTIONS"
  /\ (forall httpVerb,
        JS.is_ascii httpVerb = true ->
        exists verb,
          Request.setHttpRequest httpVerb (JStr s) (Request.new name) = made verb
          /\ String.length verb = String.length httpVerb
          /\ forall i c,
               String.get i httpVerb = Some c ->
               exists c',
                 String.get i verb = Some c'
                 /\ nat_of_ascii c'
                    = if (97 <=? nat_of_ascii c)%nat && (nat_of_ascii c <=? 122)%nat
                      then nat_of_ascii c - 32 else nat_of_ascii c).
Proof.
  intros made.
  unfold Request.post, Request.put, Request.patch, Request.head, Request.delete,
    Request.options, Request.get, Request.setPost, Request.setPut, Request.setPatch,
    Request.setHead, Request.setDelete, Request.setOptions, Request.setGet.
  rewrite !setHttpRequest_url. unfold made.
  repeat split; try reflexivity.
  intros httpVerb _. exists (JS.toUpperCase httpVerb).
  split; [apply setHttpRequest_url |]. split; [apply toUpperCase_length |].
  intros i c Hc. exists (JS.upper_ascii c). split; [| apply upper_ascii_code].
  rewrite toUpperCase_get, Hc. reflexivity.
Qed.

Lemma X12_verb_factories_witness :
  exists verb,
    @Request.setHttpRequest SimpleUrl.modules "pAtch" (JStr "http://api.com/test")
      (Request.new "test")
    = Returned
        {| Request.type := "http"; Request.name := "test";
           Request.settings :=
             JObj PlainObject
               [("host", JStr "api.com"); ("path", JStr "/test"); ("port", JNull);
                ("protocol", JStr "http:"); ("method", JStr verb)];
           Request.inputFunc := JNull; Request.outputFunc := JNull |}
    /\ String.length verb = 5
    /\ exists c', String.get 0 verb = Some c' /\ nat_of_ascii c' = 80.
Proof.
  destruct (@X12_verb_factories SimpleUrl.modules "test" "http://api.com/test")
    as (_ & _ & _ & _ & _ & _ & _ & Hverb).
  destruct (Hverb "pAtch" eq_refl) as (verb & Hset & Hlen & Hchars).
  exists verb. split; [exact Hset | split; [exact Hlen |]].
  exact (Hchars 0 "p"%char eq_refl).
Defined.

(** X13. [Request.lambda(name, arn, qualifier)] returns a request of
    type ["lambda"] whose settings hold [arn] as [function], unchecked,
    and as [qualifier] the string ["$LATEST"] when the qualifier passed is
    [undefined], [null] or the empty string, and the qualifier passed when
    it is any other string: the qualifier stored is never empty. *)
Theorem X13_lambda_qualifier (name : string) (functionArn : jsval) :
  let made := fun qualifier =>
    {| Request.type := "lambda"; Request.name := name;
       Request.settings :=
         JObj PlainObject [("function", functionArn); ("qualifier", JStr qualifier)];
       Request.inputFunc := JNull; Request.outputFunc := JNull |} in
  Request.lambda name functionArn JUndef = made "$LATEST"
  /\ Request.lambda name functionArn JNull = made "$LATEST"
  /\ (forall q, Request.lambda name functionArn (JStr q)
                = made (if String.eqb q "" then "$LATEST" else q))
  /\ (forall q, JS.get (Request.settings (Request.lambda name functionArn (JStr q))) "qualifier"
                <> JStr "").
Proof.
  intros made. split; [reflexivity |]. split; [reflexivity |]. split.
  - intros q. unfold Request.lambda, Request.setLambda, Request._createLambdaRequest.
    cbn. destruct (String.eqb q ""); reflexivity.
  - intros q. unfold Request.lambda, Request.setLambda, Request._createLambdaRequest.
    cbn. destruct (String.eqb_spec q "") as [-> | Hq]; cbn; [discriminate | congruence].
Qed.

(** X14. [getUrl()] on the requests the factories make.  For a request
    made from a URL string it is protocol, ["//"], host name, [":"], port
    and path as [url.parse] gave them, where a part that [url.parse] left
    [null] reads ["null"]: a URL without a port comes back with [":null"]
    in it.  For a Lambda request it is the ARN, [":"] and the qualifier
    stored.  For a request that was never set up it is [undefined], and
    for one whose set-up threw it is the string
    ["undefined//undefined:undefinedundefined"]. *)
Theorem X14_getUrl `{UrlModules} (name : string) :
  (forall s r,
      Request.get name (JStr s) = Returned r ->
      Request.getUrl r
      = Some (Returned (JStr
          (default "null" (url_protocol (url_parse s)) +:+ "//" +:+
           default "null" (url_hostname (url_parse s)) +:+ ":" +:+
           default "null" (url_port (url_parse s)) +:+
           default "" (url_path (url_parse s)) +:+ default "" (url_hash (url_parse s))))))
  /\ (forall arn q,
        Request.getUrl (Request.lambda name (JStr arn) (JStr q))
        = Some (Returned (JStr (arn +:+ ":" +:+ (if String.eqb q "" then "$LATEST" else q)))))
  /\ Request.getUrl (Request.new name) = Some (Returned JUndef)
  /\ (forall config r e,
        Request._createHttpRequest "GET" config (Request.new name) = (r, Thrown e) ->
        Request.getUrl r = Some (Returned (JStr "undefined//undefined:undefinedundefined"))).
Proof.
  split; [| split; [| split]].
  - intros s r. unfold Request.get, Request.setGet. rewrite setHttpRequest_url.
    destruct (isUri (JStr s)); [| discriminate]. intros [= <-].
    unfold Request.getUrl. cbn.
    destruct (url_protocol (url_parse s)), (url_hostname (url_parse s)),
      (url_port (url_parse s)); cbn; rewrite ?append_assoc; reflexivity.
  - intros arn q. unfold Request.lambda, Request.setLambda, Request._createLambdaRequest.
    cbn. destruct (String.eqb q ""); cbn; rewrite ?append_assoc; reflexivity.
  - reflexivity.
  - intros config r e Hthrow. apply createHttpRequest_throws in Hthrow. subst r.
    reflexivity.
Qed.

Lemma X14_getUrl_witness :
  Request.getUrl CoilTest.request = Some (Returned (JStr "http://api.com:null/test")).
Proof.
  destruct (@X14_getUrl SimpleUrl.modules "test") as (Hurl & _).
  apply (Hurl "http://api.com/test"). reflexivity.
Defined.

(** X15. Setting a request up again.  [setHttpRequest] reads nothing of
    the earlier [type] and [settings]: after an earlier [setLambda], or an
    earlier [setHttpRequest] that returned, it gives what it gives on the
    request as first made.  [onInput] commutes with both set-ups. *)
Theorem X15_reconfiguration `{UrlModules} (httpVerb : string) (config : jsval)
    (this : Request.t) :
  (forall functionArn qualifier,
      Request.setHttpRequest httpVerb config (Request.setLambda functionArn qualifier this)
      = Request.setHttpRequest httpVerb config this)
  /\ (forall verb0 config0,
        match Request.setHttpRequest verb0 config0 this with
        | Returned earlier =>
            Request.setHttpRequest httpVerb config earlier
            = Request.setHttpRequest httpVerb config this
        | Thrown _ => True
        end)
  /\ (forall inputFunc,
        match Request.setHttpRequest httpVerb config this with
        | Returned made =>
            Request.setHttpRequest httpVerb config (Request.onInput inputFunc this)
            = Returned (Request.onInput inputFunc made)
        | Thrown e =>
            Request.setHttpRequest httpVerb config (Request.onInput inputFunc this) = Thrown e
        end)
  /\ (forall inputFunc functionArn qualifier,
        Request.setLambda functionArn qualifier (Request.onInput inputFunc this)
        = Request.onInput inputFunc (Request.setLambda functionArn qualifier this)).
Proof.
  assert (Hdep : forall a b : Request.t,
             Request.name a = Request.name b ->
             Request.inputFunc a = Request.inputFunc b ->
             Request.outputFunc a = Request.outputFunc b ->
             Request._createHttpRequest httpVerb config a
             = Request._createHttpRequest httpVerb config b).
  { intros a b Hn Hi Ho. unfold Request._createHttpRequest, Request.with_settings,
      Request.with_type. cbn. rewrite Hn, Hi, Ho. reflexivity. }
  split; [| split; [| split]].
  - intros functionArn qualifier. unfold Request.setHttpRequest.
    rewrite (Hdep (Request.setLambda functionArn qualifier this) this); reflexivity.
  - intros verb0 config0.
    destruct (Request.setHttpRequest verb0 config0 this) as [earlier | e] eqn:Hearlier;
      [| exact I].
    unfold Request.setHttpRequest in Hearlier |- *.
    destruct (Request._createHttpRequest verb0 config0 this) as [this0 [[] | e]] eqn:Hc;
      [| discriminate].
    injection Hearlier as <-.
    assert (Hfields : Request.name this0 = Request.name this
                      /\ Request.inputFunc this0 = Request.inputFunc this
                      /\ Request.outputFunc this0 = Request.outputFunc this).
    { revert Hc. unfold Request._createHttpRequest.
      destruct config0 as [| | s | f | c ps | es]; cbn [JS.typeof_object];
        repeat match goal with
               | |- context [if ?b then _ else _] => destruct b
               end;
        first [intros [= <-]; auto | discriminate]. }
    destruct Hfields as (Hn & Hi & Ho). rewrite (Hdep this0 this); auto.
  - intros inputFunc. unfold Request.setHttpRequest, Request._createHttpRequest.
    destruct config as [| | s | f | c ps | es]; cbn [JS.typeof_object];
      repeat match goal with
             | |- context [if ?b then _ else _] => destruct b
             end; reflexivity.
  - reflexivity.
Qed.

(* ===================================================================== *)
(** * Further properties of the execution context *)
(* ===================================================================== *)

Section ContextHistories.
Context {Req Res : Type}.
Implicit Types this : ExecutionContext.t Req Res.

Lemma requestData_step this g n (op : context_op Req Res) :
  ExecutionContext.tracked this = true -> plain_keys op = true -> JS.plain n = true ->
  ExecutionContext.requestData g n (apply_op this op)
  = last_request g n [op] (ExecutionContext.requestData g n this).
Proof.
  intros Ht Hop Hn.
  destruct op as [g0 | g0 | r | r | g' n' d | g' n' d]; cbn; try reflexivity.
  - destruct (plain_keys_set_request _ _ _ Hop). apply requestData_set; assumption.
  - destruct (plain_keys_set_response _ _ _ Hop). apply requestData_setResponseData; assumption.
Qed.

Lemma responseData_step this g n (op : context_op Req Res) :
  ExecutionContext.tracked this = true -> plain_keys op = true -> JS.plain n = true ->
  ExecutionContext.responseData g n (apply_op this op)
  = last_response g n [op] (ExecutionContext.responseData g n this).
Proof.
  intros Ht Hop Hn.
  destruct op as [g0 | g0 | r | r | g' n' d | g' n' d]; cbn; try reflexivity.
  - destruct (plain_keys_set_request _ _ _ Hop). apply responseData_setRequestData; assumption.
  - destruct (plain_keys_set_response _ _ _ Hop). apply responseData_set; assumption.
Qed.

Lemma requestData_history (ops : list (context_op Req Res)) this g n :
  ExecutionContext.tracked this = true -> forallb plain_keys ops = true ->
  JS.plain n = true ->
  ExecutionContext.requestData g n (fold_left apply_op ops this)
  = last_request g n ops (ExecutionContext.requestData g n this).
Proof.
  intros Ht Hops Hn. revert this Ht Hops.
  induction ops as [| op ops IH]; intros this Ht Hops; [reflexivity |].
  cbn [forallb] in Hops. apply andb_true_iff in Hops. destruct Hops as [Hop Hops].
  cbn [fold_left]. rewrite IH by (try apply apply_op_tracked; assumption).
  rewrite requestData_step by assumption. reflexivity.
Qed.

Lemma responseData_history (ops : list (context_op Req Res)) this g n :
  ExecutionContext.tracked this = true -> forallb plain_keys ops = true ->
  JS.plain n = true ->
  ExecutionContext.responseData g n (fold_left apply_op ops this)
  = last_response g n ops (ExecutionContext.responseData g n this).
Proof.
  intros Ht Hops Hn. revert this Ht Hops.
  induction ops as [| op ops IH]; intros this Ht Hops; [reflexivity |].
  cbn [forallb] in Hops. apply andb_true_iff in Hops. destruct Hops as [Hop Hops].
  cbn [fold_left]. rewrite IH by (try apply apply_op_tracked; assumption).
  rewrite responseData_step by assumption. reflexivity.
Qed.

(** A request record, once stored, is never removed. *)
Lemma last_request_stays (ops : list (context_op Req Res)) g n (d : Req) :
  exists d', last_request g n ops (Some (ExecutionContext.Stored d))
             = Some (ExecutionContext.Stored d').
Proof.
  revert d. induction ops as [| op ops IH]; intros d; [exists d; reflexivity |].
  unfold last_request in *. cbn [fold_left].
  destruct op; try apply IH.
  destruct (decide _); apply IH.
Qed.

(** Under plain keys a read finds the own property, or [null]. *)
Lemma read_own_record {A : Type} g n (t : ExecutionContext.table A) groups :
  t = ExecutionContext.Own groups -> JS.plain g = true -> JS.plain n = true ->
  ExecutionContext.read g n t = ExecutionContext.Stored <$> own_record g n t.
Proof.
  intros -> Hg Hn. unfold ExecutionContext.read, own_record.
  rewrite (plain_inherited _ Hn), (plain_inherited _ Hg), (plain_proto _ Hg).
  destruct (groups !! g) as [byName |]; [| reflexivity].
  change (Some byName ≫= (fun byName => byName !! n)) with (byName !! n).
  destruct (byName !! n); reflexivity.
Qed.

End ContextHistories.

(** X16. For a group id and a request name that [Object.prototype]
    does not hold, after any history of calls that wrote data under
    such ids and names only, on a context whose tables no write has gone
    beyond: [requestData(g, n)] is the record of the last
    [setRequestData(g, n, _)] of the history, or what it was before
    when the history has none, whatever else was called in between; the
    same holds of [responseData]; and the record is the own property
    [n] of the own property [g] of the table that [getData()]
    returns. *)
Theorem X16_context_data_last_write {Req Res : Type} (ops : list (context_op Req Res))
    (this : ExecutionContext.t Req Res) (g n : string) :
  ExecutionContext.tracked this = true ->
  forallb plain_keys ops = true ->
  JS.plain g = true -> JS.plain n = true ->
  let this' := fold_left apply_op ops this in
  ExecutionContext.requestData g n this'
  = last_request g n ops (ExecutionContext.requestData g n this)
  /\ ExecutionContext.responseData g n this'
     = last_response g n ops (ExecutionContext.responseData g n this)
  /\ ExecutionContext.requestData g n this'
     = ExecutionContext.Stored
         <$> own_record g n (ExecutionContext.req (ExecutionContext.getData this'))
  /\ ExecutionContext.responseData g n this'
     = ExecutionContext.Stored
         <$> own_record g n (ExecutionContext.res (ExecutionContext.getData this')).
Proof.
  intros Ht Hops Hg Hn this'.
  split; [apply requestData_history; assumption |].
  split; [apply responseData_history; assumption |].
  destruct (tracked_tables this' (fold_apply_op_tracked ops this Ht Hops))
    as (rq & rs & Hrq & Hrs).
  unfold ExecutionContext.requestData, ExecutionContext.responseData, ExecutionContext.getData.
  cbn [ExecutionContext.req ExecutionContext.res].
  split; eapply read_own_record; eassumption.
Qed.

Lemma X16_context_data_last_write_witness :
  ExecutionContext.requestData "group1" "request1"
    (@after_ops nat nat
       [SetRequestData "group1" "request1" 1; RegisterActiveGroup Fixture.groupA;
        SetResponseData "group1" "request1" 5; SetRequestData "group1" "request1" 2;
        SetRequestData "group1" "request2" 3])
  = Some (ExecutionContext.Stored 2)
  /\ ExecutionContext.responseData "group1" "request1"
       (@after_ops nat nat
          [SetRequestData "group1" "request1" 1; RegisterActiveGroup Fixture.groupA;
           SetResponseData "group1" "request1" 5; SetRequestData "group1" "request1" 2;
           SetRequestData "group1" "request2" 3])
     = Some (ExecutionContext.Stored 5).
Proof.
  destruct (@X16_context_data_last_write nat nat
              [SetRequestData "group1" "request1" 1; RegisterActiveGroup Fixture.groupA;
               SetResponseData "group1" "request1" 5; SetRequestData "group1" "request1" 2;
               SetRequestData "group1" "request2" 3]
              ExecutionContext.new "group1" "request1"
              eq_refl eq_refl eq_refl eq_refl) as (Hreq & Hres & _).
  split; [exact Hreq | exact Hres].
Defined.

(** ** The loop that removes while it iterates *)

Section Splice.
Context {A : Type}.
Variable P : A -> bool.

(** Induction two elements at a time, as the loop advances after a
    removal. *)
Lemma splice_loop_two_steps (Q : list A -> Prop) :
  Q [] -> (forall x, Q [x]) ->
  (forall x y a, Q a -> Q (y :: a) -> Q (x :: y :: a)) ->
  forall a, Q a.
Proof.
  intros Hnil Hone Hstep a.
  assert (H : Q a /\ forall x, Q (x :: a)).
  { induction a as [| y a [IHa IHya]].
    - split; [exact Hnil | exact Hone].
    - split; [apply IHya |]. intros x. apply Hstep; [exact IHa | apply IHya]. }
  apply H.
Qed.

Lemma splice_loop_skip x a :
  P x = false ->
  ExecutionContext.splice_loop P (x :: a) = x :: ExecutionContext.splice_loop P a.
Proof. intros H. cbn [ExecutionContext.splice_loop]. rewrite H. reflexivity. Qed.

Lemma splice_loop_remove x y a :
  P x = true ->
  ExecutionContext.splice_loop P (x :: y :: a) = y :: ExecutionContext.splice_loop P a.
Proof. intros H. cbn [ExecutionContext.splice_loop]. rewrite H. reflexivity. Qed.

(** The loop keeps every element that fails the test, in order. *)
Lemma splice_loop_keeps (a : list A) :
  List.filter (fun x => negb (P x)) (ExecutionContext.splice_loop P a)
  = List.filter (fun x => negb (P x)) a.
Proof.
  induction a as [| x | x y a IHa IHya] using splice_loop_two_steps.
  - reflexivity.
  - simpl. destruct (P x) eqn:Hx; simpl; rewrite ?Hx; reflexivity.
  - destruct (P x) eqn:Hx.
    + rewrite splice_loop_remove by exact Hx.
      cbn [List.filter]. rewrite Hx. cbn [negb]. rewrite IHa. reflexivity.
    + rewrite splice_loop_skip by exact Hx.
      cbn [List.filter]. rewrite Hx. cbn [negb]. f_equal. exact IHya.
Qed.

Lemma splice_loop_omap {B : Type} (f : A -> option B) (a : list A) :
  (forall x, P x = true -> f x = None) ->
  omap f (ExecutionContext.splice_loop P a) = omap f a.
Proof.
  intros Hf.
  assert (Hc : forall z l, omap f (z :: l)
                           = match f z with Some b => b :: omap f l | None => omap f l end)
    by reflexivity.
  induction a as [| x | x y a IHa IHya] using splice_loop_two_steps.
  - reflexivity.
  - cbn [ExecutionContext.splice_loop]. destruct (P x) eqn:Hx; [| reflexivity].
    rewrite Hc, (Hf x Hx). reflexivity.
  - destruct (P x) eqn:Hx.
    + rewrite splice_loop_remove by exact Hx.
      rewrite (Hc y), (Hc x), (Hf x Hx), (Hc y), IHa. reflexivity.
    + rewrite splice_loop_skip by exact Hx.
      rewrite (Hc x), IHya, (Hc x). reflexivity.
Qed.

(** It removes every element that passes the test when no two of them
    are neighbours. *)
Lemma splice_loop_no_adjacent (a : list A) :
  no_adjacent P a ->
  ExecutionContext.splice_loop P a = List.filter (fun x => negb (P x)) a.
Proof.
  induction a as [| x | x y a IHa IHya] using splice_loop_two_steps.
  - reflexivity.
  - intros _. simpl. destruct (P x) eqn:Hx; simpl; rewrite ?Hx; reflexivity.
  - intros [Hxy Hrest]. destruct (P x) eqn:Hx.
    + rewrite splice_loop_remove by exact Hx.
      cbn [List.filter]. rewrite Hx. cbn [negb].
      destruct (P y) eqn:Hy; [exfalso; apply Hxy; auto |]. cbn [negb]. f_equal.
      apply IHa. destruct a as [| z a]; [exact I | apply Hrest].
    + rewrite splice_loop_skip by exact Hx.
      cbn [List.filter]. rewrite Hx. cbn [negb]. f_equal. apply IHya, Hrest.
Qed.

Lemma splice_loop_clean_prefix (l r : list A) :
  Forall (fun x => P x = false) l ->
  ExecutionContext.splice_loop P (l ++ r) = l ++ ExecutionContext.splice_loop P r.
Proof.
  induction 1 as [| x l Hx _ IH]; [reflexivity |].
  cbn [app]. rewrite splice_loop_skip by exact Hx. rewrite IH. reflexivity.
Qed.

End Splice.

(** ** Active groups *)

Section ActiveGroups.
Context {Req Res : Type}.
Implicit Types this : ExecutionContext.t Req Res.

Lemma getActiveGroup_app this gid (l : list ExecutionContext.active) x :
  ExecutionContext._activeGroups this = l ++ [x] ->
  ExecutionContext.getActiveGroup gid this
  = if has_group_id gid x then Some x
    else fold_left
           (fun group y =>
              match ExecutionContext.active_id y with
              | Some i => if String.eqb i gid then Some y else group
              | None => group
              end) l None.
Proof.
  intros Hl. unfold ExecutionContext.getActiveGroup. rewrite Hl, fold_left_app. cbn [fold_left].
  unfold has_group_id. destruct (ExecutionContext.active_id x) as [i |]; [| reflexivity].
  destruct (String.eqb i gid); reflexivity.
Qed.

Lemma getActiveGroup_none this gid :
  ExecutionContext.getActiveGroup gid this = None
  <-> Forall (fun x => has_group_id gid x = false) (ExecutionContext._activeGroups this).
Proof.
  unfold ExecutionContext.getActiveGroup.
  induction (ExecutionContext._activeGroups this) as [| x l IH] using rev_ind.
  - split; [constructor | reflexivity].
  - rewrite fold_left_app, Forall_app, Forall_singleton. cbn [fold_left].
    unfold has_group_id at 2.
    destruct (ExecutionContext.active_id x) as [i |]; [| tauto].
    destruct (String.eqb i gid); [| tauto].
    split; [discriminate | intros [_ H]; discriminate H].
Qed.

Lemma getActiveGroup_some this gid x :
  ExecutionContext.getActiveGroup gid this = Some x ->
  x ∈ ExecutionContext._activeGroups this /\ has_group_id gid x = true.
Proof.
  unfold ExecutionContext.getActiveGroup.
  induction (ExecutionContext._activeGroups this) as [| y l IH] using rev_ind.
  - discriminate.
  - rewrite fold_left_app. cbn [fold_left]. rewrite elem_of_app, list_elem_of_singleton.
    destruct (ExecutionContext.active_id y) as [i |] eqn:Hy.
    + destruct (String.eqb i gid) eqn:Hi.
      * intros [= <-]. split; [right; reflexivity |]. unfold has_group_id. rewrite Hy. exact Hi.
      * intros H. destruct (IH H) as [Hin Hid]. split; [left; exact Hin | exact Hid].
    + intros H. destruct (IH H) as [Hin Hid]. split; [left; exact Hin | exact Hid].
Qed.

Lemma active_requests_of_app a b :
  active_requests_of (a ++ b) = active_requests_of a ++ active_requests_of b.
Proof. unfold active_requests_of. apply omap_app. Qed.

Lemma active_requests_step this (op : context_op Req Res) :
  active_requests_of (ExecutionContext._activeGroups (apply_op this op))
  = active_requests_of (ExecutionContext._activeGroups this) ++ registered_requests [op].
Proof.
  destruct op; cbn [apply_op]; cbn [registered_requests omap list_omap];
    rewrite ?setRequestData_activeGroups, ?setResponseData_activeGroups;
    rewrite ?app_nil_r; try reflexivity.
  - cbn. rewrite active_requests_of_app. cbn. apply app_nil_r.
  - cbn [ExecutionContext.unregisterActiveGroup ExecutionContext._activeGroups].
    unfold active_requests_of. apply splice_loop_omap.
    intros [g | r]; cbn; [reflexivity | discriminate].
  - cbn. rewrite active_requests_of_app. reflexivity.
Qed.

Lemma active_requests_history (ops : list (context_op Req Res)) this :
  active_requests_of (ExecutionContext._activeGroups (fold_left apply_op ops this))
  = active_requests_of (ExecutionContext._activeGroups this) ++ registered_requests ops.
Proof.
  revert this. induction ops as [| op ops IH]; intros this.
  - cbn. rewrite app_nil_r. reflexivity.
  - cbn [fold_left]. rewrite IH, active_requests_step, <- app_assoc. f_equal.
    symmetry. apply (omap_app _ [op] ops).
Qed.

Lemma activeRequests_history (ops : list (context_op Req Res)) this :
  ExecutionContext._activeRequests this = [] ->
  ExecutionContext._activeRequests (fold_left apply_op ops this) = [].
Proof.
  revert this. induction ops as [| op ops IH]; intros this Hthis; [exact Hthis |].
  cbn [fold_left]. apply IH.
  destruct op; cbn [apply_op];
    rewrite ?setRequestData_activeRequests, ?setResponseData_activeRequests;
    cbn; rewrite ?Hthis; reflexivity.
Qed.

End ActiveGroups.

Lemma json_copy_length es :
  length (JS.elems_of (ExecutionContext.json_copy (JArr es))) = length es.
Proof.
  cbn [ExecutionContext.json_copy JS.elems_of].
  induction es as [| x es IH]; [reflexivity |].
  destruct x; cbn [length]; rewrite IH; reflexivity.
Qed.

(** X17. [getActiveGroup(id)] right after [registerActiveGroup(g)]
    returns [g] for the id of [g] and what it returned before for any
    other id; [registerActiveRequest] changes nothing of what it returns;
    it returns [null] exactly when no entry of the active-groups list has
    the id; and what it returns is an entry of the list with that id. *)
Theorem X17_getActiveGroup_lookup {Req Res : Type} (this : ExecutionContext.t Req Res)
    (g : RequestGroup) :
  ExecutionContext.getActiveGroup (Tree.id g) (ExecutionContext.registerActiveGroup g this)
  = Some (ExecutionContext.ActiveGroup g)
  /\ (forall gid,
        gid <> Tree.id g ->
        ExecutionContext.getActiveGroup gid (ExecutionContext.registerActiveGroup g this)
        = ExecutionContext.getActiveGroup gid this)
  /\ (forall gid r,
        ExecutionContext.getActiveGroup gid (ExecutionContext.registerActiveRequest r this)
        = ExecutionContext.getActiveGroup gid this)
  /\ (forall gid,
        ExecutionContext.getActiveGroup gid this = None
        <-> Forall (fun x => has_group_id gid x = false) (ExecutionContext._activeGroups this))
  /\ (forall gid x,
        ExecutionContext.getActiveGroup gid this = Some x ->
        x ∈ ExecutionContext._activeGroups this /\ has_group_id gid x = true).
Proof.
  split; [| split; [| split; [| split]]].
  - rewrite (getActiveGroup_app (ExecutionContext.registerActiveGroup g this) _
               (ExecutionContext._activeGroups this) (ExecutionContext.ActiveGroup g) eq_refl).
    unfold has_group_id. cbn. rewrite String.eqb_refl. reflexivity.
  - intros gid Hne.
    rewrite (getActiveGroup_app (ExecutionContext.registerActiveGroup g this) _
               (ExecutionContext._activeGroups this) (ExecutionContext.ActiveGroup g) eq_refl).
    unfold has_group_id. cbn. apply not_eq_sym in Hne. apply String.eqb_neq in Hne.
    rewrite Hne. reflexivity.
  - intros gid r.
    rewrite (getActiveGroup_app (ExecutionContext.registerActiveRequest r this) _
               (ExecutionContext._activeGroups this) (ExecutionContext.ActiveRequest r) eq_refl).
    reflexivity.
  - intros gid. apply getActiveGroup_none.
  - intros gid x. apply getActiveGroup_some.
Qed.

Lemma X17_getActiveGroup_lookup_witness :
  ExecutionContext.getActiveGroup "A"
    (ExecutionContext.registerActiveGroup Fixture.groupB Fixture.one_active)
  = Some (ExecutionContext.ActiveGroup Fixture.groupA).
Proof.
  destruct (X17_getActiveGroup_lookup Fixture.one_active Fixture.groupB) as (_ & Hother & _).
  rewrite Hother by discriminate. reflexivity.
Defined.

(** X18. [unregisterActiveGroup(group)] keeps, in order, every entry of
    the active-groups list whose id is not that of [group], and touches
    nothing else of the context.  When no two entries with that id are
    neighbours it removes them all, and [getActiveGroup] of the id then
    returns [null]; so on a context where no entry has the id,
    registering [group] and unregistering it gives the context back. *)
Theorem X18_unregisterActiveGroup_removes {Req Res : Type}
    (this : ExecutionContext.t Req Res) (group : RequestGroup) :
  let this' := ExecutionContext.unregisterActiveGroup group this in
  let other := fun x => negb (has_group_id (Tree.id group) x) in
  List.filter other (ExecutionContext._activeGroups this')
  = List.filter other (ExecutionContext._activeGroups this)
  /\ (no_adjacent (has_group_id (Tree.id group)) (ExecutionContext._activeGroups this) ->
      ExecutionContext._activeGroups this'
      = List.filter other (ExecutionContext._activeGroups this)
      /\ ExecutionContext.getActiveGroup (Tree.id group) this' = None)
  /\ (Forall (fun x => has_group_id (Tree.id group) x = false)
        (ExecutionContext._activeGroups this) ->
      ExecutionContext.unregisterActiveGroup group
        (ExecutionContext.registerActiveGroup group this) = this)
  /\ ExecutionContext.getData this' = ExecutionContext.getData this
  /\ ExecutionContext._activeRequests this' = ExecutionContext._activeRequests this.
Proof.
  intros this' other. split; [| split; [| split; [| split]]].
  - apply (splice_loop_keeps (has_group_id (Tree.id group))).
  - intros Hadj.
    assert (Hall : ExecutionContext._activeGroups this'
                   = List.filter other (ExecutionContext._activeGroups this))
      by apply (splice_loop_no_adjacent (has_group_id (Tree.id group))), Hadj.
    split; [exact Hall |].
    apply getActiveGroup_none. rewrite Hall. rewrite Forall_forall. intros x Hx.
    apply list_elem_of_In, filter_In in Hx as [_ Hx]. unfold other in Hx.
    apply negb_true_iff in Hx. exact Hx.
  - intros Hclean. destruct this as [groups requests reqs ress].
    unfold ExecutionContext.unregisterActiveGroup, ExecutionContext.registerActiveGroup.
    cbn in *. f_equal.
    change (ExecutionContext.splice_loop (has_group_id (Tree.id group))
              (groups ++ [ExecutionContext.ActiveGroup group]) = groups).
    rewrite splice_loop_clean_prefix by exact Hclean.
    cbn. unfold has_group_id. cbn. rewrite String.eqb_refl. apply app_nil_r.
  - reflexivity.
  - reflexivity.
Qed.

Lemma X18_unregisterActiveGroup_removes_witness :
  ExecutionContext.unregisterActiveGroup Fixture.groupA Fixture.one_active
  = ExecutionContext.new
  /\ ExecutionContext.getActiveGroup "A"
       (ExecutionContext.unregisterActiveGroup Fixture.groupA Fixture.one_active) = None.
Proof.
  split.
  - destruct (X18_unregisterActiveGroup_removes (@ExecutionContext.new nat nat) Fixture.groupA)
      as (_ & _ & Hback & _).
    apply Hback. constructor.
  - destruct (X18_unregisterActiveGroup_removes Fixture.one_active Fixture.groupA)
      as (_ & Hall & _).
    apply Hall. exact I.
Defined.

(** X19. The loop of [unregisterActiveGroup] steps over the entry that
    follows one it removes: on a context where no entry has the id of
    [group], after [group] is registered twice and unregistered once, one
    entry for [group] is left on the active-groups list and
    [getActiveGroup] still returns it. *)
Theorem X19_unregisterActiveGroup_skips_neighbour {Req Res : Type}
    (this : ExecutionContext.t Req Res) (group : RequestGroup) :
  Forall (fun x => has_group_id (Tree.id group) x = false)
    (ExecutionContext._activeGroups this) ->
  let twice :=
    ExecutionContext.registerActiveGroup group
      (ExecutionContext.registerActiveGroup group this) in
  ExecutionContext._activeGroups (ExecutionContext.unregisterActiveGroup group twice)
  = ExecutionContext._activeGroups this ++ [ExecutionContext.ActiveGroup group]
  /\ ExecutionContext.getActiveGroup (Tree.id group)
       (ExecutionContext.unregisterActiveGroup group twice)
     = Some (ExecutionContext.ActiveGroup group).
Proof.
  intros Hclean twice.
  assert (Hleft : ExecutionContext._activeGroups
                    (ExecutionContext.unregisterActiveGroup group twice)
                  = ExecutionContext._activeGroups this ++ [ExecutionContext.ActiveGroup group]).
  { unfold twice, ExecutionContext.unregisterActiveGroup, ExecutionContext.registerActiveGroup.
    cbn [ExecutionContext._activeGroups].
    change (ExecutionContext.splice_loop (has_group_id (Tree.id group))
              ((ExecutionContext._activeGroups this ++ [ExecutionContext.ActiveGroup group])
                 ++ [ExecutionContext.ActiveGroup group])
            = ExecutionContext._activeGroups this ++ [ExecutionContext.ActiveGroup group]).
    rewrite <- app_assoc. rewrite splice_loop_clean_prefix by exact Hclean.
    cbn. unfold has_group_id. cbn. rewrite String.eqb_refl. reflexivity. }
  split; [exact Hleft |].
  rewrite (getActiveGroup_app _ _ _ _ Hleft).
  unfold has_group_id. cbn. rewrite String.eqb_refl. reflexivity.
Qed.

Lemma X19_unregisterActiveGroup_skips_neighbour_witness :
  ExecutionContext._activeGroups
    (ExecutionContext.unregisterActiveGroup Fixture.groupA
       (ExecutionContext.registerActiveGroup Fixture.groupA Fixture.one_active))
  = [ExecutionContext.ActiveGroup Fixture.groupA]
  /\ ExecutionContext.getActiveGroup "A"
       (ExecutionContext.unregisterActiveGroup Fixture.groupA
          (ExecutionContext.registerActiveGroup Fixture.groupA Fixture.one_active))
     = Some (ExecutionContext.ActiveGroup Fixture.groupA).
Proof.
  apply (X19_unregisterActiveGroup_skips_neighbour (@ExecutionContext.new nat nat)
           Fixture.groupA).
  constructor.
Defined.

(** X20. In any history of calls on a context, every request passed to
    [registerActiveRequest] is put on the active-groups list and stays
    there: no call removes it, and [getActiveGroups()] has one entry for
    each entry of that list.  On a context made by [new] the
    active-requests list stays empty: [getActiveRequests()] is empty,
    [getActiveRequest] returns [null], and [unregisterActiveRequests]
    changes nothing. *)
Theorem X20_registered_requests_stay {Req Res : Type}
    (ops : list (context_op Req Res)) (this : ExecutionContext.t Req Res) :
  let this' := fold_left apply_op ops this in
  active_requests_of (ExecutionContext._activeGroups this')
  = active_requests_of (ExecutionContext._activeGroups this) ++ registered_requests ops
  /\ length (ExecutionContext.getActiveGroups this')
     = length (ExecutionContext._activeGroups this')
  /\ ExecutionContext.getActiveRequests (after_ops ops) = []
  /\ (forall name, ExecutionContext.getActiveRequest name (after_ops ops) = JNull)
  /\ (forall r, ExecutionContext.unregisterActiveRequests r (after_ops ops) = after_ops ops).
Proof.
  intros this'.
  assert (Hempty : ExecutionContext._activeRequests (after_ops ops) = [])
    by (unfold after_ops; apply activeRequests_history; reflexivity).
  split; [apply active_requests_history |]. split; [| split; [| split]].
  - unfold ExecutionContext.getActiveGroups. rewrite json_copy_length, length_map. reflexivity.
  - unfold ExecutionContext.getActiveRequests. rewrite Hempty. reflexivity.
  - intros name. apply getActiveRequest_null.
  - intros r. unfold ExecutionContext.unregisterActiveRequests. rewrite Hempty.
    destruct (after_ops ops) as [groups requests reqs ress]. cbn in *. subst requests.
    reflexivity.
Qed.

(* ===================================================================== *)
(** * Further properties of the execution director *)
(* ===================================================================== *)

Section RequestDone.
Import ExecutionDirector.
Variables (now : nat) (g : RequestGroup) (r : Request.t) (resp : response) (output : jsval).

Lemma requestDone_director d :
  fst (_requestDone now g r resp output d)
  = emit (requestEnd (Tree.id g) r)
      (with_context
         (ExecutionContext.setResponseData (Tree.id g) (Request.name r)
            (done_record now r resp output)
            (ExecutionContext.unregisterActiveRequests r (executionContext d))) d).
Proof.
  unfold _requestDone.
  match goal with
  | |- context [if ?b then _ else _] => destruct b
  end; [| reflexivity].
  match goal with
  | |- context [match ?x with Some _ => _ | None => _ end] => destruct x as [[| |] |]
  end; reflexivity.
Qed.

Lemma requestDone_outcome d :
  snd (_requestDone now g r resp output d)
  = if debug d
    then match ExecutionContext.requestData (Tree.id g) (Request.name r)
                 (ExecutionContext.setResponseData (Tree.id g) (Request.name r)
                    (done_record now r resp output)
                    (ExecutionContext.unregisterActiveRequests r (executionContext d))) with
         | Some (ExecutionContext.Stored _) | Some ExecutionContext.Inherited =>
             Some (Returned tt)
         | Some ExecutionContext.Unspecified => None
         | None => Some (Thrown TypeError)
         end
    else Some (Returned tt).
Proof.
  unfold _requestDone, done_record.
  cbn [debug emit with_context executionContext].
  destruct (debug d); [| reflexivity].
  match goal with
  | |- context [match ?x with Some _ => _ | None => _ end] => destruct x as [[| |] |]
  end; reflexivity.
Qed.

(** On tracked tables and under plain keys, the request record of the
    pair is a stored record or [null], before and after. *)
Lemma requestDone_stored d :
  JS.plain (Tree.id g) = true -> JS.plain (Request.name r) = true ->
  ExecutionContext.tracked (executionContext d) = true ->
  ExecutionContext.requestData (Tree.id g) (Request.name r)
    (ExecutionContext.setResponseData (Tree.id g) (Request.name r)
       (done_record now r resp output)
       (ExecutionContext.unregisterActiveRequests r (executionContext d)))
  = ExecutionContext.requestData (Tree.id g) (Request.name r) (executionContext d)
  /\ ExecutionContext.requestData (Tree.id g) (Request.name r) (executionContext d)
     = ExecutionContext.Stored
         <$> own_record (Tree.id g) (Request.name r)
               (ExecutionContext._requests (executionContext d)).
Proof.
  intros Hg Hn Ht. split.
  - rewrite requestData_setResponseData by assumption. reflexivity.
  - destruct (tracked_tables _ Ht) as (rq & rs & Hrq & Hrs).
    unfold ExecutionContext.requestData. eapply read_own_record; eassumption.
Qed.

End RequestDone.

(** X21. For a group id and a request name that [Object.prototype]
    does not hold, on a context whose tables no write has gone beyond:
    [_requestDone] stores under [(group id, request name)] a response
    record with the body and time given and [isCanceled] false, emits
    [requestEnd], and leaves the request record of the pair as it was.
    It throws, a [TypeError], exactly in debug mode when the context has
    no request record for the pair, and it has stored and emitted by
    then.  After [_requestStarted] for the pair, whatever calls were
    made on the context since that wrote data under such ids and names
    only, it returns. *)
Theorem X21_requestDone_debug (now : nat) (g : RequestGroup) (r : Request.t)
    (resp : response) (output : jsval) (d : ExecutionDirector.t) :
  JS.plain (Tree.id g) = true -> JS.plain (Request.name r) = true ->
  ExecutionContext.tracked (ExecutionDirector.executionContext d) = true ->
  let d' := fst (ExecutionDirector._requestDone now g r resp output d) in
  let outcome := snd (ExecutionDirector._requestDone now g r resp output d) in
  let stored := fun this =>
    ExecutionContext.requestData (Tree.id g) (Request.name r)
      (ExecutionDirector.executionContext this) in
  (exists record,
      ExecutionContext.responseData (Tree.id g) (Request.name r)
        (ExecutionDirector.executionContext d') = Some (ExecutionContext.Stored record)
      /\ rs_body record = output /\ rs_endTime record = now /\ isCanceled record = false)
  /\ ExecutionDirector.emitted d'
     = ExecutionDirector.emitted d ++ [ExecutionDirector.requestEnd (Tree.id g) r]
  /\ stored d' = stored d
  /\ (outcome = Some (Thrown TypeError)
      <-> ExecutionDirector.debug d = true /\ stored d = None)
  /\ (outcome = Some (Returned tt)
      <-> ExecutionDirector.debug d = false \/ stored d <> None)
  /\ (forall now0 requestObject input ops,
        forallb plain_keys ops = true ->
        let d1 := ExecutionDirector._requestStarted now0 g r requestObject input d in
        let later :=
          ExecutionDirector.with_context
            (fold_left apply_op ops (ExecutionDirector.executionContext d1)) d1 in
        snd (ExecutionDirector._requestDone now g r resp output later) = Some (Returned tt)).
Proof.
  intros Hg Hn Ht d' outcome stored.
  destruct (requestDone_stored now g r resp output d Hg Hn Ht) as [Hkeep Hown].
  split; [| split; [| split; [| split; [| split]]]].
  - unfold d'. rewrite requestDone_director.
    cbn [ExecutionDirector.emit ExecutionDirector.with_context
           ExecutionDirector.executionContext].
    eexists. split.
    + rewrite responseData_set by assumption. rewrite decide_True by done. reflexivity.
    + repeat split.
  - unfold d'. rewrite requestDone_director. reflexivity.
  - unfold stored, d'. rewrite requestDone_director. exact Hkeep.
  - unfold outcome, stored. rewrite requestDone_outcome, Hkeep, Hown.
    destruct (ExecutionDirector.debug d);
      destruct (own_record _ _ _); cbn; split; try tauto; try discriminate;
      intros [H1 H2]; discriminate.
  - unfold outcome, stored. rewrite requestDone_outcome, Hkeep, Hown.
    destruct (ExecutionDirector.debug d);
      destruct (own_record _ _ _); cbn; split; try tauto; try discriminate; auto.
    intros [H | H]; [discriminate | contradiction].
  - intros now0 requestObject input ops Hops d1 later.
    assert (Ht1 : ExecutionContext.tracked (ExecutionDirector.executionContext d1) = true).
    { unfold d1, ExecutionDirector._requestStarted.
      cbn [ExecutionDirector.emit ExecutionDirector.with_context
             ExecutionDirector.executionContext].
      apply setRequestData_tracked; assumption. }
    assert (Htl : ExecutionContext.tracked (ExecutionDirector.executionContext later) = true).
    { unfold later. cbn [ExecutionDirector.with_context ExecutionDirector.executionContext].
      apply fold_apply_op_tracked; assumption. }
    destruct (requestDone_stored now g r resp output later Hg Hn Htl) as [Hkeepl _].
    rewrite requestDone_outcome, Hkeepl.
    destruct (ExecutionDirector.debug later); [| reflexivity].
    unfold later. cbn [ExecutionDirector.executionContext ExecutionDirector.with_context].
    rewrite requestData_history by assumption.
    assert (Hstored : exists x,
               ExecutionContext.requestData (Tree.id g) (Request.name r)
                 (ExecutionDirector.executionContext d1)
               = Some (ExecutionContext.Stored x)).
    { unfold d1, ExecutionDirector._requestStarted.
      cbn [ExecutionDirector.emit ExecutionDirector.with_context
             ExecutionDirector.executionContext].
      rewrite requestData_set by assumption. rewrite decide_True by done.
      eexists. reflexivity. }
    destruct Hstored as [x ->].
    destruct (last_request_stays ops (Tree.id g) (Request.name r) x) as [x' ->].
    reflexivity.
Qed.

Lemma X21_requestDone_debug_witness :
  snd (ExecutionDirector._requestDone 2 Fixture.groupA (Request.new "a") example_response
         (JStr "[]") (ExecutionDirector.new Fixture.one_group true))
  = Some (Thrown TypeError)
  /\ snd (ExecutionDirector._requestDone 2 Fixture.groupA (Request.new "a") example_response
            (JStr "[]")
            (ExecutionDirector._requestStarted 1 Fixture.groupA (Request.new "a")
               example_outgoing JUndef (ExecutionDirector.new Fixture.one_group true)))
     = Some (Returned tt).
Proof.
  destruct (X21_requestDone_debug 2 Fixture.groupA (Request.new "a") example_response
              (JStr "[]") (ExecutionDirector.new Fixture.one_group true)
              eq_refl eq_refl eq_refl) as (_ & _ & _ & Hthrow & _ & Hlater).
  split.
  - apply Hthrow. split; reflexivity.
  - apply (Hlater 1 example_outgoing JUndef []). reflexivity.
Defined.

(** X22. On a director on which [abort()] was called,
    [_requestGroupDone] counts the group and unregisters it, and then
    returns: it emits no [groupEnd], starts no player for a child, hands
    nothing to the transport and does not call the completion callback,
    be the group the last one or not.  It emits [abort] when the
    active-requests list is empty, and nothing otherwise. *)
Theorem X22_requestGroupDone_after_abort (g : RequestGroup) (w : ExecutionDirector.world) :
  ExecutionDirector._aborted (ExecutionDirector.director w) = true ->
  let w' := ExecutionDirector._requestGroupDone g w in
  let d := ExecutionDirector.director w in
  let d' := ExecutionDirector.director w' in
  ExecutionDirector.players w' = ExecutionDirector.players w
  /\ ExecutionDirector.transport w' = ExecutionDirector.transport w
  /\ ExecutionDirector._tmpGroupsCounter d' = S (ExecutionDirector._tmpGroupsCounter d)
  /\ ExecutionDirector.executionContext d'
     = ExecutionContext.unregisterActiveGroup g (ExecutionDirector.executionContext d)
  /\ ExecutionDirector.emitted d'
     = ExecutionDirector.emitted d
         ++ (if Nat.eqb (length (ExecutionContext._activeRequests
                                   (ExecutionDirector.executionContext d))) 0
             then [ExecutionDirector.abort_event] else [])
  /\ ExecutionDirector._aborted d' = true.
Proof.
  intros Hab w' d d'. unfold d', w', ExecutionDirector._requestGroupDone,
    ExecutionDirector._isAborted.
  cbn [ExecutionDirector.with_context ExecutionDirector.set_counter
         ExecutionDirector._aborted ExecutionDirector.executionContext].
  fold d. unfold d in Hab |- *. rewrite Hab.
  unfold ExecutionContext.getActiveRequests. rewrite json_copy_length, length_map.
  cbn [ExecutionContext.unregisterActiveGroup ExecutionContext._activeRequests].
  destruct (Nat.eqb _ 0); cbn; rewrite ?app_nil_r; repeat split; exact Hab.
Qed.

Lemma X22_requestGroupDone_after_abort_witness :
  ExecutionDirector.emitted
    (ExecutionDirector.director
       (ExecutionDirector._requestGroupDone (Group "first" [Request.new "local"] [])
          Fixture.aborted_world))
  = [ExecutionDirector.groupStart (Group "first" [Request.new "local"] []);
     ExecutionDirector.abort_event]
  /\ ExecutionDirector._tmpGroupsCounter
       (ExecutionDirector.director
          (ExecutionDirector._requestGroupDone (Group "first" [Request.new "local"] [])
             Fixture.aborted_world)) = 1.
Proof.
  destruct (X22_requestGroupDone_after_abort (Group "first" [Request.new "local"] [])
              Fixture.aborted_world eq_refl) as (_ & _ & Hcount & _ & Hemit & _).
  split; [exact Hemit | exact Hcount].
Defined.

(* ===================================================================== *)
(** * The tests of the repository, on the embedding *)
(* ===================================================================== *)

Example test_request_wrong_url :
  exists e, @Request.get SimpleUrl.modules "test" (JStr "resd/asd*ads") = Thrown e.
Proof. eexists. reflexivity. Qed.

Example test_request_get :
  @Request.get SimpleUrl.modules "test" (JStr "http://api.com/test")
  = Returned CoilTest.request.
Proof. reflexivity. Qed.

Example test_request_post :
  match @Request.post SimpleUrl.modules "test" (JStr "http://api.com/test") with
  | Returned req => JS.get (Request.settings req) "method" = JStr Request.HttpVerb.POST
  | Thrown _ => False
  end.
Proof. reflexivity. Qed.

Example test_request_invalid_configuration :
  exists e,
    @Request.get SimpleUrl.modules "test"
      (JObj PlainObject [("host", JStr "api.com"); ("method", JStr "GET")]) = Thrown e.
Proof. eexists. reflexivity. Qed.

Example test_coil_add_without_group :
  exists e, snd (Rcoil.addRequest (Request.to_js CoilTest.request) Rcoil.new) = Thrown e.
Proof. eexists. reflexivity. Qed.

Example test_coil_start_group :
  Rcoil._tmpPositionId CoilTest.coil1 = "testGroup"
  /\ (fun group => JS.get group "id") <$> (Rcoil.calls CoilTest.coil1 !! 0)
     = Some (JStr "testGroup").
Proof. split; reflexivity. Qed.

Example test_coil_lookup :
  Rcoil._findRequestGroup (JArr (Rcoil.calls CoilTest.coil1)) "testGroup" <> None
  /\ Rcoil._findRequestGroup (JArr (Rcoil.calls CoilTest.coil1)) "testGroupFake" = None.
Proof. split; [discriminate | reflexivity]. Qed.

Example test_coil_second_group :
  Rcoil._tmpPositionId CoilTest.coil3 = "secondGroup"
  /\ Rcoil.requestGroupsCount CoilTest.coil3 = 2
  /\ Rcoil.calls CoilTest.coil3
     = [Tree.to_js (Group "testGroup" [CoilTest.request] [Group "secondGroup" [] []])].
Proof. repeat split. Qed.

Example test_coil_invalid_request :
  exists e,
    snd (Rcoil.addRequest (JObj PlainObject [("hello", JStr "World")]) CoilTest.coil3)
    = Thrown e.
Proof. eexists. reflexivity. Qed.

Example test_coil_reset_position :
  Rcoil._tmpPositionId (Rcoil.fromTheBeginning CoilTest.coil3) = "".
Proof. reflexivity. Qed.

Example test_sequential_requests :
  let group2 := Group "group2" [Request.new "request2"] [] in
  let group1 := Group "group1" [Request.new "request1"] [group2] in
  let started := ExecutionDirector.start (Some 1)
                   (ExecutionDirector.init (MkCoil [group1] 2) true) in
  ExecutionContext.requestData "group2" "request2"
    (ExecutionDirector.executionContext (ExecutionDirector.director started)) = None
  /\ exists w,
       @ExecutionDirector.run example_callbacks
         [ExecutionDirector.LInput 0 0 1 example_outgoing;
          ExecutionDirector.LResponse 0 0 2 example_response (JStr "[]");
          ExecutionDirector.LGroupEnd 0] started = Some w
       /\ last (ExecutionDirector.emitted (ExecutionDirector.director w))
          = Some (ExecutionDirector.groupStart group2)
       /\ ExecutionContext.requestData "group1" "request1"
            (ExecutionDirector.executionContext (ExecutionDirector.director w)) <> None.
Proof.
  intros group2 group1 started. split; [reflexivity |].
  eexists. split; [vm_compute; reflexivity |].
  split; [vm_compute; reflexivity | vm_compute; discriminate].
Qed.

Example test_request_input_function :
  match @Request.get SimpleUrl.modules "test" (JStr "http://api.com/test") with
  | Returned req => Request.inputFunc (Request.onInput (JFun 0) req) <> JNull
  | Thrown _ => False
  end.
Proof. discriminate. Qed.

Example test_request_lambda :
  JS.get (Request.settings (Request.lambda "test" (JStr "arn:aws:xxxxxxxx:lambda:asd")
                              (JStr "dev"))) "function"
  = JStr "arn:aws:xxxxxxxx:lambda:asd"
  /\ JS.get (Request.settings (Request.lambda "test" (JStr "arn:aws:xxxxxxxx:lambda:asd")
                                 (JStr "dev"))) "qualifier"
     = JStr "dev".
Proof. split; reflexivity. Qed.

Example test_request_lambda_without_qualifier :
  JS.get (Request.settings (Request.lambda "test" (JStr "arn:aws:xxxxxxxx:lambda:asd") JUndef))
    "qualifier"
  = JStr "$LATEST".
Proof. reflexivity. Qed.
